(** * Photon-statistics engine of the time-multiplexed quantum walk

    A shallow embedding of [main.py]: the enumeration of detection labels,
    the dictionary transforms (normalise, filter, trace over H/V, convolve),
    the circuit assembled by [computeWalkOutput] and the mode-mismatch
    combination of [computeWalkOutputWithMM].

    Conventions.
    - Python integers are [Z]; a detection label (a tuple of ints) is a
      [list Z].
    - Python floats are idealised as rationals [Q]; equality of weights is
      [Qeq] ([==]).  A zero divisor raises, as it does on Python floats;
      numpy scalars give nan or inf entries instead, and statements about
      that case say so.
    - A [dict] is an association list in insertion order, as Python keeps
      it: assigning to an existing key keeps the key's position.
    - Exceptions are values of [exn]; a computation that may raise returns
      [res].
    - The Gaussian backend (strawberryfields) is outside the repository: the
      engine run and the Fock-probability query are Section variables.
      [computeWalkOutput] and [computeWalkOutputWithMM] are the runs the
      backend serves (every call answers); [computeWalkOutput_raising] and
      [computeWalkOutputWithMM_raising] are the same code against a backend
      whose calls may raise, and agree with them when none does. *)

From Stdlib Require Import List ZArith QArith Qpower Lia Lqa Arith Factorial.
From Stdlib Require Import FinFun Sorted.
Import ListNotations.

Set Implicit Arguments.

(* ================================================================== *)
(** ** Python primitives *)

Module Py.

Inductive exn : Type :=
| IndexError
| ZeroDivisionError
| RecursionError
| ValueError.

Inductive res (A : Type) : Type :=
| Ok (a : A)
| Raise (e : exn).

Arguments Ok {A} a.
Arguments Raise {A} e.

Definition bind {A B : Type} (c : res A) (k : A -> res B) : res B :=
  match c with
  | Ok a => k a
  | Raise e => Raise e
  end.

(** [range(n)] *)
Definition range (n : Z) : list Z :=
  map Z.of_nat (seq 0 (Z.to_nat n)).

(** [range(a, -1, -1)]: a, a-1, ..., 0 *)
Definition range_down (a : Z) : list Z :=
  rev (range (a + 1)).

(** [sum(t)] over a tuple of ints: left to right from 0 *)
Definition sum (t : list Z) : Z :=
  fold_left Z.add t 0%Z.

(** [sum(values)] over floats: left to right from 0 *)
Definition fsum (vs : list Q) : Q :=
  fold_left Qplus vs 0%Q.

(** [tuple(sum(x) for x in zip(o1, o2))]; zip stops at the shorter tuple *)
Definition zip_add (o1 o2 : list Z) : list Z :=
  map (fun x => (0 + fst x + snd x)%Z) (combine o1 o2).

(** [t[start::step]]: the elements at indices start, start+step, ...;
    [skip] counts the elements to pass over before the next one kept *)
Fixpoint slice_step (A : Type) (skip step : nat) (t : list A) : list A :=
  match t with
  | [] => []
  | x :: t' =>
      match skip with
      | O => x :: slice_step (step - 1) step t'
      | S skip' => slice_step skip' step t'
      end
  end.

(** float division [a / b]: a zero divisor raises [ZeroDivisionError] on
    Python floats (on numpy scalars the same expression gives nan or inf
    with a warning; the rational model has one outcome for both) *)
Definition fdiv (a b : Q) : res Q :=
  if Qeq_bool b 0 then Raise ZeroDivisionError else Ok (a / b)%Q.

(** a for loop whose body may raise, threading the loop state *)
Fixpoint for_each (A S : Type) (xs : list A) (body : A -> S -> res S) (s : S)
  : res S :=
  match xs with
  | [] => Ok s
  | x :: xs' => bind (body x s) (for_each xs' body)
  end.

End Py.

Import Py.

Notation "x <- c ;; k" := (Py.bind c (fun x => k))
  (at level 61, c at next level, right associativity).

(* ================================================================== *)
(** ** Detection labels and dictionaries *)

Definition outcome : Type := list Z.

Definition outcome_eq_dec : forall a b : outcome, {a = b} + {a <> b} :=
  list_eq_dec Z.eq_dec.

Definition ProbDict : Type := list (outcome * Q).

Module Dict.

Definition keys (d : ProbDict) : list outcome := map fst d.
Definition values (d : ProbDict) : list Q := map snd d.

(** [d.get(k)] as an option, [d.get(k, dflt)] *)
Fixpoint find (k : outcome) (d : ProbDict) : option Q :=
  match d with
  | [] => None
  | (k', v) :: d' => if outcome_eq_dec k k' then Some v else find k d'
  end.

Definition get (d : ProbDict) (k : outcome) (dflt : Q) : Q :=
  match find k d with
  | Some v => v
  | None => dflt
  end.

(** [d[k] = v]: overwrite in place, or append a new key at the end *)
Fixpoint set (d : ProbDict) (k : outcome) (v : Q) : ProbDict :=
  match d with
  | [] => [(k, v)]
  | (k', v') :: d' =>
      if outcome_eq_dec k k' then (k', v) :: d' else (k', v') :: set d' k v
  end.

(** Python's [d1 == d2] on dictionaries, over idealised weights: the same
    keys, with equal values, whatever the insertion order. *)
Definition opt_eq (a b : option Q) : Prop :=
  match a, b with
  | Some x, Some y => x == y
  | None, None => True
  | _, _ => False
  end.

Definition equiv (d1 d2 : ProbDict) : Prop :=
  forall k, opt_eq (find k d1) (find k d2).

End Dict.

(* ================================================================== *)
(** ** generate_photon_outcomes *)

(** The inner helper appends to the enclosing [outcomes] list, which is
    threaded through here.  [depth] is the number of nested calls still
    allowed: a call made at depth 0 is Python's [RecursionError]. *)
Fixpoint generate_outcomes_helper (depth : nat) (N max_photons : Z)
  (current_outcome : list Z) (remaining_photons current_mode : Z)
  (outcomes : list outcome) {struct depth} : res (list outcome) :=
  match depth with
  | O => Raise RecursionError
  | S depth' =>
      if (current_mode =? N)%Z then
        Ok (if (remaining_photons >=? 0)%Z
            then outcomes ++ [current_outcome]
            else outcomes)
      else
        for_each
          (range (Z.min (max_photons + 1) (remaining_photons + 1)))
          (fun photons_in_mode outs =>
             let new_outcome := current_outcome ++ [photons_in_mode] in
             generate_outcomes_helper depth' N max_photons new_outcome
               (remaining_photons - photons_in_mode) (current_mode + 1) outs)
          outcomes
  end.

(** The recursion is [N + 1] calls deep when [N >= 0]; for [N < 0] the
    helper never reaches [current_mode == N] and any call it makes
    exhausts the interpreter's stack. *)
Definition generate_photon_outcomes (N max_photons : Z) : res (list outcome) :=
  generate_outcomes_helper (S (Z.to_nat N)) N max_photons [] max_photons 0 [].

(* ================================================================== *)
(** ** Dictionary transforms *)

(** A dict comprehension [{k: v for ...}] inserts its items in order. *)
Definition dict_of_items (items : list (outcome * Q)) : ProbDict :=
  fold_left (fun acc kv => Dict.set acc (fst kv) (snd kv)) items [].

(** [{key: value / sum(p.values()) for key, value in p.items()}]: the sum
    and the division are evaluated once per item, so an empty [p] divides
    nothing. *)
Definition normalizeProbDict (p : ProbDict) : res ProbDict :=
  for_each p
    (fun kv acc =>
       w <- fdiv (snd kv) (fsum (Dict.values p)) ;;
       Ok (Dict.set acc (fst kv) w))
    [].

Definition filterProbDict (pDict : ProbDict) (num_photons : Z) : res ProbDict :=
  let filtered_probabilities :=
    dict_of_items
      (filter (fun kv => (Py.sum (fst kv) =? num_photons)%Z) pDict) in
  normalizeProbDict filtered_probabilities.

(** [acc[sub] = acc.get(sub, 0) + value], the accumulation step of
    [traceOverHV] and of [convolve_probabilities]. *)
Definition accumulate (acc : ProbDict) (sub : outcome) (value : Q) : ProbDict :=
  Dict.set acc sub (Dict.get acc sub 0 + value)%Q.

Definition traceOverHV_loop (pDict : ProbDict) : ProbDict * ProbDict :=
  fold_left
    (fun HV kv =>
       let H_outcome := slice_step 0 2 (fst kv) in
       let V_outcome := slice_step 1 2 (fst kv) in
       (accumulate (fst HV) H_outcome (snd kv),
        accumulate (snd HV) V_outcome (snd kv)))
    pDict ([], []).

Definition traceOverHV (pDict : ProbDict) : res (ProbDict * ProbDict) :=
  let HV := traceOverHV_loop pDict in
  H <- normalizeProbDict (fst HV) ;;
  V <- normalizeProbDict (snd HV) ;;
  Ok (H, V).

Definition convolve_probabilities (prob1 prob2 : ProbDict) (max_photons : Z)
  : ProbDict :=
  fold_left
    (fun acc1 kv1 =>
       fold_left
         (fun acc kv2 =>
            let convolved_outcome := zip_add (fst kv1) (fst kv2) in
            if (Py.sum convolved_outcome <=? max_photons)%Z
            then accumulate acc convolved_outcome (snd kv1 * snd kv2)
            else acc)
         prob2 acc1)
    prob1 [].

(* ================================================================== *)
(** ** The walk circuit *)

(** Gate parameters are kept symbolic where the source computes them with
    [numpy]: [Lit x] is the float [x], [PiMul x] is [x * pi] and [Sqrt x]
    is [np.sqrt(x)]. *)
Inductive param : Type :=
| Lit (x : Q)
| PiMul (x : Q)
| Sqrt (x : Q).

(** an angle in degrees, for the parameters that are multiples of pi *)
Definition degrees (a : param) : option Q :=
  match a with
  | PiMul x => Some (180 * x)%Q
  | _ => None
  end.

Inductive Op : Type :=
| S2gate (r phi : param) (m1 m2 : Z)
| LossChannel (T : param) (m : Z)
| Coherent (alpha : param) (m : Z)
| BSgate (theta phi : param) (m1 m2 : Z)
| ThermalLossChannel (T nbar : param) (m : Z).

(** [sf.Program(num_subsystems)] with the operations applied in its
    context, in order. *)
Record Program : Type := mkProgram {
  num_subsystems : Z;
  circuit : list Op
}.

(** [q[i]] on a register of [n] modes: Python sequence indexing.  (The
    source only ever uses non-negative indices.) *)
Definition q_index (n i : Z) : res Z :=
  if ((0 <=? i) && (i <? n))%bool%Z then Ok i
  else if ((- n <=? i) && (i <? 0))%bool%Z then Ok (n + i)%Z
  else Raise IndexError.

(** [G | q[i]] and [G | (q[i], q[j])]: the register is indexed, then the
    operation is appended to the program. *)
Definition apply1 (n : Z) (G : Z -> Op) (i : Z) (ops : list Op) : res (list Op) :=
  m <- q_index n i ;;
  Ok (ops ++ [G m]).

Definition apply2 (n : Z) (G : Z -> Z -> Op) (i j : Z) (ops : list Op)
  : res (list Op) :=
  m1 <- q_index n i ;;
  m2 <- q_index n j ;;
  Ok (ops ++ [G m1 m2]).

Section Circuit.

Variables (nSteps : Z) (r alphaSq eta gamma n_noise etaFock : Q).

Let nModes : Z := (2 * nSteps + 2)%Z.
Let n : Z := (nModes + 1)%Z.

Definition odd_step_body (k : Z) (ops : list Op) : res (list Op) :=
  ops <- apply2 n (BSgate (PiMul (- (1 # 4))) (Lit 0)) (2*k+1) (2*k+2) ops ;;
  ops <- apply2 n (BSgate (PiMul (- (1 # 4))) (Lit 0)) (2*k+3) (2*k+4) ops ;;
  ops <- apply2 n (BSgate (PiMul (1 # 2)) (Lit gamma)) (2*k+2) (2*k+4) ops ;;
  ops <- apply2 n (BSgate (PiMul (1 # 4)) (Lit 0)) (2*k+1) (2*k+2) ops ;;
  apply2 n (BSgate (PiMul (1 # 4)) (Lit 0)) (2*k+3) (2*k+4) ops.

Definition even_step_body (k : Z) (ops : list Op) : res (list Op) :=
  apply2 n (BSgate (PiMul (1 # 2)) (Lit gamma)) (2*k+2) (2*k+4) ops.

Definition walk_step (stepNumber : Z) (ops : list Op) : res (list Op) :=
  ops <- (if (stepNumber mod 2 =? 1)%Z
          then for_each (range_down (stepNumber - 1)) odd_step_body ops
          else Ok ops) ;;
  if (stepNumber mod 2 =? 0)%Z
  then for_each (range_down (stepNumber - 1)) even_step_body ops
  else Ok ops.

Definition hwp_body (k : Z) (ops : list Op) : res (list Op) :=
  apply2 n (BSgate (PiMul (- (1 # 4))) (Lit 0)) (2*k+1) (2*k+2) ops.

Definition loss_body (i : Z) (ops : list Op) : res (list Op) :=
  apply1 n (ThermalLossChannel (Lit eta) (Lit n_noise)) i ops.

(** the body of [with prog.context as q:] *)
Definition build_circuit : res (list Op) :=
  ops <- apply2 n (S2gate (Lit r) (Lit 0)) 0 1 [] ;;
  ops <- apply1 n (LossChannel (Lit etaFock)) 1 ops ;;
  ops <- apply1 n (Coherent (Sqrt alphaSq)) 2 ops ;;
  ops <- for_each (range (nSteps + 1)) walk_step ops ;;
  ops <- (if (nSteps mod 2 =? 1)%Z
          then for_each (range (nSteps + 1)) hwp_body ops
          else Ok ops) ;;
  for_each (range (nModes + 1)) loss_body ops.

Definition walk_program : res Program :=
  ops <- build_circuit ;;
  Ok (mkProgram n ops).

End Circuit.

(* ================================================================== *)
(** ** The simulation against the backend *)

(** What the program asks of the backend, in order. *)
Inductive Event : Type :=
| EngineRun (hbar : Z) (prog : Program)
| FockProb (detLabel : list Z).

(** A computation that may raise and that logs its backend calls; the log
    survives an exception. *)
Definition Sim (A : Type) : Type := list Event -> res A * list Event.

Definition sim_ret {A : Type} (a : A) : Sim A := fun log => (Ok a, log).

Definition sim_bind {A B : Type} (c : Sim A) (k : A -> Sim B) : Sim B :=
  fun log =>
    match c log with
    | (Ok a, log') => k a log'
    | (Raise e, log') => (Raise e, log')
    end.

Definition sim_lift {A : Type} (c : res A) : Sim A := fun log => (c, log).

Definition sim_call {A : Type} (ev : Event) (answer : A) : Sim A :=
  fun log => (Ok answer, log ++ [ev]).

Fixpoint sim_for {A S : Type} (xs : list A) (body : A -> S -> Sim S) (s : S)
  : Sim S :=
  match xs with
  | [] => sim_ret s
  | x :: xs' => sim_bind (body x s) (sim_for xs' body)
  end.

Notation "x <~ c ;; k" := (sim_bind c (fun x => k))
  (at level 61, c at next level, right associativity).

(** the value and the log of a whole run *)
Definition run_sim {A : Type} (c : Sim A) : res A * list Event := c [].
Definition result {A : Type} (c : Sim A) : res A := fst (run_sim c).
Definition backend_calls {A : Type} (c : Sim A) : list Event := snd (run_sim c).

Section Backend.

(** the state returned by [eng.run(prog)], under the global [sf.hbar];
    here every call answers (for calls that may raise, see
    [computeWalkOutput_raising]) *)
Variable State : Type.
Variable eng_run : Z -> Program -> State.
(** [state.fock_prob(detLabel)] *)
Variable fock_prob : State -> list Z -> Q.

Definition computeWalkOutput (nSteps : Z) (r alphaSq eta gamma : Q)
  (max_photons : Z) (n_noise etaFock : Q) : Sim ProbDict :=
  let nModes := (2 * nSteps + 2)%Z in
  let hbar := 2%Z in
  prog <~ sim_lift (walk_program nSteps r alphaSq eta gamma n_noise etaFock) ;;
  state <~ sim_call (EngineRun hbar prog) (eng_run hbar prog) ;;
  allLabels <~ sim_lift (generate_photon_outcomes nModes max_photons) ;;
  sim_for allLabels
    (fun label pn =>
       let detLabel := [1%Z] ++ label in
       p <~ sim_call (FockProb detLabel) (fock_prob state detLabel) ;;
       sim_ret (Dict.set pn label p))
    [].

Definition computeWalkOutputWithMM (nSteps : Z) (r alphaSq eta gamma mm : Q)
  (max_photons : Z) (n_noise : Q) : Sim ProbDict :=
  pn_para <~ computeWalkOutput nSteps r (mm * alphaSq) eta gamma
               max_photons n_noise 1 ;;
  pn_perp <~ computeWalkOutput nSteps r ((1 - mm) * alphaSq) eta gamma
               max_photons n_noise 0 ;;
  let pn_final := convolve_probabilities pn_para pn_perp 2 in
  sim_lift (normalizeProbDict pn_final).

End Backend.

(* ================================================================== *)
(** ** The simulation against a backend that may raise *)

(** a backend call that is logged and then answers or raises *)
Definition sim_ask {A : Type} (ev : Event) (answer : res A) : Sim A :=
  fun log => (answer, log ++ [ev]).

Section RaisingBackend.

(** [eng.run(prog)] and [state.fock_prob(detLabel)] may raise: the real
    backend raises [ValueError] at a query on a state built from a nan
    amplitude, which is what [np.sqrt] gives for a negative intensity. *)
Variable State : Type.
Variable eng_run : Z -> Program -> res State.
Variable fock_prob : State -> list Z -> res Q.

Definition computeWalkOutput_raising (nSteps : Z) (r alphaSq eta gamma : Q)
  (max_photons : Z) (n_noise etaFock : Q) : Sim ProbDict :=
  let nModes := (2 * nSteps + 2)%Z in
  let hbar := 2%Z in
  prog <~ sim_lift (walk_program nSteps r alphaSq eta gamma n_noise etaFock) ;;
  state <~ sim_ask (EngineRun hbar prog) (eng_run hbar prog) ;;
  allLabels <~ sim_lift (generate_photon_outcomes nModes max_photons) ;;
  sim_for allLabels
    (fun label pn =>
       let detLabel := [1%Z] ++ label in
       p <~ sim_ask (FockProb detLabel) (fock_prob state detLabel) ;;
       sim_ret (Dict.set pn label p))
    [].

Definition computeWalkOutputWithMM_raising (nSteps : Z)
  (r alphaSq eta gamma mm : Q) (max_photons : Z) (n_noise : Q) : Sim ProbDict :=
  pn_para <~ computeWalkOutput_raising nSteps r (mm * alphaSq) eta gamma
               max_photons n_noise 1 ;;
  pn_perp <~ computeWalkOutput_raising nSteps r ((1 - mm) * alphaSq) eta gamma
               max_photons n_noise 0 ;;
  let pn_final := convolve_probabilities pn_para pn_perp 2 in
  sim_lift (normalizeProbDict pn_final).

End RaisingBackend.

(** a backend that answers every call, as one that may raise *)
Definition serving_run {State : Type} (eng_run : Z -> Program -> State)
  : Z -> Program -> res State :=
  fun hbar prog => Ok (eng_run hbar prog).

Definition serving_fock {State : Type} (fock_prob : State -> list Z -> Q)
  : State -> list Z -> res Q :=
  fun state detLabel => Ok (fock_prob state detLabel).

(* ================================================================== *)
(** ** example.py *)

Section Example.

Variable State : Type.
Variable eng_run : Z -> Program -> res State.
Variable fock_prob : State -> list Z -> res Q.

(** The simulation and the post-processing of the script, as a function of
    its parameter block; the plotting that follows only reads
    [twoFolds_ideal] and [twoFolds_imperfect].  The four results are
    (oneFolds_ideal, oneFolds_imperfect, twoFolds_ideal,
    twoFolds_imperfect). *)
Definition example_statistics (nSteps : Z) (alphaSq r eta gamma mm n_noise : Q)
  (max_photons : Z) : Sim (ProbDict * ProbDict * ProbDict * ProbDict) :=
  pn_ideal <~ computeWalkOutput_raising eng_run fock_prob nSteps r alphaSq
                eta gamma max_photons n_noise 1 ;;
  pn_imperfect <~ computeWalkOutputWithMM_raising eng_run fock_prob nSteps r
                    alphaSq eta gamma mm max_photons n_noise ;;
  HV_ideal <~ sim_lift (traceOverHV pn_ideal) ;;
  HV_imperfect <~ sim_lift (traceOverHV pn_imperfect) ;;
  let pn_ideal_H := fst HV_ideal in
  let pn_imperfect_H := fst HV_imperfect in
  oneFolds_ideal <~ sim_lift (filterProbDict pn_ideal_H 1) ;;
  oneFolds_imperfect <~ sim_lift (filterProbDict pn_imperfect_H 1) ;;
  twoFolds_ideal <~ sim_lift (filterProbDict pn_ideal_H 2) ;;
  twoFolds_imperfect <~ sim_lift (filterProbDict pn_imperfect_H 2) ;;
  sim_ret (oneFolds_ideal, oneFolds_imperfect, twoFolds_ideal, twoFolds_imperfect).

(** the script, with the parameters it sets *)
Definition example : Sim (ProbDict * ProbDict * ProbDict * ProbDict) :=
  example_statistics 3 (8 # 100) (7 # 100) (7 # 100) 0 (7 # 10) (5 # 1000000) 2.

End Example.

(* ================================================================== *)
(** ** The enumeration, as a function of what is left to fill *)

(** [completions mp n rem]: the ways to fill the [n] modes that are left
    when [rem] photons remain, in the order the helper visits them. *)
Fixpoint completions (max_photons : Z) (n : nat) (remaining : Z) : list outcome :=
  match n with
  | O => if (remaining >=? 0)%Z then [[]] else []
  | S n' =>
      flat_map
        (fun p => map (cons p) (completions max_photons n' (remaining - p)))
        (range (Z.min (max_photons + 1) (remaining + 1)))
  end.

Definition valid_outcome (N max_photons : Z) (t : outcome) : Prop :=
  Z.of_nat (length t) = N /\
  Forall (fun x => 0 <= x <= max_photons)%Z t /\
  (Py.sum t <= max_photons)%Z.

(** The number of ways to put at most [m] photons in [n] modes, by the
    first mode's occupation. *)
Fixpoint count_upto (n m : nat) : nat :=
  match n with
  | O => 1
  | S n' => list_sum (map (fun p => count_upto n' (m - p)) (seq 0 (S m)))
  end.


(** the mathematical sum of [f] over a list *)
Definition qsum (A : Type) (f : A -> Q) (l : list A) : Q :=
  fold_right (fun x acc => f x + acc) 0 l.

(** *** Convolution, as the specification words it *)

(** [s] is the element-wise sum of [o1] and [o2] *)
Definition elementwise_sum (o1 o2 s : outcome) : Prop :=
  length s = length o1 /\ length s = length o2 /\
  forall i : nat, nth i s 0%Z = (nth i o1 0 + nth i o2 0)%Z.

(** the product of the two weights when the outcomes add up to [s] *)
Definition pair_term (s : outcome) (kv1 kv2 : outcome * Q) : Q :=
  if outcome_eq_dec (zip_add (fst kv1) (fst kv2)) s
  then snd kv1 * snd kv2 else 0.

(** the sum, over all pairs of entries whose outcomes add up to [s], of the
    product of their weights *)
Definition conv_weight (d1 d2 : ProbDict) (s : outcome) : Q :=
  qsum (fun kv1 => qsum (pair_term s kv1) d2) d1.

(** the product of the two weights when the summed outcome is kept *)
Definition kept_term (max_photons : Z) (kv1 kv2 : outcome * Q) : Q :=
  if (Py.sum (zip_add (fst kv1) (fst kv2)) <=? max_photons)%Z
  then snd kv1 * snd kv2 else 0.

(** the mass of the pairs that are not discarded *)
Definition kept_mass (d1 d2 : ProbDict) (max_photons : Z) : Q :=
  qsum (fun kv1 => qsum (kept_term max_photons kv1) d2) d1.

(** all the keys of [d] are tuples of length [n] *)
Definition same_length (n : nat) (d : ProbDict) : Prop :=
  Forall (fun k => length k = n) (Dict.keys d).

(** the body of the inner loop of [convolve_probabilities], for the entry
    [kv1] of the outer loop *)
Definition conv_inner (max_photons : Z) (kv1 : outcome * Q)
  (acc : ProbDict) (kv2 : outcome * Q) : ProbDict :=
  let convolved_outcome := zip_add (fst kv1) (fst kv2) in
  if (Py.sum convolved_outcome <=? max_photons)%Z
  then accumulate acc convolved_outcome (snd kv1 * snd kv2)
  else acc.

(** [pair_term] under the truncation test *)
Definition guarded_term (max_photons : Z) (s : outcome)
  (kv1 kv2 : outcome * Q) : Q :=
  if (Py.sum (zip_add (fst kv1) (fst kv2)) <=? max_photons)%Z
  then pair_term s kv1 kv2 else 0.

(** the distribution of the specification's convolution example *)
Definition half_half : ProbDict := [([1%Z], 1 # 2); ([0%Z], 1 # 2)].

(** *** Normalisation and marginals, as the specification words them *)

(** every weight of [d] is zero *)
Definition all_zero (d : ProbDict) : Prop :=
  Forall (fun v => v == 0) (Dict.values d).

(** every weight divided by the total *)
Definition scaled (total : Q) (d : ProbDict) : ProbDict :=
  map (fun kv => (fst kv, snd kv / total)) d.

(** the sum of the weights of the outcomes that project to [h] *)
Definition marginal_weight (proj : outcome -> outcome) (d : ProbDict)
  (h : outcome) : Q :=
  qsum (fun kv => if outcome_eq_dec (proj (fst kv)) h then snd kv else 0) d.

(** the accumulation loop of [traceOverHV] for one projection *)
Definition marginal_loop (proj : outcome -> outcome) (d acc : ProbDict)
  : ProbDict :=
  fold_left (fun acc kv => accumulate acc (proj (fst kv)) (snd kv)) d acc.

(** *** The walk topology, as the specification words it *)

(** the -45 degree coupling of the two channels of time bin [k] *)
Definition basis_change (k : Z) : Op :=
  BSgate (PiMul (- (1 # 4))) (Lit 0) (2 * k + 1) (2 * k + 2).

(** the +45 degree coupling that undoes it *)
Definition inverse_basis_change (k : Z) : Op :=
  BSgate (PiMul (1 # 4)) (Lit 0) (2 * k + 1) (2 * k + 2).

(** the 90 degree coupling, of phase [gamma], between the second channels
    of the time bins [k] and [k + 1] *)
Definition time_shift (gamma : Q) (k : Z) : Op :=
  BSgate (PiMul (1 # 2)) (Lit gamma) (2 * k + 2) (2 * k + 4).

(** s-1, ..., 0 *)
Fixpoint countdown (s : nat) : list Z :=
  match s with
  | O => []
  | S s' => Z.of_nat s' :: countdown s'
  end.

Definition odd_step_ops (gamma : Q) (s : nat) : list Op :=
  flat_map
    (fun k => [basis_change k; basis_change (k + 1);
               time_shift gamma k;
               inverse_basis_change k; inverse_basis_change (k + 1)])
    (countdown s).

Definition even_step_ops (gamma : Q) (s : nat) : list Op :=
  map (time_shift gamma) (countdown s).

(** the transition of step [s], by parity *)
Definition step_ops (gamma : Q) (s : nat) : list Op :=
  if Nat.odd s then odd_step_ops gamma s else even_step_ops gamma s.

Definition init_ops (r alphaSq etaFock : Q) : list Op :=
  [S2gate (Lit r) (Lit 0) 0 1; LossChannel (Lit etaFock) 1;
   Coherent (Sqrt alphaSq) 2].

Definition walk_ops (gamma : Q) (nSteps : nat) : list Op :=
  flat_map (step_ops gamma) (seq 0 (S nSteps)).

Definition terminal_ops (nSteps : nat) : list Op :=
  if Nat.odd nSteps
  then map (fun k => basis_change (Z.of_nat k)) (seq 0 (S nSteps))
  else [].

Definition closing_ops (eta n_noise : Q) (nSteps : nat) : list Op :=
  map (fun i => ThermalLossChannel (Lit eta) (Lit n_noise) (Z.of_nat i))
      (seq 0 (2 * nSteps + 3)).

Definition walk_topology (nSteps : nat) (r alphaSq eta gamma n_noise etaFock : Q)
  : list Op :=
  init_ops r alphaSq etaFock ++ walk_ops gamma nSteps
  ++ terminal_ops nSteps ++ closing_ops eta n_noise nSteps.

(** *** The map returned by computeWalkOutput, as the specification words it *)

(** the backend's probability of each label, with one photon in the herald *)
Definition heralded_map (prob : list Z -> Q) (labels : list outcome) : ProbDict :=
  map (fun o => (o, prob (1%Z :: o))) labels.

(** the Fock-probability queries for the labels, in order *)
Definition heralded_queries (labels : list outcome) : list Event :=
  map (fun o => FockProb (1%Z :: o)) labels.

(** the program of a walk of [nSteps] steps *)
Definition the_program (nSteps : Z) (r alphaSq eta gamma n_noise etaFock : Q)
  : Program :=
  mkProgram (2 * nSteps + 2 + 1)
    (walk_topology (Z.to_nat nSteps) r alphaSq eta gamma n_noise etaFock).

(** the labels of a walk of [nSteps] steps *)
Definition the_labels (nSteps max_photons : Z) : list outcome :=
  completions max_photons (Z.to_nat (2 * nSteps + 2)) max_photons.

(** *** A small backend to evaluate the engine on *)

(** every mode in a thermal state of mean photon number 1: a label
    [(n0, n1, ...)] has probability [(1/2)^(n0+1) (1/2)^(n1+1) ...] *)
Definition thermal_prob (label : list Z) : Q :=
  fold_right (fun k acc => Qpower (1 # 2) (k + 1) * acc) 1 label.

(** the all-zero outcome over [n] channels *)
Definition vacuum (n : nat) : outcome := repeat 0%Z n.

(** the state only records whether the heralded photon is blocked by a
    [LossChannel] of transmission 0 *)
Definition toy_run (hbar : Z) (prog : Program) : bool :=
  existsb
    (fun op => match op with
               | LossChannel (Lit T) _ => Qeq_bool T 0
               | _ => false
               end)
    (circuit prog).

(** blocked: one herald photon and nothing else, with probability 1/4;
    otherwise the thermal distribution *)
Definition toy_fock (blocked : bool) (label : list Z) : Q :=
  if blocked
  then if outcome_eq_dec label (1%Z :: vacuum (length label - 1))
       then 1 # 4 else 0
  else thermal_prob label.

(** all the weight of [d] sits on the all-zero outcome *)
Definition concentrated_on_vacuum (d : ProbDict) : Prop :=
  forall o v, In (o, v) d ->
    if outcome_eq_dec o (vacuum (length o)) then ~ v == 0 else v == 0.

(** the two branch distributions of the small backend, for a walk of no
    step over two channels with cutoff 2 *)
Definition toy_open : ProbDict := heralded_map (toy_fock false) (the_labels 0 2).
Definition toy_blocked : ProbDict := heralded_map (toy_fock true) (the_labels 0 2).

(** *** A small backend that rejects nan amplitudes *)

(** the state only records whether the coherent amplitude is the square
    root of a negative intensity *)
Definition nan_run (hbar : Z) (prog : Program) : res bool :=
  Ok (existsb
        (fun op => match op with
                   | Coherent (Sqrt x) _ => negb (Qle_bool 0 x)
                   | _ => false
                   end)
        (circuit prog)).

(** a query on such a state raises; any other state is thermal *)
Definition nan_fock (is_nan : bool) (label : list Z) : res Q :=
  if is_nan then Raise ValueError else Ok (thermal_prob label).

(** *** Further specification-level notions *)

(** the weight of the outcomes of [d] whose total is [num_photons] *)
Definition subspace_mass (d : ProbDict) (num_photons : Z) : Q :=
  qsum (fun kv => if (Py.sum (fst kv) =? num_photons)%Z then snd kv else 0) d.

(** every weight of [d] is non-negative *)
Definition nonneg_weights (d : ProbDict) : Prop :=
  Forall (fun v => 0 <= v) (Dict.values d).

(** every weight of [d] is a probability *)
Definition unit_weights (d : ProbDict) : Prop :=
  Forall (fun v => 0 <= v <= 1) (Dict.values d).

(** a small unnormalised distribution over two channels *)
Definition sample_dict : ProbDict :=
  [([1; 0]%Z, 1 # 2); ([0; 1]%Z, 1 # 4); ([0; 0]%Z, 1 # 8)].

(** Python's order on tuples of ints *)
Inductive lex_lt : list Z -> list Z -> Prop :=
| lex_nil (b : Z) (l : list Z) : lex_lt [] (b :: l)
| lex_head (a b : Z) (l1 l2 : list Z) : (a < b)%Z -> lex_lt (a :: l1) (b :: l2)
| lex_tail (a : Z) (l1 l2 : list Z) : lex_lt l1 l2 -> lex_lt (a :: l1) (a :: l2).

(** where an operation of the walk may act when the detection modes are
    1..[top] and mode 0 is the herald *)
Definition well_placed (top : Z) (op : Op) : Prop :=
  match op with
  | S2gate _ _ a b => a = 0%Z /\ b = 1%Z
  | LossChannel _ m => m = 1%Z
  | Coherent _ m => m = 2%Z
  | BSgate _ _ a b => (1 <= a < b)%Z /\ (b <= top)%Z
  | ThermalLossChannel _ _ m => (0 <= m <= top)%Z
  end.

Definition is_thermal_loss (op : Op) : bool :=
  match op with
  | ThermalLossChannel _ _ _ => true
  | _ => false
  end.

(** the computation meets a zero divisor.  On Python floats this is the
    [ZeroDivisionError]; on numpy scalars, such as the backend returns, the
    same division gives nan or inf entries with a warning and nothing is
    raised.  The rational weights do not separate the two: both are the one
    outcome below. *)
Definition zero_divisor {A : Type} (c : res A) : Prop :=
  c = Raise ZeroDivisionError.

(** the weight of the outcomes of [d] whose projection has total
    [num_photons] *)
Definition projected_mass (proj : outcome -> outcome) (d : ProbDict)
  (num_photons : Z) : Q :=
  qsum (fun kv => if (Py.sum (proj (fst kv)) =? num_photons)%Z
                  then snd kv else 0) d.




(* ================================================================== *)
(** ** Facts about the Python primitives *)

Lemma range_In (n x : Z) : In x (range n) <-> (0 <= x < n)%Z.
Proof.
  unfold range. rewrite in_map_iff. split.
  - intros [k [<- Hk]]. apply in_seq in Hk. lia.
  - intros H. exists (Z.to_nat x). split; [lia|]. apply in_seq. lia.
Qed.

Lemma range_NoDup (n : Z) : NoDup (range n).
Proof.
  unfold range. apply Injective_map_NoDup.
  - intros a b H. lia.
  - apply seq_NoDup.
Qed.

Lemma range_length (n : Z) : length (range n) = Z.to_nat n.
Proof. unfold range. now rewrite length_map, length_seq. Qed.

Lemma range_nonpos (n : Z) : (n <= 0)%Z -> range n = [].
Proof. intros H. unfold range. replace (Z.to_nat n) with 0%nat by lia. reflexivity. Qed.

Lemma fold_add_shift (l : list Z) (a : Z) :
  fold_left Z.add l a = (a + fold_left Z.add l 0)%Z.
Proof.
  revert a. induction l as [|x l IH]; intros a; simpl.
  - lia.
  - rewrite (IH (a + x)%Z), (IH x). lia.
Qed.

Lemma sum_nil : Py.sum [] = 0%Z.
Proof. reflexivity. Qed.

Lemma sum_cons (x : Z) (l : list Z) : Py.sum (x :: l) = (x + Py.sum l)%Z.
Proof. unfold Py.sum. simpl. now rewrite fold_add_shift. Qed.

Lemma sum_nonneg (l : list Z) : Forall (fun x => 0 <= x)%Z l -> (0 <= Py.sum l)%Z.
Proof.
  induction 1 as [|x l Hx _ IH].
  - rewrite sum_nil. lia.
  - rewrite sum_cons. lia.
Qed.

Lemma for_each_app (A S : Type) (xs ys : list A) (body : A -> S -> res S) (s : S) :
  for_each (xs ++ ys) body s = Py.bind (for_each xs body s) (for_each ys body).
Proof.
  revert s. induction xs as [|x xs IH]; intros s; simpl.
  - reflexivity.
  - destruct (body x s); simpl; auto.
Qed.

Lemma helper_loop (depth : nat) (N mp : Z) (n : nat) (cur : list Z) (rem cm : Z)
  (ps : list Z) :
  (forall p outs,
      generate_outcomes_helper depth N mp (cur ++ [p]) (rem - p) (cm + 1) outs
      = Ok (outs ++ map (app (cur ++ [p])) (completions mp n (rem - p)))) ->
  forall outs,
    for_each ps
      (fun photons_in_mode outs =>
         generate_outcomes_helper depth N mp (cur ++ [photons_in_mode])
           (rem - photons_in_mode) (cm + 1) outs) outs
    = Ok (outs ++ map (app cur)
            (flat_map (fun p => map (cons p) (completions mp n (rem - p))) ps)).
Proof.
  intros Hbody. induction ps as [|p ps IH]; intros outs; simpl.
  - now rewrite app_nil_r.
  - rewrite Hbody. simpl. rewrite IH. f_equal.
    rewrite map_app, app_assoc. f_equal. f_equal.
    rewrite map_map. apply map_ext. intros t. now rewrite <- app_assoc.
Qed.

Lemma helper_spec (mp N : Z) (n : nat) :
  forall (depth : nat) (cur : list Z) (rem cm : Z) (outs : list outcome),
    (N - cm)%Z = Z.of_nat n ->
    (n < depth)%nat ->
    generate_outcomes_helper depth N mp cur rem cm outs
    = Ok (outs ++ map (app cur) (completions mp n rem)).
Proof.
  induction n as [|n IH]; intros depth cur rem cm outs Hn Hd.
  - destruct depth as [|depth]; [lia|]. simpl.
    replace (cm =? N)%Z with true by (symmetry; apply Z.eqb_eq; lia).
    destruct (rem >=? 0)%Z; simpl.
    + now rewrite app_nil_r.
    + now rewrite app_nil_r.
  - destruct depth as [|depth]; [lia|].
    cbn [generate_outcomes_helper].
    replace (cm =? N)%Z with false by (symmetry; apply Z.eqb_neq; lia).
    cbn zeta.
    apply helper_loop with (n := n).
    intros p outs'. apply IH; lia.
Qed.

Lemma generate_photon_outcomes_completions (N mp : Z) :
  (0 <= N)%Z ->
  generate_photon_outcomes N mp = Ok (completions mp (Z.to_nat N) mp).
Proof.
  intros HN. unfold generate_photon_outcomes.
  rewrite helper_spec with (n := Z.to_nat N); try lia.
  cbn [app]. f_equal.
  etransitivity; [apply map_ext with (g := fun t => t); reflexivity | apply map_id].
Qed.

(* ================================================================== *)
(** ** The enumeration is complete, duplicate-free and counted *)

Lemma completions_In (mp : Z) (n : nat) :
  forall (rem : Z) (t : outcome),
    In t (completions mp n rem) <->
    length t = n /\ Forall (fun x => 0 <= x <= mp)%Z t /\ (Py.sum t <= rem)%Z.
Proof.
  induction n as [|n IH]; intros rem t; simpl.
  - destruct (Z.geb_spec rem 0) as [Hr|Hr]; simpl.
    + split.
      * intros [<-|[]]. rewrite sum_nil. repeat split; [constructor | lia].
      * intros [Hl _]. left. destruct t; [reflexivity | discriminate].
    + split; [tauto|]. intros [Hl [_ Hs]].
      destruct t; [|discriminate]. rewrite sum_nil in Hs. lia.
  - rewrite in_flat_map. split.
    + intros [p [Hp Ht]]. apply range_In in Hp.
      apply in_map_iff in Ht. destruct Ht as [t' [<- Ht']].
      apply IH in Ht'. destruct Ht' as [Hl [Hf Hs]].
      rewrite sum_cons. simpl. repeat split; [congruence | | lia].
      constructor; [lia | assumption].
    + intros [Hl [Hf Hs]]. destruct t as [|p t']; [discriminate|].
      inversion Hf as [|? ? Hp Hf']; subst. rewrite sum_cons in Hs.
      assert (0 <= Py.sum t')%Z.
      { apply sum_nonneg. eapply Forall_impl; [|exact Hf']. simpl. intros; lia. }
      exists p. split.
      * apply range_In. lia.
      * apply in_map. apply IH. repeat split; [simpl in Hl; lia | assumption | lia].
Qed.

Lemma NoDup_flat_map_cons (A : Type) (f : A -> list (list A)) (ps : list A) :
  NoDup ps -> (forall p, NoDup (f p)) ->
  NoDup (flat_map (fun p => map (cons p) (f p)) ps).
Proof.
  intros Hps Hf. induction Hps as [|p ps Hp _ IH]; simpl.
  - constructor.
  - apply NoDup_app.
    + apply Injective_map_NoDup; [|apply Hf]. intros a b H. congruence.
    + exact IH.
    + intros t Ht1 Ht2. apply in_map_iff in Ht1. destruct Ht1 as [t1 [<- _]].
      apply in_flat_map in Ht2. destruct Ht2 as [p' [Hp' Ht2]].
      apply in_map_iff in Ht2. destruct Ht2 as [t2 [E _]].
      inversion E; subst. contradiction.
Qed.

Lemma completions_NoDup (mp : Z) (n : nat) :
  forall rem : Z, NoDup (completions mp n rem).
Proof.
  induction n as [|n IH]; intros rem; simpl.
  - destruct (rem >=? 0)%Z; repeat constructor. simpl. tauto.
  - apply NoDup_flat_map_cons with (f := fun p => completions mp n (rem - p)).
    + apply range_NoDup.
    + intros p. apply IH.
Qed.

(** *** Counting *)

Lemma length_flat_map_sum (A B : Type) (f : A -> list B) (l : list A) :
  length (flat_map f l) = list_sum (map (fun x => length (f x)) l).
Proof.
  induction l as [|x l IH]; simpl.
  - reflexivity.
  - now rewrite length_app, IH.
Qed.

Lemma completions_length (mp : Z) (n : nat) :
  forall m : nat, (Z.of_nat m <= mp)%Z ->
    length (completions mp n (Z.of_nat m)) = count_upto n m.
Proof.
  induction n as [|n IH]; intros m Hm.
  - simpl. destruct (Z.geb_spec (Z.of_nat m) 0); [reflexivity | lia].
  - cbn [completions count_upto]. rewrite length_flat_map_sum.
    rewrite Z.min_r by lia. unfold range. rewrite map_map.
    replace (Z.to_nat (Z.of_nat m + 1)) with (S m) by lia.
    f_equal. apply map_ext_in. intros p Hp. apply in_seq in Hp.
    rewrite length_map.
    replace (Z.of_nat m - Z.of_nat p)%Z with (Z.of_nat (m - p)) by lia.
    apply IH. lia.
Qed.

Lemma count_upto_0_r (n : nat) : count_upto n 0 = 1%nat.
Proof.
  induction n as [|n IH]; simpl.
  - reflexivity.
  - rewrite IH. reflexivity.
Qed.

Lemma count_upto_pascal (n m : nat) :
  count_upto (S n) (S m) = (count_upto n (S m) + count_upto (S n) m)%nat.
Proof.
  cbn [count_upto].
  change (seq 0 (S (S m))) with (0%nat :: seq 1 (S m)).
  rewrite <- seq_shift, map_cons, map_map. cbn [list_sum]. reflexivity.
Qed.

Lemma count_upto_fact (n m : nat) :
  (count_upto n m * (fact n * fact m) = fact (n + m))%nat.
Proof.
  revert m. induction n as [|n IHn]; intros m.
  - simpl. lia.
  - induction m as [|m IHm].
    + rewrite count_upto_0_r. rewrite Nat.add_0_r. simpl fact at 2. lia.
    + rewrite count_upto_pascal.
      specialize (IHn (S m)).
      replace (S n + S m)%nat with (S (n + S m)) by lia.
      replace (S n + m)%nat with (n + S m)%nat in IHm by lia.
      change (fact (S (n + S m))) with (S (n + S m) * fact (n + S m))%nat.
      change (fact (S n)) with (S n * fact n)%nat in *.
      change (fact (S m)) with (S m * fact m)%nat in *.
      nia.
Qed.

Lemma generate_photon_outcomes_In (N mp : Z) (outs : list outcome) (t : outcome) :
  (0 <= N)%Z ->
  generate_photon_outcomes N mp = Ok outs ->
  (In t outs <-> valid_outcome N mp t).
Proof.
  intros HN E. rewrite generate_photon_outcomes_completions in E by assumption.
  injection E as <-. rewrite completions_In. unfold valid_outcome.
  split; intros [Hl H]; (split; [lia | exact H]).
Qed.

Lemma generate_photon_outcomes_NoDup (N mp : Z) (outs : list outcome) :
  (0 <= N)%Z ->
  generate_photon_outcomes N mp = Ok outs -> NoDup outs.
Proof.
  intros HN E. rewrite generate_photon_outcomes_completions in E by assumption.
  injection E as <-. apply completions_NoDup.
Qed.

(** C5: for [N >= 0] and [max_photons >= 0] the enumeration returns, without
    error, a duplicate-free list that contains exactly the tuples of length
    [N] with entries in [0, max_photons] and total at most [max_photons];
    its size is the binomial count [(N + max_photons)! / (N! max_photons!)];
    for [N = 0] it is the single empty tuple. *)
Theorem generate_photon_outcomes_correct (N max_photons : Z) :
  (0 <= N)%Z -> (0 <= max_photons)%Z ->
  exists outs : list outcome,
    generate_photon_outcomes N max_photons = Ok outs /\
    NoDup outs /\
    (forall t, In t outs <-> valid_outcome N max_photons t) /\
    (length outs * (fact (Z.to_nat N) * fact (Z.to_nat max_photons))
     = fact (Z.to_nat N + Z.to_nat max_photons))%nat /\
    (N = 0%Z -> outs = [[]]).
Proof.
  intros HN Hmp.
  pose proof (generate_photon_outcomes_completions max_photons HN) as E.
  exists (completions max_photons (Z.to_nat N) max_photons).
  split; [exact E|]. split; [apply completions_NoDup|]. split; [|split].
  - intros t. now apply generate_photon_outcomes_In.
  - pose proof (@completions_length max_photons (Z.to_nat N)
                  (Z.to_nat max_photons)) as Hlen.
    rewrite Z2Nat.id in Hlen by assumption.
    rewrite Hlen by lia. apply count_upto_fact.
  - intros ->. simpl. destruct (Z.geb_spec max_photons 0); [reflexivity | lia].
Qed.

Lemma generate_photon_outcomes_correct_witness :
  exists outs : list outcome,
    generate_photon_outcomes 3 2 = Ok outs /\
    NoDup outs /\
    (forall t, In t outs <-> valid_outcome 3 2 t) /\
    (length outs * (fact (Z.to_nat 3) * fact (Z.to_nat 2))
     = fact (Z.to_nat 3 + Z.to_nat 2))%nat /\
    (3%Z = 0%Z -> outs = [[]]).
Proof. apply (@generate_photon_outcomes_correct 3 2); lia. Defined.

(* ================================================================== *)
(** ** Sums of weights *)

Lemma fold_Qplus_shift (l : list Q) (a : Q) :
  fold_left Qplus l a == a + fold_left Qplus l 0.
Proof.
  revert a. induction l as [|x l IH]; intros a; simpl.
  - ring.
  - rewrite (IH (a + x)), (IH (0 + x)). ring.
Qed.

Lemma fsum_nil : fsum [] == 0.
Proof. reflexivity. Qed.

Lemma fsum_cons (x : Q) (l : list Q) : fsum (x :: l) == x + fsum l.
Proof. unfold fsum. simpl. rewrite fold_Qplus_shift. ring. Qed.

Lemma fsum_app (l1 l2 : list Q) : fsum (l1 ++ l2) == fsum l1 + fsum l2.
Proof.
  induction l1 as [|x l1 IH]; simpl.
  - rewrite fsum_nil. ring.
  - rewrite !fsum_cons, IH. ring.
Qed.

Lemma qsum_nil (A : Type) (f : A -> Q) : qsum f [] = 0.
Proof. reflexivity. Qed.

Lemma qsum_cons (A : Type) (f : A -> Q) (x : A) (l : list A) :
  qsum f (x :: l) = f x + qsum f l.
Proof. reflexivity. Qed.

Lemma qsum_ext (A : Type) (f g : A -> Q) (l : list A) :
  (forall x, In x l -> f x == g x) -> qsum f l == qsum g l.
Proof.
  induction l as [|x l IH]; intros H; simpl.
  - reflexivity.
  - rewrite (H x) by (now left). rewrite IH; [reflexivity|].
    intros y Hy. apply H. now right.
Qed.

Lemma qsum_zero (A : Type) (f : A -> Q) (l : list A) :
  (forall x, In x l -> f x == 0) -> qsum f l == 0.
Proof.
  induction l as [|x l IH]; intros H; simpl.
  - reflexivity.
  - rewrite (H x) by (now left). rewrite IH; [ring|].
    intros y Hy. apply H. now right.
Qed.

Lemma qsum_scale (A : Type) (c : Q) (f : A -> Q) (l : list A) :
  qsum (fun x => c * f x) l == c * qsum f l.
Proof.
  induction l as [|x l IH]; simpl.
  - ring.
  - rewrite IH. ring.
Qed.

Lemma qsum_plus (A : Type) (f g : A -> Q) (l : list A) :
  qsum (fun x => f x + g x) l == qsum f l + qsum g l.
Proof.
  induction l as [|x l IH]; simpl.
  - ring.
  - rewrite IH. ring.
Qed.

Lemma fsum_map_qsum (A : Type) (f : A -> Q) (l : list A) :
  fsum (map f l) == qsum f l.
Proof.
  induction l as [|x l IH]; simpl.
  - reflexivity.
  - rewrite fsum_cons, IH. reflexivity.
Qed.

(* ================================================================== *)
(** ** Dictionaries *)

Module DictFacts.

Import Dict.

Lemma find_set_same (d : ProbDict) (k : outcome) (v : Q) :
  find k (set d k v) = Some v.
Proof.
  induction d as [|[k' v'] d IH]; simpl.
  - destruct (outcome_eq_dec k k); congruence.
  - destruct (outcome_eq_dec k k') as [E|E]; simpl.
    + destruct (outcome_eq_dec k k'); congruence.
    + destruct (outcome_eq_dec k k'); congruence.
Qed.

Lemma find_set_other (d : ProbDict) (k k' : outcome) (v : Q) :
  k <> k' -> find k (set d k' v) = find k d.
Proof.
  intros Hne. induction d as [|[k0 v0] d IH]; simpl.
  - destruct (outcome_eq_dec k k'); congruence.
  - destruct (outcome_eq_dec k' k0) as [E|E]; simpl.
    + subst k0. destruct (outcome_eq_dec k k'); congruence.
    + destruct (outcome_eq_dec k k0); congruence.
Qed.

Lemma find_None_iff (d : ProbDict) (k : outcome) :
  find k d = None <-> ~ In k (keys d).
Proof.
  induction d as [|[k' v'] d IH]; simpl.
  - tauto.
  - destruct (outcome_eq_dec k k') as [E|E].
    + split; [discriminate|]. intros H. exfalso. apply H. left. congruence.
    + rewrite IH. split; intros H; [intros [H1|H1]; [congruence|tauto] | tauto].
Qed.

Lemma find_Some_In (d : ProbDict) (k : outcome) (v : Q) :
  find k d = Some v -> In (k, v) d.
Proof.
  induction d as [|[k' v'] d IH]; simpl; [discriminate|].
  destruct (outcome_eq_dec k k') as [E|E].
  - intros [= ->]. left. congruence.
  - intros H. right. now apply IH.
Qed.

Lemma find_In_keys (d : ProbDict) (k : outcome) :
  In k (keys d) <-> exists v, find k d = Some v.
Proof.
  destruct (find k d) as [v|] eqn:E.
  - split; [eauto|]. intros _. apply find_Some_In in E.
    apply in_map_iff. exists (k, v). auto.
  - apply find_None_iff in E. split; [tauto|]. intros [v Hv]. discriminate.
Qed.

Lemma In_find_NoDup (d : ProbDict) (k : outcome) (v : Q) :
  NoDup (keys d) -> In (k, v) d -> find k d = Some v.
Proof.
  induction d as [|[k' v'] d IH]; simpl; [tauto|].
  intros Hnd [E|Hin].
  - injection E as -> ->. destruct (outcome_eq_dec k k); congruence.
  - inversion Hnd as [|? ? Hni Hnd']; subst.
    destruct (outcome_eq_dec k k') as [E|E].
    + subst k'. exfalso. apply Hni. apply in_map_iff. exists (k, v). auto.
    + now apply IH.
Qed.

Lemma keys_set (d : ProbDict) (k k' : outcome) (v : Q) :
  In k' (keys (set d k v)) <-> k' = k \/ In k' (keys d).
Proof.
  induction d as [|[k0 v0] d IH]; simpl.
  - intuition.
  - destruct (outcome_eq_dec k k0) as [E|E]; simpl.
    + subst k0. intuition.
    + rewrite IH. intuition.
Qed.

Lemma set_absent (d : ProbDict) (k : outcome) (v : Q) :
  ~ In k (keys d) -> set d k v = d ++ [(k, v)].
Proof.
  induction d as [|[k0 v0] d IH]; simpl; intros H.
  - reflexivity.
  - destruct (outcome_eq_dec k k0) as [E|E].
    + exfalso. apply H. left. congruence.
    + rewrite IH; [reflexivity | tauto].
Qed.

Lemma keys_set_NoDup (d : ProbDict) (k : outcome) (v : Q) :
  NoDup (keys d) -> NoDup (keys (set d k v)).
Proof.
  induction d as [|[k0 v0] d IH]; simpl; intros Hnd.
  - repeat constructor. simpl. tauto.
  - inversion Hnd as [|? ? Hni Hnd']; subst.
    destruct (outcome_eq_dec k k0) as [E|E]; simpl.
    + constructor; assumption.
    + constructor; [|now apply IH].
      rewrite keys_set. intros [H|H]; [congruence | contradiction].
Qed.

Lemma get_set_same (d : ProbDict) (k : outcome) (v dflt : Q) :
  get (set d k v) k dflt = v.
Proof. unfold get. now rewrite find_set_same. Qed.

Lemma get_set_other (d : ProbDict) (k k' : outcome) (v dflt : Q) :
  k <> k' -> get (set d k' v) k dflt = get d k dflt.
Proof. intros H. unfold get. now rewrite find_set_other. Qed.

(** the values of a dictionary after [d[k] = v] sum to the old sum, less
    the old value at [k], plus [v] *)
Lemma fsum_values_set (d : ProbDict) (k : outcome) (v : Q) :
  fsum (values (set d k v)) == fsum (values d) - get d k 0 + v.
Proof.
  unfold values, get. induction d as [|[k0 v0] d IH]; simpl.
  - rewrite fsum_cons, fsum_nil. ring.
  - destruct (outcome_eq_dec k k0) as [E|E]; simpl.
    + rewrite !fsum_cons. ring.
    + rewrite !fsum_cons, IH. ring.
Qed.

End DictFacts.

(** *** The accumulation step *)

Lemma get_accumulate (acc : ProbDict) (o s : outcome) (v : Q) :
  Dict.get (accumulate acc o v) s 0
  == Dict.get acc s 0 + (if outcome_eq_dec o s then v else 0).
Proof.
  unfold accumulate. destruct (outcome_eq_dec o s) as [E|E].
  - subst s. rewrite DictFacts.get_set_same. reflexivity.
  - rewrite DictFacts.get_set_other by congruence. ring.
Qed.

Lemma keys_accumulate (acc : ProbDict) (o s : outcome) (v : Q) :
  In s (Dict.keys (accumulate acc o v)) <-> s = o \/ In s (Dict.keys acc).
Proof. apply DictFacts.keys_set. Qed.

Lemma keys_accumulate_NoDup (acc : ProbDict) (o : outcome) (v : Q) :
  NoDup (Dict.keys acc) -> NoDup (Dict.keys (accumulate acc o v)).
Proof. apply DictFacts.keys_set_NoDup. Qed.

Lemma fsum_values_accumulate (acc : ProbDict) (o : outcome) (v : Q) :
  fsum (Dict.values (accumulate acc o v)) == fsum (Dict.values acc) + v.
Proof. unfold accumulate. rewrite DictFacts.fsum_values_set. ring. Qed.

(* ================================================================== *)
(** ** convolve_probabilities *)

Lemma zip_add_length (o1 o2 : outcome) :
  length (zip_add o1 o2) = Nat.min (length o1) (length o2).
Proof. unfold zip_add. now rewrite length_map, length_combine. Qed.

Lemma zip_add_nth (o1 o2 : outcome) :
  length o1 = length o2 ->
  forall i, nth i (zip_add o1 o2) 0%Z = (nth i o1 0 + nth i o2 0)%Z.
Proof.
  revert o2. induction o1 as [|a o1 IH]; intros [|b o2] Hl i;
    try discriminate; simpl.
  - destruct i; reflexivity.
  - destruct i as [|i]; [reflexivity|]. apply IH. simpl in Hl. lia.
Qed.

Lemma nth_ext_Z (s t : list Z) :
  length s = length t -> (forall i, nth i s 0%Z = nth i t 0%Z) -> s = t.
Proof.
  intros Hl H. apply nth_ext with (d := 0%Z) (d' := 0%Z); auto.
Qed.

Lemma zip_add_elementwise (o1 o2 s : outcome) :
  length o1 = length o2 ->
  (zip_add o1 o2 = s <-> elementwise_sum o1 o2 s).
Proof.
  intros Hl. unfold elementwise_sum. split.
  - intros <-. rewrite zip_add_length.
    repeat split; [lia | lia | now apply zip_add_nth].
  - intros [H1 [H2 H3]]. apply nth_ext_Z.
    + rewrite zip_add_length. lia.
    + intros i. rewrite H3. now apply zip_add_nth.
Qed.

Section ConvolveLoops.

Variable max_photons : Z.

Let inner := conv_inner max_photons.
Let guarded := guarded_term max_photons.

Lemma inner_get (s : outcome) (kv1 : outcome * Q) (d2 acc : ProbDict) :
  Dict.get (fold_left (inner kv1) d2 acc) s 0
  == Dict.get acc s 0 + qsum (guarded s kv1) d2.
Proof.
  revert acc. induction d2 as [|kv2 d2 IH]; intros acc; cbn [fold_left]; rewrite ?qsum_nil, ?qsum_cons.
  - ring.
  - rewrite IH. unfold inner, guarded, conv_inner, guarded_term, pair_term. cbn zeta.
    destruct (_ <=? _)%Z.
    + rewrite get_accumulate. ring.
    + ring.
Qed.

Lemma outer_get (s : outcome) (d1 d2 acc : ProbDict) :
  Dict.get (fold_left (fun acc1 kv1 => fold_left (inner kv1) d2 acc1) d1 acc) s 0
  == Dict.get acc s 0 + qsum (fun kv1 => qsum (guarded s kv1) d2) d1.
Proof.
  revert acc. induction d1 as [|kv1 d1 IH]; intros acc; cbn [fold_left]; rewrite ?qsum_nil, ?qsum_cons.
  - ring.
  - rewrite IH, inner_get. ring.
Qed.

Lemma guarded_kept (s : outcome) (kv1 kv2 : outcome * Q) :
  (Py.sum s <= max_photons)%Z -> guarded s kv1 kv2 = pair_term s kv1 kv2.
Proof.
  intros Hs. unfold guarded, guarded_term, pair_term.
  destruct (outcome_eq_dec _ s) as [E|E].
  - rewrite E. now replace (_ <=? _)%Z with true by (symmetry; apply Z.leb_le; lia).
  - now destruct (_ <=? _)%Z.
Qed.

Lemma guarded_discarded (s : outcome) (kv1 kv2 : outcome * Q) :
  (max_photons < Py.sum s)%Z -> guarded s kv1 kv2 = 0.
Proof.
  intros Hs. unfold guarded, guarded_term, pair_term.
  destruct (outcome_eq_dec _ s) as [E|E].
  - rewrite E. now replace (_ <=? _)%Z with false by (symmetry; apply Z.leb_gt; lia).
  - now destruct (_ <=? _)%Z.
Qed.

Lemma inner_keys (s : outcome) (kv1 : outcome * Q) (d2 acc : ProbDict) :
  In s (Dict.keys (fold_left (inner kv1) d2 acc)) <->
  In s (Dict.keys acc) \/
  ((Py.sum s <= max_photons)%Z /\
   exists kv2, In kv2 d2 /\ zip_add (fst kv1) (fst kv2) = s).
Proof.
  revert acc. induction d2 as [|kv2 d2 IH]; intros acc; cbn [fold_left]; rewrite ?qsum_nil, ?qsum_cons.
  - split; [tauto|]. intros [H|[_ [kv2 [[] _]]]]. exact H.
  - rewrite IH. unfold inner, conv_inner. cbn zeta.
    destruct (Z.leb_spec (Py.sum (zip_add (fst kv1) (fst kv2))) max_photons) as [Hle|Hgt].
    + rewrite keys_accumulate. split.
      * intros [[->|H]|[Hs [kv [Hin E]]]]; eauto 7 using in_eq, in_cons.
      * intros [H|[Hs [kv [[<-|Hin] E]]]]; eauto 7 using in_eq, in_cons.
    + split.
      * intros [H|[Hs [kv [Hin E]]]]; eauto 7 using in_eq, in_cons.
      * intros [H|[Hs [kv [[<-|Hin] E]]]]; eauto 7 using in_eq, in_cons.
        rewrite E in Hgt. lia.
Qed.

Lemma outer_keys (s : outcome) (d1 d2 acc : ProbDict) :
  In s (Dict.keys
          (fold_left (fun acc1 kv1 => fold_left (inner kv1) d2 acc1) d1 acc)) <->
  In s (Dict.keys acc) \/
  ((Py.sum s <= max_photons)%Z /\
   exists kv1 kv2, In kv1 d1 /\ In kv2 d2 /\ zip_add (fst kv1) (fst kv2) = s).
Proof.
  revert acc. induction d1 as [|kv1 d1 IH]; intros acc; cbn [fold_left]; rewrite ?qsum_nil, ?qsum_cons.
  - split; [tauto|]. intros [H|[_ [kv1 [kv2 [[] _]]]]]. exact H.
  - rewrite IH, inner_keys. split.
    + intros [[H|[Hs [kv2 [Hin E]]]]|[Hs [kv [kv2 [Hin [Hin2 E]]]]]]; eauto 9 using in_eq, in_cons.
    + intros [H|[Hs [kv [kv2 [[<-|Hin] [Hin2 E]]]]]]; eauto 9 using in_eq, in_cons.
Qed.

Lemma inner_NoDup (kv1 : outcome * Q) (d2 acc : ProbDict) :
  NoDup (Dict.keys acc) -> NoDup (Dict.keys (fold_left (inner kv1) d2 acc)).
Proof.
  revert acc. induction d2 as [|kv2 d2 IH]; intros acc H; cbn [fold_left].
  - exact H.
  - apply IH. unfold inner, conv_inner. cbn zeta. destruct (_ <=? _)%Z.
    + now apply keys_accumulate_NoDup.
    + exact H.
Qed.

Lemma outer_NoDup (d1 d2 acc : ProbDict) :
  NoDup (Dict.keys acc) ->
  NoDup (Dict.keys
           (fold_left (fun acc1 kv1 => fold_left (inner kv1) d2 acc1) d1 acc)).
Proof.
  revert acc. induction d1 as [|kv1 d1 IH]; intros acc H; cbn [fold_left].
  - exact H.
  - apply IH. now apply inner_NoDup.
Qed.

Lemma inner_mass (kv1 : outcome * Q) (d2 acc : ProbDict) :
  fsum (Dict.values (fold_left (inner kv1) d2 acc))
  == fsum (Dict.values acc) + qsum (kept_term max_photons kv1) d2.
Proof.
  revert acc. induction d2 as [|kv2 d2 IH]; intros acc; cbn [fold_left]; rewrite ?qsum_nil, ?qsum_cons.
  - ring.
  - rewrite IH. unfold inner, conv_inner, kept_term. cbn zeta.
    destruct (_ <=? _)%Z.
    + rewrite fsum_values_accumulate. ring.
    + ring.
Qed.

Lemma outer_mass (d1 d2 acc : ProbDict) :
  fsum (Dict.values
          (fold_left (fun acc1 kv1 => fold_left (inner kv1) d2 acc1) d1 acc))
  == fsum (Dict.values acc)
     + qsum (fun kv1 => qsum (kept_term max_photons kv1) d2) d1.
Proof.
  revert acc. induction d1 as [|kv1 d1 IH]; intros acc; cbn [fold_left]; rewrite ?qsum_nil, ?qsum_cons.
  - ring.
  - rewrite IH, inner_mass. ring.
Qed.

End ConvolveLoops.

Lemma convolve_loops (d1 d2 : ProbDict) (mp : Z) :
  convolve_probabilities d1 d2 mp
  = fold_left (fun acc1 kv1 => fold_left (conv_inner mp kv1) d2 acc1) d1 [].
Proof. reflexivity. Qed.

Lemma convolve_get_kept (d1 d2 : ProbDict) (mp : Z) (s : outcome) :
  (Py.sum s <= mp)%Z ->
  Dict.get (convolve_probabilities d1 d2 mp) s 0 == conv_weight d1 d2 s.
Proof.
  intros Hs. rewrite convolve_loops, outer_get.
  unfold Dict.get at 1. simpl. unfold conv_weight.
  rewrite Qplus_0_l. apply qsum_ext. intros kv1 _. apply qsum_ext. intros kv2 _.
  now rewrite guarded_kept.
Qed.

Lemma convolve_keys (d1 d2 : ProbDict) (mp : Z) (s : outcome) :
  In s (Dict.keys (convolve_probabilities d1 d2 mp)) <->
  (Py.sum s <= mp)%Z /\
  exists kv1 kv2, In kv1 d1 /\ In kv2 d2 /\ zip_add (fst kv1) (fst kv2) = s.
Proof.
  rewrite convolve_loops, outer_keys. simpl. tauto.
Qed.

Lemma convolve_NoDup (d1 d2 : ProbDict) (mp : Z) :
  NoDup (Dict.keys (convolve_probabilities d1 d2 mp)).
Proof. rewrite convolve_loops. apply outer_NoDup. constructor. Qed.

Lemma convolve_mass (d1 d2 : ProbDict) (mp : Z) :
  fsum (Dict.values (convolve_probabilities d1 d2 mp)) == kept_mass d1 d2 mp.
Proof.
  rewrite convolve_loops, outer_mass.
  unfold kept_mass. simpl. rewrite fsum_nil. ring.
Qed.

Lemma same_length_In (n : nat) (d : ProbDict) (kv : outcome * Q) :
  same_length n d -> In kv d -> length (fst kv) = n.
Proof.
  unfold same_length, Dict.keys. rewrite Forall_forall. intros H Hin.
  apply H. now apply in_map.
Qed.

(** C6: for distributions over equal-length tuples, the convolution maps
    each outcome [s] of total at most [max_photons] to the sum, over the
    pairs of entries whose element-wise sum is [s], of the product of their
    weights; its keys are exactly the element-wise sums of total at most
    [max_photons], so pairs above the cutoff are discarded; the total mass
    is the mass of the kept pairs (nothing is renormalised); and the
    half/half distribution convolved with itself at cutoff 1 gives 1/2 on
    (1,), 1/4 on (0,), total 3/4. *)
Theorem convolve_probabilities_correct (n : nat) (d1 d2 : ProbDict)
  (max_photons : Z) :
  same_length n d1 -> same_length n d2 ->
  let c := convolve_probabilities d1 d2 max_photons in
  (forall s, (Py.sum s <= max_photons)%Z ->
             Dict.get c s 0 == conv_weight d1 d2 s) /\
  (forall kv1 kv2 s, In kv1 d1 -> In kv2 d2 ->
     (zip_add (fst kv1) (fst kv2) = s
      <-> elementwise_sum (fst kv1) (fst kv2) s)) /\
  (forall s, In s (Dict.keys c) <->
     (Py.sum s <= max_photons)%Z /\
     exists kv1 kv2, In kv1 d1 /\ In kv2 d2 /\
                     elementwise_sum (fst kv1) (fst kv2) s) /\
  (forall s, (max_photons < Py.sum s)%Z -> Dict.find s c = None) /\
  NoDup (Dict.keys c) /\
  fsum (Dict.values c) == kept_mass d1 d2 max_photons /\
  (let e := convolve_probabilities half_half half_half 1 in
   Dict.keys e = [[1%Z]; [0%Z]] /\
   Dict.get e [1%Z] 0 == 1 # 2 /\
   Dict.get e [0%Z] 0 == 1 # 4 /\
   Dict.find [2%Z] e = None /\
   fsum (Dict.values e) == 3 # 4).
Proof.
  intros H1 H2 c.
  assert (Hzip : forall kv1 kv2 s, In kv1 d1 -> In kv2 d2 ->
     (zip_add (fst kv1) (fst kv2) = s
      <-> elementwise_sum (fst kv1) (fst kv2) s)).
  { intros kv1 kv2 s Hin1 Hin2. apply zip_add_elementwise.
    rewrite (@same_length_In n d1 kv1 H1 Hin1), (@same_length_In n d2 kv2 H2 Hin2). reflexivity. }
  split; [|split; [|split; [|split; [|split; [|split]]]]].
  - intros s Hs. now apply convolve_get_kept.
  - exact Hzip.
  - intros s. unfold c. rewrite convolve_keys. split.
    + intros [Hs [kv1 [kv2 [Hin1 [Hin2 E]]]]]. split; [exact Hs|].
      exists kv1, kv2. split; [exact Hin1|]. split; [exact Hin2|]. now apply Hzip.
    + intros [Hs [kv1 [kv2 [Hin1 [Hin2 E]]]]]. split; [exact Hs|].
      exists kv1, kv2. split; [exact Hin1|]. split; [exact Hin2|]. now apply Hzip.
  - intros s Hs. apply DictFacts.find_None_iff. unfold c.
    rewrite convolve_keys. intros [Hle _]. lia.
  - apply convolve_NoDup.
  - apply convolve_mass.
  - vm_compute. repeat split; congruence.
Qed.

Lemma convolve_probabilities_correct_witness :
  same_length 1 half_half /\
  let c := convolve_probabilities half_half half_half 1 in
  forall s, (Py.sum s <= 1)%Z -> Dict.get c s 0 == conv_weight half_half half_half s.
Proof.
  assert (H : same_length 1 half_half) by (repeat constructor).
  split; [exact H|].
  exact (proj1 (@convolve_probabilities_correct 1 half_half half_half 1 H H)).
Defined.

(* ================================================================== *)
(** ** normalizeProbDict and filterProbDict *)

Lemma fdiv_zero (a b : Q) : b == 0 -> fdiv a b = Raise ZeroDivisionError.
Proof.
  intros H. unfold fdiv.
  now replace (Qeq_bool b 0) with true by (symmetry; now apply Qeq_bool_iff).
Qed.

Lemma fdiv_nonzero (a b : Q) : ~ b == 0 -> fdiv a b = Ok (a / b).
Proof.
  intros H. unfold fdiv. destruct (Qeq_bool b 0) eqn:E; [|reflexivity].
  apply Qeq_bool_iff in E. contradiction.
Qed.

Lemma normalizeProbDict_nil : normalizeProbDict [] = Ok [].
Proof. reflexivity. Qed.

Lemma normalizeProbDict_zero (d : ProbDict) :
  d <> [] -> fsum (Dict.values d) == 0 ->
  normalizeProbDict d = Raise ZeroDivisionError.
Proof.
  intros Hne Hz. unfold normalizeProbDict.
  destruct d as [|kv d]; [congruence|].
  cbn [for_each]. now rewrite fdiv_zero.
Qed.

Lemma normalize_loop (total : Q) (l acc : ProbDict) :
  ~ total == 0 ->
  NoDup (Dict.keys acc ++ Dict.keys l) ->
  for_each l
    (fun kv acc =>
       w <- fdiv (snd kv) total ;;
       Ok (Dict.set acc (fst kv) w))
    acc
  = Ok (acc ++ scaled total l).
Proof.
  intros Ht. revert acc. induction l as [|kv l IH]; intros acc Hnd; simpl.
  - now rewrite app_nil_r.
  - rewrite fdiv_nonzero by assumption. simpl.
    rewrite DictFacts.set_absent.
    + rewrite IH.
      * now rewrite <- app_assoc.
      * unfold Dict.keys in *. rewrite map_app. simpl. rewrite <- app_assoc. exact Hnd.
    + apply NoDup_remove_2 in Hnd. intros H. apply Hnd. apply in_or_app. now left.
Qed.

Lemma normalizeProbDict_ok (d : ProbDict) :
  NoDup (Dict.keys d) -> ~ fsum (Dict.values d) == 0 ->
  normalizeProbDict d = Ok (scaled (fsum (Dict.values d)) d).
Proof.
  intros Hnd Ht. unfold normalizeProbDict.
  now rewrite normalize_loop.
Qed.

Lemma scaled_keys (total : Q) (d : ProbDict) :
  Dict.keys (scaled total d) = Dict.keys d.
Proof. unfold Dict.keys, scaled. rewrite map_map. reflexivity. Qed.

Lemma scaled_find (total : Q) (d : ProbDict) (k : outcome) :
  Dict.find k (scaled total d) = option_map (fun v => v / total) (Dict.find k d).
Proof.
  induction d as [|[k' v'] d IH]; simpl.
  - reflexivity.
  - destruct (outcome_eq_dec k k'); [reflexivity | exact IH].
Qed.

Lemma scaled_mass (total : Q) (d : ProbDict) :
  fsum (Dict.values (scaled total d)) == fsum (Dict.values d) / total.
Proof.
  unfold Dict.values, scaled. induction d as [|kv d IH]; simpl.
  - rewrite fsum_nil. unfold Qdiv. ring.
  - rewrite !fsum_cons, IH. unfold Qdiv. ring.
Qed.

Lemma scaled_mass_one (d : ProbDict) :
  ~ fsum (Dict.values d) == 0 ->
  fsum (Dict.values (scaled (fsum (Dict.values d)) d)) == 1.
Proof. intros H. rewrite scaled_mass. now field. Qed.

Lemma all_zero_fsum (d : ProbDict) : all_zero d -> fsum (Dict.values d) == 0.
Proof.
  unfold all_zero. induction 1 as [|v vs Hv _ IH].
  - reflexivity.
  - rewrite fsum_cons, Hv, IH. ring.
Qed.

Lemma dict_of_items_nil : dict_of_items [] = [].
Proof. reflexivity. Qed.

Lemma filter_none (A : Type) (f : A -> bool) (l : list A) :
  (forall x, In x l -> f x = false) -> filter f l = [].
Proof.
  induction l as [|x l IH]; intros H; simpl.
  - reflexivity.
  - rewrite (H x) by (now left). apply IH. intros y Hy. apply H. now right.
Qed.

Lemma filterProbDict_no_match (d : ProbDict) (num_photons : Z) :
  (forall k, In k (Dict.keys d) -> Py.sum k <> num_photons) ->
  filterProbDict d num_photons = Ok [].
Proof.
  intros H. unfold filterProbDict. rewrite filter_none.
  - reflexivity.
  - intros kv Hin. apply Z.eqb_neq. apply H. unfold Dict.keys. now apply in_map.
Qed.

(** C4 (as stated, it fails): the empty distribution is all-zero, yet it is
    normalised to the empty distribution with no error, and this is what
    [filterProbDict] returns when no outcome has the requested total. *)
Lemma normalizeProbDict_empty_silent :
  all_zero [] /\
  normalizeProbDict [] = Ok [] /\
  filterProbDict [([1; 0]%Z, 1 # 2); ([0; 1]%Z, 1 # 2)] 2 = Ok [] /\
  ~ (forall d : ProbDict, all_zero d -> exists e, normalizeProbDict d = Raise e).
Proof.
  split; [constructor|]. split; [reflexivity|]. split; [reflexivity|].
  intros H. destruct (H [] (Forall_nil _)) as [e He]. discriminate.
Qed.

(** C4 (amended): on an all-zero distribution, normalisation raises the
    division-by-zero error exactly when the distribution is non-empty; the
    empty distribution is returned unchanged, without error, which is what
    [filterProbDict] yields when no outcome has the requested total. *)
Theorem normalizeProbDict_all_zero (d : ProbDict) :
  all_zero d ->
  (d <> [] -> normalizeProbDict d = Raise ZeroDivisionError) /\
  (d = [] -> normalizeProbDict d = Ok []) /\
  (forall num_photons : Z,
      (forall k, In k (Dict.keys d) -> Py.sum k <> num_photons) ->
      filterProbDict d num_photons = Ok []).
Proof.
  intros Hz. split; [|split].
  - intros Hne. apply normalizeProbDict_zero; [exact Hne|].
    now apply all_zero_fsum.
  - intros ->. reflexivity.
  - intros num_photons. apply filterProbDict_no_match.
Qed.

Lemma normalizeProbDict_all_zero_witness :
  all_zero [([0; 0]%Z, 0); ([0; 1]%Z, 0)] /\
  normalizeProbDict [([0; 0]%Z, 0); ([0; 1]%Z, 0)] = Raise ZeroDivisionError.
Proof.
  assert (H : all_zero [([0; 0]%Z, 0); ([0; 1]%Z, 0)]).
  { repeat constructor. }
  split; [exact H|].
  apply (proj1 (normalizeProbDict_all_zero H)). discriminate.
Defined.

(* ================================================================== *)
(** ** traceOverHV *)

Lemma slice_step_lengths (A : Type) (t : list A) :
  length (slice_step 0 2 t) = Nat.div2 (S (length t)) /\
  length (slice_step 1 2 t) = Nat.div2 (length t).
Proof.
  induction t as [|x t [IH0 IH1]]; simpl.
  - split; reflexivity.
  - split.
    + rewrite IH1. reflexivity.
    + rewrite IH0. reflexivity.
Qed.

Lemma div2_ceil (n : nat) : Nat.div2 (S n) = ((n + 1) / 2)%nat.
Proof. rewrite Nat.div2_div. f_equal. lia. Qed.

Lemma slice_even_length (t : outcome) :
  length (slice_step 0 2 t) = ((length t + 1) / 2)%nat.
Proof. rewrite <- div2_ceil. apply slice_step_lengths. Qed.

Lemma slice_odd_length (t : outcome) :
  length (slice_step 1 2 t) = (length t / 2)%nat.
Proof. rewrite <- Nat.div2_div. apply slice_step_lengths. Qed.

Lemma traceOverHV_loop_split (d H V : ProbDict) :
  fold_left
    (fun HV kv =>
       let H_outcome := slice_step 0 2 (fst kv) in
       let V_outcome := slice_step 1 2 (fst kv) in
       (accumulate (fst HV) H_outcome (snd kv),
        accumulate (snd HV) V_outcome (snd kv)))
    d (H, V)
  = (marginal_loop (slice_step 0 2) d H, marginal_loop (slice_step 1 2) d V).
Proof.
  revert H V. induction d as [|kv d IH]; intros H V; simpl.
  - reflexivity.
  - apply IH.
Qed.

Section Marginal.

Variable proj : outcome -> outcome.

Lemma marginal_loop_cons (kv : outcome * Q) (d acc : ProbDict) :
  marginal_loop proj (kv :: d) acc
  = marginal_loop proj d (accumulate acc (proj (fst kv)) (snd kv)).
Proof. reflexivity. Qed.

Lemma marginal_get (h : outcome) (d acc : ProbDict) :
  Dict.get (marginal_loop proj d acc) h 0
  == Dict.get acc h 0 + marginal_weight proj d h.
Proof.
  revert acc. induction d as [|kv d IH]; intros acc.
  - unfold marginal_weight. rewrite qsum_nil. simpl. ring.
  - rewrite marginal_loop_cons, IH, get_accumulate.
    unfold marginal_weight. rewrite qsum_cons. ring.
Qed.

Lemma marginal_keys (h : outcome) (d acc : ProbDict) :
  In h (Dict.keys (marginal_loop proj d acc)) <->
  In h (Dict.keys acc) \/ exists o, In o (Dict.keys d) /\ proj o = h.
Proof.
  revert acc. induction d as [|kv d IH]; intros acc.
  - simpl. split; [tauto|]. intros [H|[o [[] _]]]. exact H.
  - rewrite marginal_loop_cons, IH, keys_accumulate. simpl. split.
    + intros [[->|H]|[o [Ho E]]]; eauto.
    + intros [H|[o [[<-|Ho] E]]]; eauto.
Qed.

Lemma marginal_NoDup (d acc : ProbDict) :
  NoDup (Dict.keys acc) -> NoDup (Dict.keys (marginal_loop proj d acc)).
Proof.
  revert acc. induction d as [|kv d IH]; intros acc H.
  - exact H.
  - rewrite marginal_loop_cons. apply IH. now apply keys_accumulate_NoDup.
Qed.

Lemma marginal_mass (d acc : ProbDict) :
  fsum (Dict.values (marginal_loop proj d acc))
  == fsum (Dict.values acc) + fsum (Dict.values d).
Proof.
  revert acc. induction d as [|kv d IH]; intros acc.
  - simpl. rewrite fsum_nil. ring.
  - rewrite marginal_loop_cons, IH, fsum_values_accumulate.
    change (Dict.values (kv :: d)) with (snd kv :: Dict.values d).
    rewrite fsum_cons. ring.
Qed.

End Marginal.

Lemma get_scaled (total : Q) (d : ProbDict) (k : outcome) :
  Dict.get (scaled total d) k 0 == Dict.get d k 0 / total.
Proof.
  unfold Dict.get. rewrite scaled_find. destruct (Dict.find k d); simpl.
  - reflexivity.
  - unfold Qdiv. ring.
Qed.

Lemma slice_step_nth (t : list Z) :
  forall i : nat,
    nth i (slice_step 0 2 t) 0%Z = nth (2 * i) t 0%Z /\
    nth i (slice_step 1 2 t) 0%Z = nth (2 * i + 1) t 0%Z.
Proof.
  induction t as [|x t IH]; intros i.
  - simpl. destruct i; simpl; split; try reflexivity.
    all: now destruct (i + S (i + 0) + 1)%nat.
  - cbn [slice_step Nat.sub]. split.
    + destruct i as [|i]; [reflexivity|].
      replace (2 * S i)%nat with (S (2 * i + 1)) by lia.
      cbn [nth]. apply IH.
    + replace (2 * i + 1)%nat with (S (2 * i)) by lia.
      cbn [nth]. apply IH.
Qed.

Lemma traceOverHV_loop_marginals (d : ProbDict) :
  traceOverHV_loop d
  = (marginal_loop (slice_step 0 2) d [], marginal_loop (slice_step 1 2) d []).
Proof. unfold traceOverHV_loop. apply traceOverHV_loop_split. Qed.

Lemma marginal_same_length (proj : outcome -> outcome) (n m : nat) (d : ProbDict) :
  (forall o, length o = n -> length (proj o) = m) ->
  same_length n d -> same_length m (marginal_loop proj d []).
Proof.
  intros Hproj Hd. unfold same_length in *. rewrite Forall_forall in *.
  intros h Hh. apply marginal_keys in Hh. destruct Hh as [[]|[o [Ho <-]]].
  apply Hproj. now apply Hd.
Qed.

(** C8: for a distribution of positive total weight over tuples of one
    length, [traceOverHV] returns two distributions, keyed by the even- and
    by the odd-position sub-tuples of the outcomes; the weight of a
    sub-tuple is the sum of the weights of the outcomes that project to it,
    divided by the total (the sum itself when the total is 1), so that
    each distribution sums to 1; the sub-tuples have length ceil(n/2) and
    floor(n/2). *)
Theorem traceOverHV_correct (n : nat) (d : ProbDict) :
  same_length n d ->
  0 < fsum (Dict.values d) ->
  exists H V : ProbDict,
    traceOverHV d = Ok (H, V) /\
    (forall o i, nth i (slice_step 0 2 o) 0%Z = nth (2 * i) o 0%Z /\
                 nth i (slice_step 1 2 o) 0%Z = nth (2 * i + 1) o 0%Z) /\
    (forall h, In h (Dict.keys H) <->
               exists o, In o (Dict.keys d) /\ slice_step 0 2 o = h) /\
    (forall v, In v (Dict.keys V) <->
               exists o, In o (Dict.keys d) /\ slice_step 1 2 o = v) /\
    (forall h, Dict.get H h 0
               == marginal_weight (slice_step 0 2) d h / fsum (Dict.values d)) /\
    (forall v, Dict.get V v 0
               == marginal_weight (slice_step 1 2) d v / fsum (Dict.values d)) /\
    (fsum (Dict.values d) == 1 ->
     forall t, Dict.get H t 0 == marginal_weight (slice_step 0 2) d t /\
               Dict.get V t 0 == marginal_weight (slice_step 1 2) d t) /\
    NoDup (Dict.keys H) /\ NoDup (Dict.keys V) /\
    fsum (Dict.values H) == 1 /\
    fsum (Dict.values V) == 1 /\
    same_length ((n + 1) / 2) H /\
    same_length (n / 2) V.
Proof.
  intros Hlen Hpos.
  set (T := fsum (Dict.values d)) in *.
  set (H0 := marginal_loop (slice_step 0 2) d []).
  set (V0 := marginal_loop (slice_step 1 2) d []).
  assert (HT : ~ T == 0) by (intros E; rewrite E in Hpos; discriminate).
  assert (HmH : fsum (Dict.values H0) == T).
  { unfold H0. rewrite marginal_mass. simpl. rewrite fsum_nil. fold T. ring. }
  assert (HmV : fsum (Dict.values V0) == T).
  { unfold V0. rewrite marginal_mass. simpl. rewrite fsum_nil. fold T. ring. }
  assert (HndH : NoDup (Dict.keys H0)) by (apply marginal_NoDup; constructor).
  assert (HndV : NoDup (Dict.keys V0)) by (apply marginal_NoDup; constructor).
  assert (HnH : ~ fsum (Dict.values H0) == 0) by (now rewrite HmH).
  assert (HnV : ~ fsum (Dict.values V0) == 0) by (now rewrite HmV).
  exists (scaled (fsum (Dict.values H0)) H0), (scaled (fsum (Dict.values V0)) V0).
  split.
  { unfold traceOverHV. rewrite traceOverHV_loop_marginals. cbn [fst snd].
    fold H0 V0. rewrite !normalizeProbDict_ok by assumption. reflexivity. }
  split; [intros o i; apply slice_step_nth|].
  rewrite !scaled_keys.
  split; [|split].
  { intros h. unfold H0. rewrite marginal_keys. simpl. tauto. }
  { intros v. unfold V0. rewrite marginal_keys. simpl. tauto. }
  assert (HgH : forall h, Dict.get (scaled (fsum (Dict.values H0)) H0) h 0
                          == marginal_weight (slice_step 0 2) d h / T).
  { intros h. rewrite get_scaled, HmH. unfold H0. rewrite marginal_get.
    unfold Dict.get at 1. simpl. unfold Qdiv. ring. }
  assert (HgV : forall v, Dict.get (scaled (fsum (Dict.values V0)) V0) v 0
                          == marginal_weight (slice_step 1 2) d v / T).
  { intros v. rewrite get_scaled, HmV. unfold V0. rewrite marginal_get.
    unfold Dict.get at 1. simpl. unfold Qdiv. ring. }
  split; [exact HgH|]. split; [exact HgV|].
  split.
  { intros H1 t. rewrite HgH, HgV, H1. split; unfold Qdiv; field. }
  split; [exact HndH|]. split; [exact HndV|].
  split; [now apply scaled_mass_one|]. split; [now apply scaled_mass_one|].
  split.
  - unfold same_length. rewrite scaled_keys.
    apply marginal_same_length with (n := n); [|exact Hlen].
    intros o <-. apply slice_even_length.
  - unfold same_length. rewrite scaled_keys.
    apply marginal_same_length with (n := n); [|exact Hlen].
    intros o <-. apply slice_odd_length.
Qed.

Lemma traceOverHV_correct_witness :
  same_length 3 [([1; 0; 0]%Z, 1 # 2); ([0; 1; 0]%Z, 1 # 4); ([0; 0; 1]%Z, 1 # 4)] /\
  0 < fsum (Dict.values
              [([1; 0; 0]%Z, 1 # 2); ([0; 1; 0]%Z, 1 # 4); ([0; 0; 1]%Z, 1 # 4)]) /\
  exists H V : ProbDict,
    traceOverHV [([1; 0; 0]%Z, 1 # 2); ([0; 1; 0]%Z, 1 # 4); ([0; 0; 1]%Z, 1 # 4)]
    = Ok (H, V) /\
    fsum (Dict.values H) == 1 /\ fsum (Dict.values V) == 1.
Proof.
  assert (Hl : same_length 3
            [([1; 0; 0]%Z, 1 # 2); ([0; 1; 0]%Z, 1 # 4); ([0; 0; 1]%Z, 1 # 4)]).
  { repeat constructor. }
  assert (Hp : 0 < fsum (Dict.values
            [([1; 0; 0]%Z, 1 # 2); ([0; 1; 0]%Z, 1 # 4); ([0; 0; 1]%Z, 1 # 4)])).
  { reflexivity. }
  split; [exact Hl|]. split; [exact Hp|].
  destruct (traceOverHV_correct Hl Hp) as [H [V HV]].
  exists H, V. tauto.
Defined.

(* ================================================================== *)
(** ** The circuit built by computeWalkOutput *)

Lemma q_index_ok (n i : Z) : (0 <= i < n)%Z -> q_index n i = Ok i.
Proof.
  intros H. unfold q_index.
  replace (0 <=? i)%Z with true by (symmetry; apply Z.leb_le; lia).
  replace (i <? n)%Z with true by (symmetry; apply Z.ltb_lt; lia).
  reflexivity.
Qed.

Lemma apply1_ok (n : Z) (G : Z -> Op) (i : Z) (ops : list Op) :
  (0 <= i < n)%Z -> apply1 n G i ops = Ok (ops ++ [G i]).
Proof. intros H. unfold apply1. now rewrite q_index_ok. Qed.

Lemma apply2_ok (n : Z) (G : Z -> Z -> Op) (i j : Z) (ops : list Op) :
  (0 <= i < n)%Z -> (0 <= j < n)%Z ->
  apply2 n G i j ops = Ok (ops ++ [G i j]).
Proof. intros Hi Hj. unfold apply2. now rewrite !q_index_ok. Qed.

Lemma for_each_emit (A B : Type) (xs : list A) (body : A -> list B -> res (list B))
  (f : A -> list B) :
  (forall x, In x xs -> forall ops, body x ops = Ok (ops ++ f x)) ->
  forall ops, for_each xs body ops = Ok (ops ++ flat_map f xs).
Proof.
  induction xs as [|x xs IH]; intros Hbody ops; simpl.
  - now rewrite app_nil_r.
  - rewrite Hbody by (now left). simpl.
    rewrite IH by (intros y Hy; apply Hbody; now right).
    now rewrite <- app_assoc.
Qed.

Lemma flat_map_singleton (A B : Type) (g : A -> B) (l : list A) :
  flat_map (fun x => [g x]) l = map g l.
Proof.
  induction l as [|x l IH]; simpl; [reflexivity | now rewrite IH].
Qed.

Lemma countdown_rev (s : nat) : countdown s = rev (map Z.of_nat (seq 0 s)).
Proof.
  induction s as [|s IH].
  - reflexivity.
  - rewrite seq_S, map_app, rev_app_distr. simpl. now rewrite IH.
Qed.

Lemma range_down_countdown (s : nat) :
  range_down (Z.of_nat s - 1) = countdown s.
Proof.
  unfold range_down, range. rewrite countdown_rev.
  replace (Z.to_nat (Z.of_nat s - 1 + 1)) with s by lia. reflexivity.
Qed.

Lemma countdown_In (s : nat) (k : Z) :
  In k (countdown s) <-> (0 <= k < Z.of_nat s)%Z.
Proof.
  rewrite countdown_rev, <- in_rev, in_map_iff. split.
  - intros [i [<- Hi]]. apply in_seq in Hi. lia.
  - intros H. exists (Z.to_nat k). split; [lia|]. apply in_seq. lia.
Qed.

Lemma odd_of_nat (s : nat) : Z.odd (Z.of_nat s) = Nat.odd s.
Proof.
  induction s as [s IH] using (well_founded_induction lt_wf).
  destruct s as [|[|s]]; try reflexivity.
  replace (Z.of_nat (S (S s))) with (Z.succ (Z.succ (Z.of_nat s))) by lia.
  rewrite Z.odd_succ_succ. change (Nat.odd (S (S s))) with (Nat.odd s).
  apply IH. lia.
Qed.

Lemma odd_test (s : nat) : (Z.of_nat s mod 2 =? 1)%Z = Nat.odd s.
Proof. rewrite <- Zodd_mod. apply odd_of_nat. Qed.

Lemma even_test (s : nat) : (Z.of_nat s mod 2 =? 0)%Z = negb (Nat.odd s).
Proof. rewrite <- Zeven_mod, <- odd_of_nat. symmetry. apply Z.negb_odd. Qed.

Section CircuitFacts.

Variables (nSteps : nat) (r alphaSq eta gamma n_noise etaFock : Q).

Let N : Z := Z.of_nat nSteps.

Lemma odd_step_body_ok (k : Z) (ops : list Op) :
  (0 <= k < N)%Z ->
  odd_step_body N gamma k ops
  = Ok (ops ++ [basis_change k; basis_change (k + 1);
                time_shift gamma k;
                inverse_basis_change k; inverse_basis_change (k + 1)]).
Proof.
  intros Hk. unfold odd_step_body.
  rewrite apply2_ok by lia. cbn [Py.bind].
  rewrite apply2_ok by lia. cbn [Py.bind].
  rewrite apply2_ok by lia. cbn [Py.bind].
  rewrite apply2_ok by lia. cbn [Py.bind].
  rewrite apply2_ok by lia.
  rewrite <- !app_assoc. cbn [app].
  unfold basis_change, inverse_basis_change, time_shift.
  repeat (f_equal; try lia).
Qed.

Lemma even_step_body_ok (k : Z) (ops : list Op) :
  (0 <= k < N)%Z ->
  even_step_body N gamma k ops = Ok (ops ++ [time_shift gamma k]).
Proof.
  intros Hk. unfold even_step_body. now rewrite apply2_ok by lia.
Qed.

Lemma walk_step_ok (s : nat) (ops : list Op) :
  (s <= nSteps)%nat ->
  walk_step N gamma (Z.of_nat s) ops = Ok (ops ++ step_ops gamma s).
Proof.
  intros Hs. unfold walk_step, step_ops.
  rewrite odd_test, even_test, range_down_countdown.
  destruct (Nat.odd s); cbn [negb Py.bind].
  - rewrite for_each_emit
      with (f := fun k => [basis_change k; basis_change (k + 1);
                           time_shift gamma k;
                           inverse_basis_change k; inverse_basis_change (k + 1)]).
    + reflexivity.
    + intros k Hk ops'. apply countdown_In in Hk.
      apply odd_step_body_ok. subst N. lia.
  - rewrite for_each_emit with (f := fun k => [time_shift gamma k]).
    + unfold even_step_ops. now rewrite flat_map_singleton.
    + intros k Hk ops'. apply countdown_In in Hk.
      apply even_step_body_ok. subst N. lia.
Qed.

End CircuitFacts.

Lemma for_each_emit_nat (B : Type) (l : list nat)
  (body : Z -> list B -> res (list B)) (f : nat -> list B) :
  (forall x, In x l -> forall ops, body (Z.of_nat x) ops = Ok (ops ++ f x)) ->
  forall ops, for_each (map Z.of_nat l) body ops = Ok (ops ++ flat_map f l).
Proof.
  induction l as [|x l IH]; intros Hbody ops; simpl.
  - now rewrite app_nil_r.
  - rewrite Hbody by (now left). simpl.
    rewrite IH by (intros y Hy; apply Hbody; now right).
    now rewrite <- app_assoc.
Qed.

Lemma range_of_nat (k : nat) : range (Z.of_nat k) = map Z.of_nat (seq 0 k).
Proof. unfold range. now rewrite Nat2Z.id. Qed.

Lemma build_circuit_ok (nSteps : nat) (r alphaSq eta gamma n_noise etaFock : Q) :
  build_circuit (Z.of_nat nSteps) r alphaSq eta gamma n_noise etaFock
  = Ok (walk_topology nSteps r alphaSq eta gamma n_noise etaFock).
Proof.
  unfold build_circuit, walk_topology.
  rewrite apply2_ok by lia. cbn [Py.bind].
  rewrite apply1_ok by lia. cbn [Py.bind].
  rewrite apply1_ok by lia. cbn [Py.bind app].
  replace (Z.of_nat nSteps + 1)%Z with (Z.of_nat (S nSteps)) by lia.
  replace (2 * Z.of_nat nSteps + 2 + 1)%Z with (Z.of_nat (2 * nSteps + 3)) by lia.
  rewrite !range_of_nat.
  rewrite for_each_emit_nat with (f := step_ops gamma).
  2:{ intros s Hs ops. apply in_seq in Hs. apply walk_step_ok. lia. }
  cbn [Py.bind]. rewrite odd_test.
  assert (Hterm : forall ops,
             (if Nat.odd nSteps
              then for_each (map Z.of_nat (seq 0 (S nSteps)))
                     (hwp_body (Z.of_nat nSteps)) ops
              else Ok ops) = Ok (ops ++ terminal_ops nSteps)).
  { intros ops. unfold terminal_ops. destruct (Nat.odd nSteps).
    - rewrite for_each_emit_nat with (f := fun k => [basis_change (Z.of_nat k)]).
      + now rewrite flat_map_singleton.
      + intros k Hk ops'. apply in_seq in Hk. unfold hwp_body.
        now rewrite apply2_ok by lia.
    - now rewrite app_nil_r. }
  rewrite Hterm. cbn [Py.bind].
  rewrite for_each_emit_nat
    with (f := fun i => [ThermalLossChannel (Lit eta) (Lit n_noise) (Z.of_nat i)]).
  - rewrite flat_map_singleton. unfold init_ops, walk_ops, closing_ops.
    rewrite <- !app_assoc. reflexivity.
  - intros i Hi ops. apply in_seq in Hi. unfold loss_body.
    now rewrite apply1_ok by lia.
Qed.

Lemma walk_program_ok (nSteps : Z) (r alphaSq eta gamma n_noise etaFock : Q) :
  (0 <= nSteps)%Z ->
  walk_program nSteps r alphaSq eta gamma n_noise etaFock
  = Ok (mkProgram (2 * nSteps + 2 + 1)
          (walk_topology (Z.to_nat nSteps) r alphaSq eta gamma n_noise etaFock)).
Proof.
  intros H. unfold walk_program.
  rewrite <- (Z2Nat.id nSteps) at 1 by assumption.
  rewrite build_circuit_ok. reflexivity.
Qed.

(** C7: for [nSteps >= 0] the circuit is built without error and is the
    initialisation, then the steps 0..nSteps by parity, then the terminal
    correction, then the closing loss.  An odd step [s] applies, for
    k = s-1 down to 0, the two -45 degree couplings (time bins k and k+1),
    the time shift (90 degrees, phase gamma) and the two +45 degree
    couplings; an even step applies the time shifts only; an odd [nSteps]
    appends one -45 degree coupling per time bin 0..nSteps; the closing
    loss is on every mode 0..2 nSteps + 2, herald included; for
    [nSteps = 0] only the initialisation and the closing loss are left. *)
Theorem build_circuit_parity_machine (nSteps : Z)
  (r alphaSq eta gamma n_noise etaFock : Q) :
  (0 <= nSteps)%Z ->
  let n := Z.to_nat nSteps in
  build_circuit nSteps r alphaSq eta gamma n_noise etaFock
  = Ok (init_ops r alphaSq etaFock
        ++ flat_map (step_ops gamma) (seq 0 (S n))
        ++ terminal_ops n
        ++ closing_ops eta n_noise n) /\
  (forall s, Nat.odd s = true ->
     step_ops gamma s
     = flat_map
         (fun k => [basis_change k; basis_change (k + 1);
                    time_shift gamma k;
                    inverse_basis_change k; inverse_basis_change (k + 1)])
         (countdown s)) /\
  (forall s, Nat.odd s = false ->
     step_ops gamma s = map (time_shift gamma) (countdown s)) /\
  (Nat.odd n = true ->
     terminal_ops n = map (fun k => basis_change (Z.of_nat k)) (seq 0 (S n))) /\
  (Nat.odd n = false -> terminal_ops n = []) /\
  (forall i, (0 <= i <= 2 * nSteps + 2)%Z ->
     In (ThermalLossChannel (Lit eta) (Lit n_noise) i) (closing_ops eta n_noise n)) /\
  (forall k, exists t p a b d,
     basis_change k = BSgate t p a b /\ degrees t = Some d /\ d == - (45 # 1)) /\
  (forall k, exists t p a b d,
     inverse_basis_change k = BSgate t p a b /\ degrees t = Some d /\ d == 45 # 1) /\
  (forall k, exists t a b d,
     time_shift gamma k = BSgate t (Lit gamma) a b /\
     degrees t = Some d /\ d == 90 # 1) /\
  (nSteps = 0%Z ->
     build_circuit nSteps r alphaSq eta gamma n_noise etaFock
     = Ok (init_ops r alphaSq etaFock ++ closing_ops eta n_noise 0)).
Proof.
  intros HN n.
  assert (Hbuild :
    build_circuit nSteps r alphaSq eta gamma n_noise etaFock
    = Ok (walk_topology n r alphaSq eta gamma n_noise etaFock)).
  { rewrite <- (Z2Nat.id nSteps) at 1 by assumption. apply build_circuit_ok. }
  split; [exact Hbuild|].
  split; [intros s Hs; unfold step_ops; now rewrite Hs|].
  split; [intros s Hs; unfold step_ops; now rewrite Hs|].
  split; [intros Hn; unfold terminal_ops; now rewrite Hn|].
  split; [intros Hn; unfold terminal_ops; now rewrite Hn|].
  split.
  { intros i Hi. unfold closing_ops. apply in_map_iff.
    exists (Z.to_nat i). split.
    - f_equal. lia.
    - apply in_seq. subst n. lia. }
  split.
  { intros k. do 5 eexists. split; [reflexivity|]. split; reflexivity. }
  split.
  { intros k. do 5 eexists. split; [reflexivity|]. split; reflexivity. }
  split.
  { intros k. do 4 eexists. split; [reflexivity|]. split; reflexivity. }
  intros ->. reflexivity.
Qed.

Lemma build_circuit_parity_machine_witness :
  build_circuit 3 (7 # 100) (8 # 100) (7 # 100) 0 (5 # 1000000) 1
  = Ok (init_ops (7 # 100) (8 # 100) 1
        ++ flat_map (step_ops 0) (seq 0 4)
        ++ terminal_ops 3
        ++ closing_ops (7 # 100) (5 # 1000000) 3).
Proof.
  refine (proj1 (@build_circuit_parity_machine 3 (7 # 100) (8 # 100) (7 # 100)
                   0 (5 # 1000000) 1 _)).
  lia.
Defined.

(* ================================================================== *)
(** ** computeWalkOutput *)

Section WalkOutput.

Variable State : Type.
Variable eng_run : Z -> Program -> State.
Variable fock_prob : State -> list Z -> Q.

Lemma heralded_map_keys (prob : list Z -> Q) (labels : list outcome) :
  Dict.keys (heralded_map prob labels) = labels.
Proof.
  unfold Dict.keys, heralded_map. rewrite map_map. apply map_id.
Qed.

Lemma heralded_map_find (prob : list Z -> Q) (labels : list outcome) (o : outcome) :
  In o labels -> Dict.find o (heralded_map prob labels) = Some (prob (1%Z :: o)).
Proof.
  induction labels as [|l labels IH]; simpl; [tauto|].
  destruct (outcome_eq_dec o l) as [->|E]; [reflexivity|].
  intros [H|H]; [congruence | now apply IH].
Qed.

Lemma heralded_map_mass (prob : list Z -> Q) (labels : list outcome) :
  fsum (Dict.values (heralded_map prob labels))
  == qsum (fun o => prob (1%Z :: o)) labels.
Proof.
  unfold Dict.values, heralded_map. rewrite map_map. apply fsum_map_qsum.
Qed.

(** the query loop: one backend query and one new key per label *)
Lemma query_loop (st : State) (labels : list outcome) :
  forall (pn : ProbDict) (log : list Event),
    NoDup (Dict.keys pn ++ labels) ->
    sim_for labels
      (fun label pn =>
         let detLabel := [1%Z] ++ label in
         p <~ sim_call (FockProb detLabel) (fock_prob st detLabel) ;;
         sim_ret (Dict.set pn label p))
      pn log
    = (Ok (pn ++ heralded_map (fock_prob st) labels),
       log ++ heralded_queries labels).
Proof.
  induction labels as [|l labels IH]; intros pn log Hnd.
  - simpl. unfold sim_ret. now rewrite !app_nil_r.
  - cbn [sim_for]. unfold sim_bind at 1. cbn zeta.
    unfold sim_bind at 1, sim_call at 1, sim_ret at 1.
    rewrite DictFacts.set_absent.
    + rewrite IH.
      * f_equal.
        -- f_equal. now rewrite <- app_assoc.
        -- now rewrite <- app_assoc.
      * unfold Dict.keys in *. rewrite map_app, <- app_assoc. exact Hnd.
    + apply NoDup_remove_2 in Hnd. intros H. apply Hnd. apply in_or_app. now left.
Qed.

Lemma computeWalkOutput_run (nSteps : Z) (r alphaSq eta gamma : Q)
  (max_photons : Z) (n_noise etaFock : Q) (log : list Event) :
  (0 <= nSteps)%Z ->
  let prog := the_program nSteps r alphaSq eta gamma n_noise etaFock in
  let labels := the_labels nSteps max_photons in
  computeWalkOutput eng_run fock_prob nSteps r alphaSq eta gamma
    max_photons n_noise etaFock log
  = (Ok (heralded_map (fock_prob (eng_run 2 prog)) labels),
     log ++ EngineRun 2 prog :: heralded_queries labels).
Proof.
  intros HN prog labels. unfold computeWalkOutput. cbn zeta.
  unfold sim_bind at 1, sim_lift at 1.
  rewrite walk_program_ok by assumption. fold prog.
  unfold sim_bind at 1, sim_call at 1.
  unfold sim_bind at 1, sim_lift at 1.
  rewrite generate_photon_outcomes_completions by lia. fold labels.
  rewrite query_loop.
  - cbn [app]. now rewrite <- app_assoc.
  - cbn [Dict.keys map app]. apply completions_NoDup.
Qed.

(** C9: a run of [computeWalkOutput] (with [nSteps >= 0]) builds the
    program, enumerates the labels over 2 nSteps + 2 channels and returns
    the map whose keys are exactly those labels, in order, each mapped to
    the backend's probability of the label with a 1 prepended for the
    herald; the values are the backend's own, so the total of the map is
    the sum of those probabilities: nothing is divided out. *)
Theorem computeWalkOutput_heralded (nSteps : Z) (r alphaSq eta gamma : Q)
  (max_photons : Z) (n_noise etaFock : Q) :
  (0 <= nSteps)%Z ->
  exists (prog : Program) (labels : list outcome) (pn : ProbDict),
    walk_program nSteps r alphaSq eta gamma n_noise etaFock = Ok prog /\
    generate_photon_outcomes (2 * nSteps + 2) max_photons = Ok labels /\
    result (computeWalkOutput eng_run fock_prob nSteps r alphaSq eta gamma
              max_photons n_noise etaFock) = Ok pn /\
    Dict.keys pn = labels /\
    NoDup labels /\
    (forall o, In o labels ->
               Dict.find o pn = Some (fock_prob (eng_run 2 prog) (1%Z :: o))) /\
    (forall o, ~ In o labels -> Dict.find o pn = None) /\
    pn = map (fun o => (o, fock_prob (eng_run 2 prog) (1%Z :: o))) labels /\
    fsum (Dict.values pn)
    == qsum (fun o => fock_prob (eng_run 2 prog) (1%Z :: o)) labels /\
    backend_calls (computeWalkOutput eng_run fock_prob nSteps r alphaSq eta
                     gamma max_photons n_noise etaFock)
    = EngineRun 2 prog :: map (fun o => FockProb (1%Z :: o)) labels.
Proof.
  intros HN.
  exists (the_program nSteps r alphaSq eta gamma n_noise etaFock),
         (the_labels nSteps max_photons).
  eexists. split; [now apply walk_program_ok|].
  split; [apply generate_photon_outcomes_completions; lia|].
  unfold result, backend_calls, run_sim.
  rewrite computeWalkOutput_run by assumption. cbn [fst snd app].
  split; [reflexivity|].
  split; [apply heralded_map_keys|].
  split; [apply completions_NoDup|].
  split; [intros o Ho; now apply heralded_map_find|].
  split.
  { intros o Ho. apply DictFacts.find_None_iff. now rewrite heralded_map_keys. }
  split; [reflexivity|].
  split; [apply heralded_map_mass | reflexivity].
Qed.

Lemma computeWalkOutputWithMM_run (nSteps : Z) (r alphaSq eta gamma mm : Q)
  (max_photons : Z) (n_noise : Q) (log : list Event) :
  (0 <= nSteps)%Z ->
  let prog1 := the_program nSteps r (mm * alphaSq) eta gamma n_noise 1 in
  let prog0 := the_program nSteps r ((1 - mm) * alphaSq) eta gamma n_noise 0 in
  let labels := the_labels nSteps max_photons in
  let pn_para := heralded_map (fock_prob (eng_run 2 prog1)) labels in
  let pn_perp := heralded_map (fock_prob (eng_run 2 prog0)) labels in
  computeWalkOutputWithMM eng_run fock_prob nSteps r alphaSq eta gamma mm
    max_photons n_noise log
  = (normalizeProbDict (convolve_probabilities pn_para pn_perp 2),
     log ++ EngineRun 2 prog1 :: heralded_queries labels
         ++ EngineRun 2 prog0 :: heralded_queries labels).
Proof.
  intros HN prog1 prog0 labels pn_para pn_perp.
  unfold computeWalkOutputWithMM.
  unfold sim_bind at 1. rewrite computeWalkOutput_run by assumption.
  unfold sim_bind at 1. rewrite computeWalkOutput_run by assumption.
  unfold sim_lift. f_equal. rewrite <- app_assoc. reflexivity.
Qed.

Lemma the_labels_negative (nSteps max_photons : Z) :
  (0 <= nSteps)%Z -> (max_photons < 0)%Z -> the_labels nSteps max_photons = [].
Proof.
  intros HN Hmp. unfold the_labels.
  destruct (Z.to_nat (2 * nSteps + 2)) as [|n] eqn:E; [lia|].
  cbn [completions]. rewrite range_nonpos by lia. reflexivity.
Qed.

(** With [nSteps = -1] the register has one mode and [q[1]] is out of
    range: the error is raised while the circuit is assembled, before the
    engine is run. *)
Lemma minus_one_step_index_error (r alphaSq eta gamma : Q) (max_photons : Z)
  (n_noise etaFock : Q) :
  run_sim (computeWalkOutput eng_run fock_prob (-1) r alphaSq eta gamma
             max_photons n_noise etaFock)
  = (Raise IndexError, []).
Proof. reflexivity. Qed.

End WalkOutput.

Lemma computeWalkOutput_heralded_witness :
  exists (prog : Program) (labels : list outcome) (pn : ProbDict),
    walk_program 3 (7 # 100) (8 # 100) (7 # 100) 0 (5 # 1000000) 1 = Ok prog /\
    generate_photon_outcomes (2 * 3 + 2) 2 = Ok labels /\
    result (computeWalkOutput toy_run toy_fock 3 (7 # 100) (8 # 100) (7 # 100) 0
              2 (5 # 1000000) 1) = Ok pn /\
    Dict.keys pn = labels.
Proof.
  destruct (@computeWalkOutput_heralded bool toy_run toy_fock
              3 (7 # 100) (8 # 100) (7 # 100) 0 2 (5 # 1000000) 1)
    as [prog [labels [pn H]]]; [lia|].
  exists prog, labels, pn. tauto.
Defined.

(* ================================================================== *)
(** ** The runs against a backend that may raise *)

Section ServedRuns.

Variable State : Type.
Variable eng_run : Z -> Program -> State.
Variable fock_prob : State -> list Z -> Q.

(** against a backend that answers every call, the two models agree *)
Lemma computeWalkOutput_served (nSteps : Z) (r alphaSq eta gamma : Q)
  (max_photons : Z) (n_noise etaFock : Q) :
  computeWalkOutput_raising (serving_run eng_run) (serving_fock fock_prob)
    nSteps r alphaSq eta gamma max_photons n_noise etaFock
  = computeWalkOutput eng_run fock_prob nSteps r alphaSq eta gamma
      max_photons n_noise etaFock.
Proof. reflexivity. Qed.

Lemma computeWalkOutputWithMM_served (nSteps : Z) (r alphaSq eta gamma mm : Q)
  (max_photons : Z) (n_noise : Q) :
  computeWalkOutputWithMM_raising (serving_run eng_run) (serving_fock fock_prob)
    nSteps r alphaSq eta gamma mm max_photons n_noise
  = computeWalkOutputWithMM eng_run fock_prob nSteps r alphaSq eta gamma mm
      max_photons n_noise.
Proof. reflexivity. Qed.

End ServedRuns.

Section RaisingRuns.

Variable State : Type.
Variable eng_run : Z -> Program -> res State.
Variable fock_prob : State -> list Z -> res Q.

(** the query loop only appends to the log *)
Lemma raising_query_loop_log (st : State) (labels : list outcome) :
  forall (pn : ProbDict) (log : list Event),
    exists extra,
      snd (sim_for labels
             (fun label pn =>
                let detLabel := [1%Z] ++ label in
                p <~ sim_ask (FockProb detLabel) (fock_prob st detLabel) ;;
                sim_ret (Dict.set pn label p))
             pn log)
      = log ++ extra.
Proof.
  induction labels as [|l labels IH]; intros pn log.
  - exists []. simpl. now rewrite app_nil_r.
  - cbn [sim_for]. unfold sim_bind at 1. cbn zeta.
    unfold sim_bind at 1, sim_ask at 1.
    destruct (fock_prob st ([1%Z] ++ l)) as [p|e].
    + unfold sim_ret at 1.
      destruct (IH (Dict.set pn l p) (log ++ [FockProb ([1%Z] ++ l)]))
        as [extra Hex].
      exists (FockProb ([1%Z] ++ l) :: extra).
      etransitivity; [exact Hex | now rewrite <- app_assoc].
    + exists [FockProb ([1%Z] ++ l)]. reflexivity.
Qed.

(** no error and no backend call comes before the engine run *)
Lemma raising_run_starts (nSteps : Z) (r alphaSq eta gamma : Q)
  (max_photons : Z) (n_noise etaFock : Q) (log : list Event) :
  (0 <= nSteps)%Z ->
  exists rest,
    snd (computeWalkOutput_raising eng_run fock_prob nSteps r alphaSq eta gamma
           max_photons n_noise etaFock log)
    = log ++ EngineRun 2 (the_program nSteps r alphaSq eta gamma n_noise etaFock)
          :: rest.
Proof.
  intros HN. unfold computeWalkOutput_raising. cbn zeta.
  unfold sim_bind at 1, sim_lift at 1.
  rewrite walk_program_ok by assumption. fold (the_program nSteps r alphaSq eta gamma n_noise etaFock).
  set (prog := the_program nSteps r alphaSq eta gamma n_noise etaFock).
  unfold sim_bind at 1, sim_ask at 1.
  destruct (eng_run 2 prog) as [st|e].
  - unfold sim_bind at 1, sim_lift at 1.
    rewrite generate_photon_outcomes_completions by lia.
    destruct (raising_query_loop_log st
                (completions max_photons (Z.to_nat (2 * nSteps + 2)) max_photons)
                [] (log ++ [EngineRun 2 prog])) as [extra Hex].
    exists extra. etransitivity; [exact Hex | now rewrite <- app_assoc].
  - exists []. reflexivity.
Qed.

Lemma raising_run_negative_cutoff (nSteps : Z) (r alphaSq eta gamma : Q)
  (max_photons : Z) (n_noise etaFock : Q) (log : list Event) (st : State) :
  (0 <= nSteps)%Z -> (max_photons < 0)%Z ->
  eng_run 2 (the_program nSteps r alphaSq eta gamma n_noise etaFock) = Ok st ->
  computeWalkOutput_raising eng_run fock_prob nSteps r alphaSq eta gamma
    max_photons n_noise etaFock log
  = (Ok [],
     log ++ [EngineRun 2 (the_program nSteps r alphaSq eta gamma n_noise etaFock)]).
Proof.
  intros HN Hmp Est. unfold computeWalkOutput_raising. cbn zeta.
  unfold sim_bind at 1, sim_lift at 1.
  rewrite walk_program_ok by assumption.
  fold (the_program nSteps r alphaSq eta gamma n_noise etaFock).
  unfold sim_bind at 1, sim_ask at 1. rewrite Est.
  unfold sim_bind at 1, sim_lift at 1.
  rewrite generate_photon_outcomes_completions by lia.
  fold (the_labels nSteps max_photons).
  rewrite the_labels_negative by assumption. reflexivity.
Qed.

(** C3 (amended): neither function checks its parameters.  For
    [nSteps >= 0], whatever [max_photons] and [mm] are and whatever the
    backend answers, the first thing either function does with the backend
    is to run the engine on the circuit it has built: no error comes before
    that call.  For [max_photons < 0], when the engine runs are served,
    both return the empty map without any error, after one engine run
    ([computeWalkOutput]) or two ([computeWalkOutputWithMM]) and no
    query. *)
Theorem no_parameter_validation (nSteps : Z) (r alphaSq eta gamma mm : Q)
  (max_photons : Z) (n_noise etaFock : Q) :
  (0 <= nSteps)%Z ->
  let prog := the_program nSteps r alphaSq eta gamma n_noise etaFock in
  let prog1 := the_program nSteps r (mm * alphaSq) eta gamma n_noise 1 in
  let prog0 := the_program nSteps r ((1 - mm) * alphaSq) eta gamma n_noise 0 in
  (exists rest,
     backend_calls (computeWalkOutput_raising eng_run fock_prob nSteps r alphaSq
                      eta gamma max_photons n_noise etaFock)
     = EngineRun 2 prog :: rest) /\
  (exists rest,
     backend_calls (computeWalkOutputWithMM_raising eng_run fock_prob nSteps r
                      alphaSq eta gamma mm max_photons n_noise)
     = EngineRun 2 prog1 :: rest) /\
  ((max_photons < 0)%Z ->
   (forall st, eng_run 2 prog = Ok st ->
      run_sim (computeWalkOutput_raising eng_run fock_prob nSteps r alphaSq eta
                 gamma max_photons n_noise etaFock)
      = (Ok [], [EngineRun 2 prog])) /\
   (forall st1 st0, eng_run 2 prog1 = Ok st1 -> eng_run 2 prog0 = Ok st0 ->
      run_sim (computeWalkOutputWithMM_raising eng_run fock_prob nSteps r alphaSq
                 eta gamma mm max_photons n_noise)
      = (Ok [], [EngineRun 2 prog1; EngineRun 2 prog0]))).
Proof.
  intros HN prog prog1 prog0. unfold backend_calls, run_sim.
  split; [|split].
  - destruct (@raising_run_starts nSteps r alphaSq eta gamma max_photons n_noise
                etaFock [] HN) as [rest Hr].
    exists rest. exact Hr.
  - unfold computeWalkOutputWithMM_raising. unfold sim_bind at 1.
    destruct (@raising_run_starts nSteps r (mm * alphaSq) eta gamma max_photons
                n_noise 1 [] HN) as [rest Hr].
    fold prog1 in Hr. cbn [app] in Hr.
    destruct (computeWalkOutput_raising eng_run fock_prob nSteps r (mm * alphaSq)
                eta gamma max_photons n_noise 1 []) as [[pn1|e] log1];
      cbn [snd] in Hr; subst log1; [|exists rest; reflexivity].
    unfold sim_bind at 1.
    destruct (@raising_run_starts nSteps r ((1 - mm) * alphaSq) eta gamma
                max_photons n_noise 0 (EngineRun 2 prog1 :: rest) HN)
      as [rest0 Hr0].
    destruct (computeWalkOutput_raising eng_run fock_prob nSteps r
                ((1 - mm) * alphaSq) eta gamma max_photons n_noise 0
                (EngineRun 2 prog1 :: rest)) as [[pn0|e] log0];
      cbn [snd] in Hr0; subst log0; unfold sim_lift; cbn [snd app]; eauto.
  - intros Hmp. split.
    + intros st Est.
      now rewrite (@raising_run_negative_cutoff nSteps r alphaSq eta gamma
                     max_photons n_noise etaFock [] st HN Hmp Est).
    + intros st1 st0 E1 E0. unfold computeWalkOutputWithMM_raising.
      unfold sim_bind at 1.
      rewrite (@raising_run_negative_cutoff nSteps r (mm * alphaSq) eta gamma
                 max_photons n_noise 1 [] st1 HN Hmp E1).
      unfold sim_bind at 1.
      rewrite (@raising_run_negative_cutoff nSteps r ((1 - mm) * alphaSq) eta
                 gamma max_photons n_noise 0 _ st0 HN Hmp E0).
      reflexivity.
Qed.

End RaisingRuns.

Lemma no_parameter_validation_witness :
  run_sim (computeWalkOutput_raising nan_run nan_fock 0 (7 # 100) (8 # 100)
             (7 # 100) 0 (-1) (5 # 1000000) 1)
  = (Ok [],
     [EngineRun 2 (the_program 0 (7 # 100) (8 # 100) (7 # 100) 0 (5 # 1000000) 1)]).
Proof.
  refine (proj1 (proj2 (proj2
    (@no_parameter_validation bool nan_run nan_fock
       0 (7 # 100) (8 # 100) (7 # 100) 0 (7 # 10) (-1) (5 # 1000000) 1 _)) _)
    false _); [lia | lia | reflexivity].
Defined.

(** C3 (as stated, it fails): with [max_photons = -1] the engine is run and
    the empty map is returned with no error at all; with [mm = -1/2] no
    error is reported before the backend is called: the engine is run on a
    circuit whose coherent amplitude is the square root of a negative
    intensity, and it is the backend that raises, at the first query. *)
Lemma invalid_parameters_accepted :
  run_sim (computeWalkOutput_raising nan_run nan_fock 0 (7 # 100) (8 # 100)
             (7 # 100) 0 (-1) (5 # 1000000) 1)
  = (Ok [],
     [EngineRun 2 (the_program 0 (7 # 100) (8 # 100) (7 # 100) 0 (5 # 1000000) 1)]) /\
  run_sim (computeWalkOutputWithMM_raising nan_run nan_fock 0 (7 # 100) (8 # 100)
             (7 # 100) 0 (- (1 # 2)) 2 (5 # 1000000))
  = (Raise ValueError,
     [EngineRun 2 (the_program 0 (7 # 100) (- (1 # 2) * (8 # 100)) (7 # 100) 0
                     (5 # 1000000) 1);
      FockProb [1; 0; 0]%Z]).
Proof. split; vm_compute; reflexivity. Qed.

(* ================================================================== *)
(** ** Convolution with a distribution concentrated on the vacuum *)

Lemma Qmult_1_l_eq (x : Q) : 1 * x = x.
Proof. destruct x as [[|p|p] d]; reflexivity. Qed.

Lemma qsum_map (A B : Type) (f : B -> Q) (g : A -> B) (l : list A) :
  qsum f (map g l) = qsum (fun x => f (g x)) l.
Proof.
  induction l as [|x l IH]; simpl; [reflexivity | now rewrite IH].
Qed.

Lemma qsum_only (A : Type) (g : A -> Q) (l : list A) (x : A) :
  NoDup l -> In x l ->
  (forall y, In y l -> y <> x -> g y == 0) ->
  qsum g l == g x.
Proof.
  induction 1 as [|y l Hy Hnd IH]; intros Hin Hz; [destruct Hin|].
  rewrite qsum_cons. destruct Hin as [->|Hin].
  - rewrite qsum_zero; [ring|]. intros z Hzl. apply Hz; [now right|].
    intros ->. contradiction.
  - rewrite Hz; [|now left|intros ->; contradiction].
    rewrite IH; [ring | exact Hin |].
    intros z Hzl Hne. apply Hz; [now right | exact Hne].
Qed.

Lemma zip_add_cons (a b : Z) (o1 o2 : outcome) :
  zip_add (a :: o1) (b :: o2) = (0 + a + b)%Z :: zip_add o1 o2.
Proof. reflexivity. Qed.

Lemma zip_add_vacuum (o : outcome) : zip_add o (vacuum (length o)) = o.
Proof.
  induction o as [|a o IH].
  - reflexivity.
  - change (vacuum (length (a :: o))) with (0%Z :: vacuum (length o)).
    rewrite zip_add_cons, IH. f_equal. lia.
Qed.

Lemma zip_add_vacuum_n (n : nat) (o : outcome) :
  length o = n -> zip_add o (vacuum n) = o.
Proof. intros <-. apply zip_add_vacuum. Qed.

Lemma sum_vacuum (n : nat) : Py.sum (vacuum n) = 0%Z.
Proof.
  unfold vacuum. induction n as [|n IH]; simpl repeat.
  - reflexivity.
  - rewrite sum_cons, IH. reflexivity.
Qed.

Lemma vacuum_length (n : nat) : length (vacuum n) = n.
Proof. apply repeat_length. Qed.

Lemma vacuum_In (mp : Z) (n : nat) :
  (0 <= mp)%Z -> In (vacuum n) (completions mp n mp).
Proof.
  intros H. apply completions_In. split; [apply vacuum_length|]. split.
  - unfold vacuum. apply Forall_forall. intros x Hx.
    apply repeat_spec in Hx. lia.
  - rewrite sum_vacuum. exact H.
Qed.

Lemma le_sum (l : list Z) :
  Forall (fun x => 0 <= x)%Z l -> Forall (fun x => x <= Py.sum l)%Z l.
Proof.
  induction 1 as [|x l Hx Hl IH].
  - constructor.
  - rewrite sum_cons. constructor.
    + pose proof (sum_nonneg Hl). lia.
    + eapply Forall_impl; [|exact IH]. simpl. intros; lia.
Qed.

Lemma zip_add_nonneg (o1 o2 : outcome) :
  Forall (fun x => 0 <= x)%Z o1 -> Forall (fun x => 0 <= x)%Z o2 ->
  Forall (fun x => 0 <= x)%Z (zip_add o1 o2).
Proof.
  intros H1. revert o2. induction H1 as [|a o1 Ha _ IH]; intros o2 H2.
  - constructor.
  - destruct H2 as [|b o2 Hb H2]; [constructor|].
    unfold zip_add. simpl. constructor; [lia|]. apply IH. exact H2.
Qed.

Lemma completions_closed (mp : Z) (n : nat) (o1 o2 : outcome) :
  In o1 (completions mp n mp) -> In o2 (completions mp n mp) ->
  (Py.sum (zip_add o1 o2) <= mp)%Z ->
  In (zip_add o1 o2) (completions mp n mp).
Proof.
  intros H1 H2 Hs. apply completions_In in H1, H2.
  destruct H1 as [L1 [F1 _]], H2 as [L2 [F2 _]].
  apply completions_In. split; [rewrite zip_add_length; lia|].
  split; [|exact Hs].
  assert (Hnn : Forall (fun x => 0 <= x)%Z (zip_add o1 o2)).
  { apply zip_add_nonneg; (eapply Forall_impl; [|eassumption]); simpl; intros; lia. }
  pose proof (le_sum Hnn) as Hle.
  rewrite Forall_forall in *. intros x Hx.
  specialize (Hnn x Hx). specialize (Hle x Hx). lia.
Qed.

Lemma tabulate_find (P : outcome -> Q) (l : list outcome) (s : outcome) :
  In s l -> Dict.find s (map (fun o => (o, P o)) l) = Some (P s).
Proof.
  induction l as [|x l IH]; simpl; [tauto|].
  destruct (outcome_eq_dec s x) as [->|E]; [reflexivity|].
  intros [H|H]; [congruence | now apply IH].
Qed.

Lemma tabulate_keys (P : outcome -> Q) (l : list outcome) :
  Dict.keys (map (fun o => (o, P o)) l) = l.
Proof. unfold Dict.keys. rewrite map_map. apply map_id. Qed.

Section VacuumBranch.

Variables (mp : Z) (n : nat) (P1 P0 : outcome -> Q).

Let labels : list outcome := completions mp n mp.
Let para : ProbDict := map (fun o => (o, P1 o)) labels.
Let dark : ProbDict := map (fun o => (o, P0 o)) labels.

Hypothesis mp_nonneg : (0 <= mp)%Z.
Hypothesis dark_elsewhere :
  forall o, In o labels -> o <> vacuum n -> P0 o == 0.

Lemma inner_sum_vacuum (f : outcome -> Q -> Q) :
  (forall o, f o 0 == 0) ->
  (forall o x y, x == y -> f o x == f o y) ->
  qsum (fun kv2 => f (fst kv2) (snd kv2)) dark == f (vacuum n) (P0 (vacuum n)).
Proof.
  intros Hf0 Hfm. unfold dark. rewrite qsum_map. cbn [fst snd].
  apply qsum_only with (g := fun o => f o (P0 o)).
  - apply completions_NoDup.
  - now apply vacuum_In.
  - intros o Ho Hne. rewrite (Hfm o _ 0); [apply Hf0|].
    now apply dark_elsewhere.
Qed.

Lemma conv_weight_vacuum (s : outcome) :
  In s labels ->
  conv_weight para dark s == P1 s * P0 (vacuum n).
Proof.
  intros Hs. unfold conv_weight, para at 1. rewrite qsum_map.
  transitivity (qsum (fun o1 => if outcome_eq_dec o1 s
                                then P1 o1 * P0 (vacuum n) else 0) labels).
  - apply qsum_ext. intros o1 Ho1.
    unfold pair_term. cbn [fst snd].
    rewrite (inner_sum_vacuum
               (fun o2 v2 => if outcome_eq_dec (zip_add o1 o2) s
                             then P1 o1 * v2 else 0)).
    + assert (L1 : length o1 = n) by (apply completions_In in Ho1; tauto).
      pose proof (@zip_add_vacuum_n n o1 L1) as E.
      set (z := zip_add o1 (vacuum n)) in *. clearbody z. subst z. reflexivity.
    + intros o. destruct (outcome_eq_dec _ _); ring.
    + intros o x y E. destruct (outcome_eq_dec _ _); [now rewrite E | reflexivity].
  - rewrite qsum_only with (x := s).
    + destruct (outcome_eq_dec s s); [reflexivity | congruence].
    + apply completions_NoDup.
    + exact Hs.
    + intros y _ Hne. destruct (outcome_eq_dec y s); [congruence | reflexivity].
Qed.

Lemma kept_mass_vacuum :
  kept_mass para dark mp == qsum P1 labels * P0 (vacuum n).
Proof.
  unfold kept_mass, para at 1. rewrite qsum_map.
  transitivity (qsum (fun o1 => P0 (vacuum n) * P1 o1) labels).
  - apply qsum_ext. intros o1 Ho1.
    unfold kept_term. cbn [fst snd].
    rewrite (inner_sum_vacuum
               (fun o2 v2 => if (Py.sum (zip_add o1 o2) <=? mp)%Z
                             then P1 o1 * v2 else 0)).
    + assert (L1 : length o1 = n /\ (Py.sum o1 <= mp)%Z)
        by (apply completions_In in Ho1; tauto).
      destruct L1 as [L1 S1].
      pose proof (@zip_add_vacuum_n n o1 L1) as E.
      set (z := zip_add o1 (vacuum n)) in *. clearbody z. subst z.
      replace (Py.sum o1 <=? mp)%Z with true by (symmetry; now apply Z.leb_le).
      ring.
    + intros o. destruct (_ <=? _)%Z; ring.
    + intros o x y E. destruct (_ <=? _)%Z; [now rewrite E | reflexivity].
  - rewrite qsum_scale. ring.
Qed.

Lemma convolve_vacuum_keys (s : outcome) :
  In s (Dict.keys (convolve_probabilities para dark mp)) <-> In s labels.
Proof.
  rewrite convolve_keys. split.
  - intros [Hs [kv1 [kv2 [H1 [H2 <-]]]]].
    unfold para in H1. unfold dark in H2.
    apply in_map_iff in H1, H2.
    destruct H1 as [o1 [<- H1]], H2 as [o2 [<- H2]]. cbn [fst] in *.
    now apply completions_closed.
  - intros Hs. pose proof Hs as Hs'. apply completions_In in Hs'.
    destruct Hs' as [L [_ S]]. split; [exact S|].
    exists (s, P1 s), (vacuum n, P0 (vacuum n)). split; [|split].
    + unfold para. apply in_map_iff. now exists s.
    + unfold dark. apply in_map_iff. exists (vacuum n).
      split; [reflexivity | now apply vacuum_In].
    + cbn [fst]. now apply zip_add_vacuum_n.
Qed.

Lemma para_find (s : outcome) :
  Dict.find s para = if in_dec outcome_eq_dec s labels then Some (P1 s) else None.
Proof.
  unfold para. destruct (in_dec outcome_eq_dec s labels) as [Hin|Hni].
  - now apply tabulate_find.
  - apply DictFacts.find_None_iff. now rewrite tabulate_keys.
Qed.

Lemma para_mass : fsum (Dict.values para) == qsum P1 labels.
Proof.
  unfold para, Dict.values. rewrite map_map. cbn [snd]. apply fsum_map_qsum.
Qed.

(** normalising the convolution gives the normalised [para] *)
Lemma normalised_convolution_vacuum :
  ~ P0 (vacuum n) == 0 ->
  ~ fsum (Dict.values para) == 0 ->
  exists out norm : ProbDict,
    normalizeProbDict (convolve_probabilities para dark mp) = Ok out /\
    normalizeProbDict para = Ok norm /\
    Dict.equiv out norm.
Proof.
  intros Hc HT.
  set (conv := convolve_probabilities para dark mp).
  assert (Hmass : fsum (Dict.values conv) == fsum (Dict.values para) * P0 (vacuum n)).
  { unfold conv. rewrite convolve_mass, kept_mass_vacuum, para_mass. reflexivity. }
  assert (Hnz : ~ fsum (Dict.values conv) == 0).
  { rewrite Hmass. intros E. apply Qmult_integral in E. tauto. }
  exists (scaled (fsum (Dict.values conv)) conv),
         (scaled (fsum (Dict.values para)) para).
  split; [apply normalizeProbDict_ok; [apply convolve_NoDup | exact Hnz]|].
  split.
  { apply normalizeProbDict_ok; [|exact HT].
    unfold para. rewrite tabulate_keys. apply completions_NoDup. }
  intros k. rewrite !scaled_find, para_find.
  destruct (in_dec outcome_eq_dec k labels) as [Hin|Hni].
  - assert (Hk : In k (Dict.keys conv)) by (now apply convolve_vacuum_keys).
    apply DictFacts.find_In_keys in Hk. destruct Hk as [v Hv].
    rewrite Hv. cbn [option_map Dict.opt_eq].
    assert (Hget : v == P1 k * P0 (vacuum n)).
    { rewrite <- (@conv_weight_vacuum k Hin).
      rewrite <- (@convolve_get_kept para dark mp k).
      - unfold Dict.get. fold conv. now rewrite Hv.
      - apply completions_In in Hin. tauto. }
    rewrite Hget, Hmass. field. split; assumption.
  - assert (Hk : ~ In k (Dict.keys conv)).
    { intros H. apply Hni. now apply convolve_vacuum_keys. }
    apply DictFacts.find_None_iff in Hk. rewrite Hk. exact I.
Qed.

End VacuumBranch.

(* ================================================================== *)
(** ** computeWalkOutputWithMM *)

Lemma normalizeProbDict_Ok_inv (d out : ProbDict) :
  NoDup (Dict.keys d) ->
  normalizeProbDict d = Ok out ->
  out = scaled (fsum (Dict.values d)) d /\
  (d <> [] -> ~ fsum (Dict.values d) == 0).
Proof.
  intros Hnd E. destruct d as [|kv d].
  - injection E as <-. split; [reflexivity | congruence].
  - destruct (Qeq_dec (fsum (Dict.values (kv :: d))) 0) as [Hz|Hz].
    + rewrite normalizeProbDict_zero in E by (congruence || assumption).
      discriminate.
    + rewrite normalizeProbDict_ok in E by assumption.
      injection E as <-. split; [reflexivity | intros _; exact Hz].
Qed.

Lemma normalizeProbDict_Ok_keys (d out : ProbDict) :
  NoDup (Dict.keys d) ->
  normalizeProbDict d = Ok out -> Dict.keys out = Dict.keys d.
Proof.
  intros Hnd E. apply normalizeProbDict_Ok_inv in E; [|assumption].
  destruct E as [-> _]. apply scaled_keys.
Qed.

(** whatever is normalised without error, and is not empty, sums to 1 *)
Lemma normalizeProbDict_mass (d out : ProbDict) :
  NoDup (Dict.keys d) -> d <> [] ->
  normalizeProbDict d = Ok out -> fsum (Dict.values out) == 1.
Proof.
  intros Hnd Hne E. apply normalizeProbDict_Ok_inv in E; [|assumption].
  destruct E as [-> Hnz]. apply scaled_mass_one. now apply Hnz.
Qed.

Section Mismatch.

Variable State : Type.
Variable eng_run : Z -> Program -> State.
Variable fock_prob : State -> list Z -> Q.

(** C10: whatever [max_photons] is, the two branch distributions are
    combined by [convolve_probabilities] at its default cutoff 2: every
    outcome of the combination, and of the final distribution, has at most
    2 photons in total; none has a total in (2, max_photons]. *)
Theorem mismatch_truncates_at_two (nSteps : Z) (r alphaSq eta gamma mm : Q)
  (max_photons : Z) (n_noise : Q) :
  (0 <= nSteps)%Z ->
  exists pn_para pn_perp : ProbDict,
    result (computeWalkOutput eng_run fock_prob nSteps r (mm * alphaSq) eta
              gamma max_photons n_noise 1) = Ok pn_para /\
    result (computeWalkOutput eng_run fock_prob nSteps r ((1 - mm) * alphaSq)
              eta gamma max_photons n_noise 0) = Ok pn_perp /\
    result (computeWalkOutputWithMM eng_run fock_prob nSteps r alphaSq eta
              gamma mm max_photons n_noise)
    = normalizeProbDict (convolve_probabilities pn_para pn_perp 2) /\
    (forall s, In s (Dict.keys (convolve_probabilities pn_para pn_perp 2)) ->
               (Py.sum s <= 2)%Z) /\
    (forall out,
        result (computeWalkOutputWithMM eng_run fock_prob nSteps r alphaSq eta
                  gamma mm max_photons n_noise) = Ok out ->
        forall s, In s (Dict.keys out) ->
                  (Py.sum s <= 2)%Z /\ ~ (2 < Py.sum s <= max_photons)%Z).
Proof.
  intros HN. do 2 eexists.
  unfold result, run_sim.
  rewrite !computeWalkOutput_run, computeWalkOutputWithMM_run by assumption.
  cbn [fst]. split; [reflexivity|]. split; [reflexivity|].
  split; [reflexivity|]. split.
  - intros s Hs. apply convolve_keys in Hs. tauto.
  - intros out E s Hs.
    rewrite (@normalizeProbDict_Ok_keys _ out (convolve_NoDup _ _ _) E) in Hs.
    apply convolve_keys in Hs. lia.
Qed.

(** the result of [computeWalkOutputWithMM] always sums to 1 *)
Lemma computeWalkOutputWithMM_mass (nSteps : Z) (r alphaSq eta gamma mm : Q)
  (max_photons : Z) (n_noise : Q) (out : ProbDict) :
  (0 <= nSteps)%Z ->
  result (computeWalkOutputWithMM eng_run fock_prob nSteps r alphaSq eta
            gamma mm max_photons n_noise) = Ok out ->
  out <> [] -> fsum (Dict.values out) == 1.
Proof.
  intros HN E Hne. unfold result, run_sim in E.
  rewrite computeWalkOutputWithMM_run in E by assumption. cbn [fst] in E.
  eapply normalizeProbDict_mass; [apply convolve_NoDup | | exact E].
  intros Hnil. rewrite Hnil in E. injection E as <-. congruence.
Qed.

Lemma result_computeWalkOutput (nSteps : Z) (r alphaSq eta gamma : Q)
  (max_photons : Z) (n_noise etaFock : Q) :
  (0 <= nSteps)%Z ->
  result (computeWalkOutput eng_run fock_prob nSteps r alphaSq eta gamma
            max_photons n_noise etaFock)
  = Ok (heralded_map
          (fock_prob (eng_run 2 (the_program nSteps r alphaSq eta gamma
                                   n_noise etaFock)))
          (the_labels nSteps max_photons)).
Proof.
  intros HN. unfold result, run_sim.
  now rewrite computeWalkOutput_run by assumption.
Qed.

Lemma result_computeWalkOutputWithMM (nSteps : Z) (r alphaSq eta gamma mm : Q)
  (max_photons : Z) (n_noise : Q) :
  (0 <= nSteps)%Z ->
  result (computeWalkOutputWithMM eng_run fock_prob nSteps r alphaSq eta gamma
            mm max_photons n_noise)
  = normalizeProbDict
      (convolve_probabilities
         (heralded_map
            (fock_prob (eng_run 2 (the_program nSteps r (mm * alphaSq) eta
                                     gamma n_noise 1)))
            (the_labels nSteps max_photons))
         (heralded_map
            (fock_prob (eng_run 2 (the_program nSteps r ((1 - mm) * alphaSq)
                                     eta gamma n_noise 0)))
            (the_labels nSteps max_photons))
         2).
Proof.
  intros HN. unfold result, run_sim.
  now rewrite computeWalkOutputWithMM_run by assumption.
Qed.

(** C1 (amended): with full overlap, cutoff [max_photons = 2], an ideal
    distribution of non-zero total and a perpendicular branch (zero
    coherent intensity, heralded photon blocked) that puts all its weight
    on the all-zero outcome, [computeWalkOutputWithMM] returns the ideal
    distribution of [computeWalkOutput] normalised to total 1. *)
Theorem full_overlap_normalised_ideal (nSteps : Z) (r alphaSq eta gamma n_noise : Q)
  (ideal dark : ProbDict) :
  (0 <= nSteps)%Z ->
  result (computeWalkOutput eng_run fock_prob nSteps r alphaSq eta gamma
            2 n_noise 1) = Ok ideal ->
  result (computeWalkOutput eng_run fock_prob nSteps r ((1 - 1) * alphaSq) eta
            gamma 2 n_noise 0) = Ok dark ->
  concentrated_on_vacuum dark ->
  ~ fsum (Dict.values ideal) == 0 ->
  exists out norm : ProbDict,
    result (computeWalkOutputWithMM eng_run fock_prob nSteps r alphaSq eta
              gamma 1 2 n_noise) = Ok out /\
    normalizeProbDict ideal = Ok norm /\
    Dict.equiv out norm.
Proof.
  intros HN Hideal Hdark Hvac HT.
  rewrite result_computeWalkOutput in Hideal, Hdark by assumption.
  injection Hideal as <-. injection Hdark as <-.
  rewrite result_computeWalkOutputWithMM by assumption.
  rewrite Qmult_1_l_eq.
  set (P1 := fun o => fock_prob
                 (eng_run 2 (the_program nSteps r alphaSq eta gamma n_noise 1))
                 (1%Z :: o)) in *.
  set (P0 := fun o => fock_prob
                 (eng_run 2 (the_program nSteps r ((1 - 1) * alphaSq) eta gamma
                               n_noise 0))
                 (1%Z :: o)) in *.
  set (n := Z.to_nat (2 * nSteps + 2)).
  assert (Hin : forall o, In o (completions 2 n 2) ->
                          In (o, P0 o) (map (fun o => (o, P0 o)) (completions 2 n 2))).
  { intros o Ho. apply in_map_iff. now exists o. }
  apply (@normalised_convolution_vacuum 2 n P1 P0).
  - lia.
  - intros o Ho Hne. specialize (Hvac o (P0 o) (Hin o Ho)).
    assert (L : length o = n) by (apply completions_In in Ho; tauto).
    rewrite L in Hvac. destruct (outcome_eq_dec o (vacuum n)); [contradiction | exact Hvac].
  - assert (Hv : In (vacuum n) (completions 2 n 2)) by (apply vacuum_In; lia).
    specialize (Hvac (vacuum n) (P0 (vacuum n)) (Hin _ Hv)).
    rewrite vacuum_length in Hvac.
    destruct (outcome_eq_dec (vacuum n) (vacuum n)); [exact Hvac | congruence].
  - exact HT.
Qed.

(** C2 (amended): with zero overlap, the result is the normalised
    convolution, cut off at 2 photons, of the perpendicular branch
    (full coherent intensity, heralded photon blocked) with the parallel
    branch at zero coherent intensity, in which the heralded photon still
    walks: the weight of [s] is the convolution sum divided by the kept
    mass, the keys are the element-wise sums of total at most 2, and the
    weights sum to 1. *)
Theorem zero_overlap_convolution (nSteps : Z) (r alphaSq eta gamma : Q)
  (max_photons : Z) (n_noise : Q) (photon perp : ProbDict) :
  (0 <= nSteps)%Z ->
  result (computeWalkOutput eng_run fock_prob nSteps r (0 * alphaSq) eta gamma
            max_photons n_noise 1) = Ok photon ->
  result (computeWalkOutput eng_run fock_prob nSteps r alphaSq eta gamma
            max_photons n_noise 0) = Ok perp ->
  ~ kept_mass photon perp 2 == 0 ->
  exists out : ProbDict,
    result (computeWalkOutputWithMM eng_run fock_prob nSteps r alphaSq eta
              gamma 0 max_photons n_noise) = Ok out /\
    (forall s, In s (Dict.keys out) <->
       (Py.sum s <= 2)%Z /\
       exists o1 o2, In o1 (Dict.keys photon) /\ In o2 (Dict.keys perp) /\
                     elementwise_sum o1 o2 s) /\
    (forall s, (Py.sum s <= 2)%Z ->
       Dict.get out s 0 == conv_weight photon perp s / kept_mass photon perp 2) /\
    fsum (Dict.values out) == 1.
Proof.
  intros HN Hphoton Hperp Hmass.
  rewrite result_computeWalkOutput in Hphoton, Hperp by assumption.
  rewrite result_computeWalkOutputWithMM by assumption.
  change (1 - 0) with 1. rewrite Qmult_1_l_eq.
  injection Hphoton as Hphoton. injection Hperp as Hperp.
  rewrite Hphoton, Hperp.
  set (conv := convolve_probabilities photon perp 2).
  assert (Htot : fsum (Dict.values conv) == kept_mass photon perp 2)
    by apply convolve_mass.
  assert (Hnz : ~ fsum (Dict.values conv) == 0) by (now rewrite Htot).
  assert (Hlen : forall o, In o (Dict.keys photon) \/ In o (Dict.keys perp) ->
                           length o = Z.to_nat (2 * nSteps + 2)).
  { intros o Ho. rewrite <- Hphoton, <- Hperp, !heralded_map_keys in Ho.
    assert (Ho' : In o (the_labels nSteps max_photons)) by tauto.
    apply completions_In in Ho'. tauto. }
  exists (scaled (fsum (Dict.values conv)) conv).
  split; [apply normalizeProbDict_ok; [apply convolve_NoDup | exact Hnz]|].
  split; [|split].
  - intros s. rewrite scaled_keys. unfold conv. rewrite convolve_keys. split.
    + intros [Hs [kv1 [kv2 [H1 [H2 E]]]]]. split; [exact Hs|].
      exists (fst kv1), (fst kv2).
      assert (K1 : In (fst kv1) (Dict.keys photon)) by (now apply in_map).
      assert (K2 : In (fst kv2) (Dict.keys perp)) by (now apply in_map).
      split; [exact K1|]. split; [exact K2|].
      apply zip_add_elementwise; [|exact E].
      rewrite (Hlen _ (or_introl K1)), (Hlen _ (or_intror K2)). reflexivity.
    + intros [Hs [o1 [o2 [K1 [K2 E]]]]]. split; [exact Hs|].
      apply in_map_iff in K1, K2.
      destruct K1 as [kv1 [<- H1]], K2 as [kv2 [<- H2]].
      exists kv1, kv2. split; [exact H1|]. split; [exact H2|].
      apply zip_add_elementwise; [|exact E].
      rewrite (Hlen (fst kv1)), (Hlen (fst kv2)); [reflexivity | |].
      * right. now apply in_map.
      * left. now apply in_map.
  - intros s Hs. rewrite get_scaled, Htot. unfold conv.
    rewrite convolve_get_kept by assumption. reflexivity.
  - now apply scaled_mass_one.
Qed.

End Mismatch.

Lemma mismatch_truncates_at_two_witness :
  exists out : ProbDict,
    result (computeWalkOutputWithMM toy_run toy_fock 0 (7 # 100) (8 # 100)
              (7 # 100) 0 (7 # 10) 3 (5 # 1000000)) = Ok out /\
    forall s, In s (Dict.keys out) -> (Py.sum s <= 2)%Z.
Proof.
  destruct (@mismatch_truncates_at_two bool toy_run toy_fock
              0 (7 # 100) (8 # 100) (7 # 100) 0 (7 # 10) 3 (5 # 1000000))
    as [para [perp [_ [_ [_ [_ Hout]]]]]]; [lia|].
  destruct (result (computeWalkOutputWithMM toy_run toy_fock 0 (7 # 100) (8 # 100)
              (7 # 100) 0 (7 # 10) 3 (5 # 1000000))) as [out|e] eqn:R.
  - exists out. split; [reflexivity|]. intros s Hs.
    exact (proj1 (Hout out eq_refl s Hs)).
  - vm_compute in R. discriminate.
Defined.


Lemma toy_blocked_concentrated : concentrated_on_vacuum toy_blocked.
Proof.
  intros o v Hin. vm_compute in Hin.
  repeat (destruct Hin as [Hin|Hin];
          [injection Hin as <- <-; vm_compute;
           first [reflexivity | intros H; discriminate]|]).
  destruct Hin.
Qed.

Lemma toy_open_mass : ~ fsum (Dict.values toy_open) == 0.
Proof. vm_compute. intros H. discriminate. Qed.

Lemma full_overlap_normalised_ideal_witness :
  exists out norm : ProbDict,
    result (computeWalkOutputWithMM toy_run toy_fock 0 (7 # 100) (8 # 100)
              (7 # 100) 0 1 2 (5 # 1000000)) = Ok out /\
    normalizeProbDict toy_open = Ok norm /\
    Dict.equiv out norm.
Proof.
  apply (@full_overlap_normalised_ideal bool toy_run toy_fock
           0 (7 # 100) (8 # 100) (7 # 100) 0 (5 # 1000000)
           toy_open toy_blocked).
  - lia.
  - vm_compute. reflexivity.
  - vm_compute. reflexivity.
  - exact toy_blocked_concentrated.
  - exact toy_open_mass.
Defined.

(** C1 (as stated, it fails): on the small backend, with the parameters of
    the example and no step, the ideal map gives 1/16 to the all-zero
    outcome and sums to less than 1, while full overlap gives it 4/11 in a
    map that sums to 1. *)
Lemma full_overlap_not_ideal :
  exists out ideal : ProbDict,
    result (computeWalkOutputWithMM toy_run toy_fock 0 (7 # 100) (8 # 100)
              (7 # 100) 0 1 2 (5 # 1000000)) = Ok out /\
    result (computeWalkOutput toy_run toy_fock 0 (7 # 100) (8 # 100)
              (7 # 100) 0 2 (5 # 1000000) 1) = Ok ideal /\
    Dict.get out [0; 0]%Z 0 == 4 # 11 /\
    Dict.get ideal [0; 0]%Z 0 == 1 # 16 /\
    fsum (Dict.values out) == 1 /\
    fsum (Dict.values ideal) == 11 # 64 /\
    ~ Dict.equiv out ideal.
Proof.
  do 2 eexists.
  split; [vm_compute; reflexivity|]. split; [vm_compute; reflexivity|].
  split; [vm_compute; reflexivity|]. split; [vm_compute; reflexivity|].
  split; [vm_compute; reflexivity|]. split; [vm_compute; reflexivity|].
  intros H. specialize (H [0; 0]%Z). vm_compute in H. discriminate.
Qed.

Lemma toy_kept_mass : ~ kept_mass toy_open toy_blocked 2 == 0.
Proof. vm_compute. intros H. discriminate. Qed.

Lemma zero_overlap_convolution_witness :
  exists out : ProbDict,
    result (computeWalkOutputWithMM toy_run toy_fock 0 (7 # 100) (8 # 100)
              (7 # 100) 0 0 2 (5 # 1000000)) = Ok out /\
    fsum (Dict.values out) == 1.
Proof.
  destruct (@zero_overlap_convolution bool toy_run toy_fock
              0 (7 # 100) (8 # 100) (7 # 100) 0 2 (5 # 1000000)
              toy_open toy_blocked) as [out [Hout [_ [_ Hsum]]]].
  - lia.
  - vm_compute. reflexivity.
  - vm_compute. reflexivity.
  - exact toy_kept_mass.
  - exists out. split; assumption.
Defined.

(** C2 (as stated, it fails): on the small backend the perpendicular branch
    alone gives 1/4 to the all-zero outcome and nothing to (0,1), while
    zero overlap gives them 4/11 and 2/11: the heralded photon of the
    parallel branch is still counted, and the result is normalised. *)
Lemma zero_overlap_not_perpendicular :
  exists out perp : ProbDict,
    result (computeWalkOutputWithMM toy_run toy_fock 0 (7 # 100) (8 # 100)
              (7 # 100) 0 0 2 (5 # 1000000)) = Ok out /\
    result (computeWalkOutput toy_run toy_fock 0 (7 # 100) (8 # 100)
              (7 # 100) 0 2 (5 # 1000000) 0) = Ok perp /\
    Dict.get out [0; 0]%Z 0 == 4 # 11 /\
    Dict.get perp [0; 0]%Z 0 == 1 # 4 /\
    Dict.get out [0; 1]%Z 0 == 2 # 11 /\
    Dict.get perp [0; 1]%Z 0 == 0 /\
    ~ Dict.equiv out perp.
Proof.
  do 2 eexists.
  split; [vm_compute; reflexivity|]. split; [vm_compute; reflexivity|].
  split; [vm_compute; reflexivity|]. split; [vm_compute; reflexivity|].
  split; [vm_compute; reflexivity|]. split; [vm_compute; reflexivity|].
  intros H. specialize (H [0; 0]%Z). vm_compute in H. discriminate.
Qed.

(* ================================================================== *)
(** ** More on normalizeProbDict *)

Lemma fsum_nonneg (vs : list Q) :
  Forall (fun v => 0 <= v) vs -> 0 <= fsum vs.
Proof.
  induction 1 as [|v vs Hv _ IH].
  - rewrite fsum_nil. lra.
  - rewrite fsum_cons. lra.
Qed.

Lemma le_fsum (vs : list Q) :
  Forall (fun v => 0 <= v) vs -> Forall (fun v => v <= fsum vs) vs.
Proof.
  induction 1 as [|v vs Hv Hvs IH].
  - constructor.
  - constructor.
    + rewrite fsum_cons. pose proof (fsum_nonneg Hvs). lra.
    + eapply Forall_impl; [|exact IH]. cbn beta. intros a Ha.
      rewrite fsum_cons. lra.
Qed.

Lemma scaled_values (total : Q) (d : ProbDict) :
  Dict.values (scaled total d) = map (fun v => v / total) (Dict.values d).
Proof. unfold Dict.values, scaled. now rewrite !map_map. Qed.

Lemma scaled_unit_weights (d : ProbDict) :
  nonneg_weights d -> 0 < fsum (Dict.values d) ->
  unit_weights (scaled (fsum (Dict.values d)) d).
Proof.
  intros Hnn Hpos. unfold unit_weights. rewrite scaled_values.
  apply Forall_map. pose proof (le_fsum Hnn) as Hle.
  unfold nonneg_weights in Hnn. rewrite Forall_forall in *.
  intros v Hv. specialize (Hnn v Hv). specialize (Hle v Hv).
  set (T := fsum (Dict.values d)) in *. split.
  - apply Qle_shift_div_l; [exact Hpos | lra].
  - apply Qle_shift_div_r; [exact Hpos | lra].
Qed.

(** X1: a dictionary of non-zero total weight is normalised without
    error: same keys in the same order, each weight divided by the total,
    total 1; non-negative weights become probabilities. *)
Theorem normalizeProbDict_distribution (d : ProbDict) :
  NoDup (Dict.keys d) ->
  ~ fsum (Dict.values d) == 0 ->
  exists out : ProbDict,
    normalizeProbDict d = Ok out /\
    Dict.keys out = Dict.keys d /\
    (forall k, Dict.find k out
               = option_map (fun v => v / fsum (Dict.values d)) (Dict.find k d)) /\
    fsum (Dict.values out) == 1 /\
    (nonneg_weights d -> unit_weights out).
Proof.
  intros Hnd Hnz. exists (scaled (fsum (Dict.values d)) d).
  split; [now apply normalizeProbDict_ok|].
  split; [apply scaled_keys|]. split; [intros k; apply scaled_find|].
  split; [now apply scaled_mass_one|].
  intros Hnn. apply scaled_unit_weights; [exact Hnn|].
  pose proof (fsum_nonneg Hnn) as H0.
  destruct (Qlt_le_dec 0 (fsum (Dict.values d))) as [Hlt|Hle]; [exact Hlt|].
  exfalso. apply Hnz. lra.
Qed.

Lemma normalizeProbDict_distribution_witness :
  exists out : ProbDict,
    normalizeProbDict half_half = Ok out /\ fsum (Dict.values out) == 1.
Proof.
  destruct (@normalizeProbDict_distribution half_half) as [out [E [_ [_ [S _]]]]].
  - repeat constructor; simpl; intuition discriminate.
  - vm_compute. intros H. discriminate.
  - exists out. split; assumption.
Defined.

Lemma normalizeProbDict_again (d out : ProbDict) :
  NoDup (Dict.keys d) ->
  normalizeProbDict d = Ok out ->
  exists out' : ProbDict,
    normalizeProbDict out = Ok out' /\
    Dict.keys out' = Dict.keys out /\
    Dict.equiv out' out.
Proof.
  intros Hnd E. destruct d as [|kv d].
  - injection E as <-. exists []. split; [reflexivity|]. split; [reflexivity|].
    intros k. exact I.
  - apply normalizeProbDict_Ok_inv in E; [|assumption].
    destruct E as [-> Hnz]. specialize (Hnz ltac:(discriminate)).
    set (T := fsum (Dict.values (kv :: d))) in *.
    set (dn := scaled T (kv :: d)).
    assert (Hone : fsum (Dict.values dn) == 1) by (now apply scaled_mass_one).
    assert (Hnz' : ~ fsum (Dict.values dn) == 0).
    { rewrite Hone. intros H. discriminate. }
    exists (scaled (fsum (Dict.values dn)) dn).
    split.
    { apply normalizeProbDict_ok; [|exact Hnz'].
      unfold dn. now rewrite scaled_keys. }
    split; [apply scaled_keys|].
    intros k. rewrite scaled_find.
    destruct (Dict.find k dn) as [v|]; cbn [option_map Dict.opt_eq].
    + rewrite Hone. field.
    + exact I.
Qed.

(** X2: normalising is idempotent: what [normalizeProbDict] returns is
    normalised again without error into an equal dictionary. *)
Theorem normalizeProbDict_idempotent (d out : ProbDict) :
  NoDup (Dict.keys d) ->
  normalizeProbDict d = Ok out ->
  exists out' : ProbDict,
    normalizeProbDict out = Ok out' /\
    Dict.keys out' = Dict.keys out /\
    Dict.equiv out' out.
Proof. apply normalizeProbDict_again. Qed.

Lemma normalizeProbDict_idempotent_witness :
  exists out out' : ProbDict,
    normalizeProbDict half_half = Ok out /\
    normalizeProbDict out = Ok out' /\
    Dict.equiv out' out.
Proof.
  assert (Hnd : NoDup (Dict.keys half_half)).
  { repeat constructor; simpl; intuition discriminate. }
  destruct (normalizeProbDict half_half) as [out|e] eqn:E.
  - destruct (@normalizeProbDict_idempotent half_half out Hnd E)
      as [out' [E' [_ Heq]]].
    exists out, out'. repeat split; assumption.
  - vm_compute in E. discriminate.
Defined.

Lemma normalize_loop_total (total : Q) (l : ProbDict) :
  ~ total == 0 ->
  forall acc, exists out,
    for_each l
      (fun kv acc =>
         w <- fdiv (snd kv) total ;;
         Ok (Dict.set acc (fst kv) w))
      acc
    = Ok out.
Proof.
  intros Ht. induction l as [|kv l IH]; intros acc; simpl.
  - now exists acc.
  - rewrite fdiv_nonzero by assumption. simpl. apply IH.
Qed.

Lemma normalizeProbDict_total (d : ProbDict) :
  d = [] \/ ~ fsum (Dict.values d) == 0 ->
  exists out, normalizeProbDict d = Ok out.
Proof.
  intros [->|Hnz]; [now exists []|].
  unfold normalizeProbDict. now apply normalize_loop_total.
Qed.

Lemma normalizeProbDict_Raise_inv (d : ProbDict) (e : exn) :
  normalizeProbDict d = Raise e ->
  e = ZeroDivisionError /\ d <> [] /\ fsum (Dict.values d) == 0.
Proof.
  intros E. destruct d as [|kv d]; [discriminate|].
  destruct (Qeq_dec (fsum (Dict.values (kv :: d))) 0) as [H|H].
  - rewrite normalizeProbDict_zero in E by (discriminate || assumption).
    injection E as <-. repeat split; [discriminate | exact H].
  - destruct (normalizeProbDict_total (or_intror H)) as [out Hout]. congruence.
Qed.

(** X3: over idealised real weights, [normalizeProbDict] meets a zero
    divisor exactly when its input is non-empty and its weights sum to zero
    ([ZeroDivisionError] on Python floats; nan or inf entries and a warning,
    nothing raised, on numpy scalars), and nothing else goes wrong in it.
    On every other input, duplicate-free or not (the empty one, and those
    whose weights do not sum to zero), no divisor is zero and it returns a
    dictionary. *)
Theorem normalizeProbDict_zero_divisor_iff (d : ProbDict) :
  (zero_divisor (normalizeProbDict d)
   <-> d <> [] /\ fsum (Dict.values d) == 0) /\
  (forall e, normalizeProbDict d = Raise e ->
             zero_divisor (normalizeProbDict d)) /\
  ((d = [] \/ ~ fsum (Dict.values d) == 0) ->
   exists out, normalizeProbDict d = Ok out).
Proof.
  unfold zero_divisor. split; [|split].
  - split.
    + intros E. apply normalizeProbDict_Raise_inv in E. tauto.
    + intros [H1 H2]. now apply normalizeProbDict_zero.
  - intros e E. destruct (normalizeProbDict_Raise_inv _ E) as [-> _]. exact E.
  - apply normalizeProbDict_total.
Qed.

Lemma normalizeProbDict_zero_divisor_iff_witness :
  zero_divisor (normalizeProbDict [([0]%Z, 1); ([1]%Z, - (1))]).
Proof.
  apply (proj1 (@normalizeProbDict_zero_divisor_iff
                  [([0]%Z, 1); ([1]%Z, - (1))])).
  split; [discriminate | reflexivity].
Defined.

(* ================================================================== *)
(** ** More on filterProbDict *)

Lemma dict_of_items_loop (l acc : ProbDict) :
  NoDup (Dict.keys acc ++ Dict.keys l) ->
  fold_left (fun acc kv => Dict.set acc (fst kv) (snd kv)) l acc = acc ++ l.
Proof.
  revert acc. induction l as [|[k v] l IH]; intros acc Hnd; simpl.
  - now rewrite app_nil_r.
  - rewrite DictFacts.set_absent.
    + rewrite IH.
      * now rewrite <- app_assoc.
      * unfold Dict.keys in *. rewrite map_app, <- app_assoc. exact Hnd.
    + apply NoDup_remove_2 in Hnd. intros H. apply Hnd. apply in_or_app. now left.
Qed.

Lemma dict_of_items_NoDup (l : ProbDict) :
  NoDup (Dict.keys l) -> dict_of_items l = l.
Proof. intros H. unfold dict_of_items. now rewrite dict_of_items_loop. Qed.

Section FilterFacts.

Variable p : outcome -> bool.

Lemma filter_keys (d : ProbDict) :
  Dict.keys (filter (fun kv => p (fst kv)) d) = filter p (Dict.keys d).
Proof.
  unfold Dict.keys. induction d as [|[k v] d IH]; simpl.
  - reflexivity.
  - destruct (p k); simpl; now rewrite IH.
Qed.

Lemma filter_keys_NoDup (d : ProbDict) :
  NoDup (Dict.keys d) -> NoDup (Dict.keys (filter (fun kv => p (fst kv)) d)).
Proof. intros H. rewrite filter_keys. now apply NoDup_filter. Qed.

Lemma filter_find (d : ProbDict) (k : outcome) :
  Dict.find k (filter (fun kv => p (fst kv)) d)
  = if p k then Dict.find k d else None.
Proof.
  induction d as [|[k' v'] d IH]; simpl.
  - now destruct (p k).
  - destruct (p k') eqn:Hk'; simpl.
    + destruct (outcome_eq_dec k k') as [->|E].
      * now rewrite Hk'.
      * exact IH.
    + destruct (outcome_eq_dec k k') as [->|E].
      * rewrite IH, Hk'. reflexivity.
      * exact IH.
Qed.

Lemma filter_mass (d : ProbDict) :
  fsum (Dict.values (filter (fun kv => p (fst kv)) d))
  == qsum (fun kv => if p (fst kv) then snd kv else 0) d.
Proof.
  induction d as [|[k v] d IH]; simpl.
  - reflexivity.
  - destruct (p k); simpl.
    + change (Dict.values ((k, v) :: filter (fun kv => p (fst kv)) d))
        with (v :: Dict.values (filter (fun kv => p (fst kv)) d)).
      rewrite fsum_cons, IH. reflexivity.
    + rewrite IH. ring.
Qed.

End FilterFacts.

Lemma filterProbDict_unfold (d : ProbDict) (n : Z) :
  NoDup (Dict.keys d) ->
  filterProbDict d n
  = normalizeProbDict (filter (fun kv => (Py.sum (fst kv) =? n)%Z) d).
Proof.
  intros Hnd. unfold filterProbDict. cbn zeta.
  rewrite dict_of_items_NoDup; [reflexivity|].
  now apply filter_keys_NoDup with (p := fun k => (Py.sum k =? n)%Z).
Qed.

Lemma subspace_filter_mass (d : ProbDict) (n : Z) :
  fsum (Dict.values (filter (fun kv => (Py.sum (fst kv) =? n)%Z) d))
  == subspace_mass d n.
Proof. apply filter_mass with (p := fun k => (Py.sum k =? n)%Z). Qed.

(** X4: when the outcomes of total [num_photons] carry a non-zero weight,
    [filterProbDict] returns exactly those outcomes, in their order, each
    with its weight divided by the weight of that subspace; the result sums
    to 1 and holds no outcome of another total. *)
Theorem filterProbDict_subspace (d : ProbDict) (num_photons : Z) :
  NoDup (Dict.keys d) ->
  ~ subspace_mass d num_photons == 0 ->
  exists out : ProbDict,
    filterProbDict d num_photons = Ok out /\
    Dict.keys out = filter (fun k => (Py.sum k =? num_photons)%Z) (Dict.keys d) /\
    (forall k, In k (Dict.keys out) <->
               In k (Dict.keys d) /\ Py.sum k = num_photons) /\
    (forall k v, Py.sum k = num_photons -> Dict.find k d = Some v ->
               exists w, Dict.find k out = Some w /\
                         w == v / subspace_mass d num_photons) /\
    (forall k, Py.sum k <> num_photons -> Dict.find k out = None) /\
    fsum (Dict.values out) == 1.
Proof.
  intros Hnd Hnz.
  set (sub := filter (fun kv => (Py.sum (fst kv) =? num_photons)%Z) d).
  assert (Hm : fsum (Dict.values sub) == subspace_mass d num_photons)
    by apply subspace_filter_mass.
  assert (Hnz' : ~ fsum (Dict.values sub) == 0) by (now rewrite Hm).
  assert (Hk : Dict.keys sub
               = filter (fun k => (Py.sum k =? num_photons)%Z) (Dict.keys d))
    by (apply filter_keys with (p := fun k => (Py.sum k =? num_photons)%Z)).
  assert (Hf : forall k, Dict.find k sub
                         = if (Py.sum k =? num_photons)%Z
                           then Dict.find k d else None)
    by (intros k; apply filter_find with (p := fun k => (Py.sum k =? num_photons)%Z)).
  exists (scaled (fsum (Dict.values sub)) sub).
  split.
  { rewrite filterProbDict_unfold by assumption. fold sub.
    apply normalizeProbDict_ok; [|exact Hnz'].
    rewrite Hk. now apply NoDup_filter. }
  rewrite scaled_keys.
  split; [exact Hk|]. split; [|split; [|split]].
  - intros k. rewrite Hk, filter_In, Z.eqb_eq. tauto.
  - intros k v Hs Hv. rewrite scaled_find, Hf, Hv.
    replace (Py.sum k =? num_photons)%Z with true by (symmetry; now apply Z.eqb_eq).
    cbn [option_map]. eexists. split; [reflexivity|]. now rewrite Hm.
  - intros k Hs. rewrite scaled_find, Hf.
    now replace (Py.sum k =? num_photons)%Z with false
      by (symmetry; now apply Z.eqb_neq).
  - now apply scaled_mass_one.
Qed.

Lemma filterProbDict_subspace_witness :
  exists out : ProbDict,
    filterProbDict [([1; 0]%Z, 1 # 2); ([0; 1]%Z, 1 # 4); ([0; 0]%Z, 1 # 4)] 1
    = Ok out /\
    Dict.keys out = [[1; 0]%Z; [0; 1]%Z] /\
    fsum (Dict.values out) == 1.
Proof.
  destruct (@filterProbDict_subspace
              [([1; 0]%Z, 1 # 2); ([0; 1]%Z, 1 # 4); ([0; 0]%Z, 1 # 4)] 1)
    as [out [E [K [_ [_ [_ S]]]]]].
  - repeat constructor; simpl; intuition discriminate.
  - vm_compute. intros H. discriminate.
  - exists out. repeat split; assumption.
Defined.

Lemma subspace_nonempty (d : ProbDict) (n : Z) :
  filter (fun kv => (Py.sum (fst kv) =? n)%Z) d <> []
  <-> exists k, In k (Dict.keys d) /\ Py.sum k = n.
Proof.
  split.
  - intros H.
    destruct (filter (fun kv => (Py.sum (fst kv) =? n)%Z) d) as [|kv l] eqn:E;
      [congruence|].
    assert (Hin : In kv (filter (fun kv => (Py.sum (fst kv) =? n)%Z) d))
      by (rewrite E; now left).
    apply filter_In in Hin. destruct Hin as [Hin Hs].
    exists (fst kv). split; [now apply in_map | now apply Z.eqb_eq].
  - intros [k [Hk Hs]] E. apply in_map_iff in Hk. destruct Hk as [kv [<- Hin]].
    assert (Hf : In kv (filter (fun kv => (Py.sum (fst kv) =? n)%Z) d)).
    { apply filter_In. split; [exact Hin | now apply Z.eqb_eq]. }
    rewrite E in Hf. destruct Hf.
Qed.

(** X5: over idealised real weights, on a dictionary, [filterProbDict]
    meets a zero divisor exactly when some outcome has the requested total
    and the weights of those outcomes sum to zero ([ZeroDivisionError] on
    Python floats; nan or inf entries and a warning, nothing raised, on
    numpy scalars), and nothing else goes wrong in it.  It returns the
    empty dictionary exactly when no outcome has the requested total. *)
Theorem filterProbDict_zero_divisor_iff (d : ProbDict) (num_photons : Z) :
  NoDup (Dict.keys d) ->
  (zero_divisor (filterProbDict d num_photons)
   <-> (exists k, In k (Dict.keys d) /\ Py.sum k = num_photons) /\
       subspace_mass d num_photons == 0) /\
  (forall e, filterProbDict d num_photons = Raise e ->
             zero_divisor (filterProbDict d num_photons)) /\
  (filterProbDict d num_photons = Ok []
   <-> forall k, In k (Dict.keys d) -> Py.sum k <> num_photons).
Proof.
  intros Hnd. unfold zero_divisor.
  rewrite filterProbDict_unfold by assumption.
  set (sub := filter (fun kv => (Py.sum (fst kv) =? num_photons)%Z) d).
  assert (Hsub : NoDup (Dict.keys sub)).
  { apply filter_keys_NoDup with (p := fun k => (Py.sum k =? num_photons)%Z).
    exact Hnd. }
  split; [|split].
  - rewrite <- subspace_nonempty, <- subspace_filter_mass. fold sub. split.
    + intros E. apply normalizeProbDict_Raise_inv in E. tauto.
    + intros [H1 H2]. now apply normalizeProbDict_zero.
  - intros e E. destruct (normalizeProbDict_Raise_inv _ E) as [-> _]. exact E.
  - split.
    + intros E k Hk Hs.
      apply normalizeProbDict_Ok_inv in E; [|exact Hsub].
      destruct E as [E _].
      assert (Hne : sub <> []) by (apply subspace_nonempty; eauto).
      destruct sub; [congruence | discriminate].
    + intros H. assert (Hs : sub = []).
      { destruct sub as [|kv l] eqn:E; [reflexivity|]. exfalso.
        assert (Hne : filter (fun kv => (Py.sum (fst kv) =? num_photons)%Z) d <> [])
          by (fold sub; rewrite E; discriminate).
        apply subspace_nonempty in Hne. destruct Hne as [k [Hk Hsum]].
        exact (H k Hk Hsum). }
      rewrite Hs. reflexivity.
Qed.

Lemma filterProbDict_zero_divisor_iff_witness :
  zero_divisor
    (filterProbDict [([1; 0]%Z, 0); ([0; 1]%Z, 0); ([0; 0]%Z, 1)] 1).
Proof.
  apply (proj1 (@filterProbDict_zero_divisor_iff
                  [([1; 0]%Z, 0); ([0; 1]%Z, 0); ([0; 0]%Z, 1)] 1
                  ltac:(repeat constructor; simpl; intuition discriminate))).
  split.
  - exists [1; 0]%Z. split; [now left | reflexivity].
  - reflexivity.
Defined.

Lemma filter_scaled (p : outcome -> bool) (total : Q) (d : ProbDict) :
  filter (fun kv => p (fst kv)) (scaled total d)
  = scaled total (filter (fun kv => p (fst kv)) d).
Proof.
  unfold scaled. induction d as [|[k v] d IH]; simpl.
  - reflexivity.
  - destruct (p k); simpl; now rewrite IH.
Qed.

(** normalising does not see a common factor of the weights *)
Lemma normalizeProbDict_scaled (total : Q) (d : ProbDict) :
  NoDup (Dict.keys d) -> ~ total == 0 ->
  (forall e, normalizeProbDict d = Raise e ->
             normalizeProbDict (scaled total d) = Raise e) /\
  (forall out, normalizeProbDict d = Ok out ->
     exists out', normalizeProbDict (scaled total d) = Ok out' /\
                  Dict.keys out' = Dict.keys out /\
                  Dict.equiv out' out).
Proof.
  intros Hnd Ht.
  assert (Hm : fsum (Dict.values (scaled total d)) == fsum (Dict.values d) / total)
    by apply scaled_mass.
  split.
  - intros e E. apply normalizeProbDict_Raise_inv in E.
    destruct E as [-> [Hne Hz]]. apply normalizeProbDict_zero.
    + destruct d; [congruence | discriminate].
    + rewrite Hm, Hz. field. exact Ht.
  - intros out E. destruct d as [|kv d].
    + injection E as <-. exists []. split; [reflexivity|].
      split; [reflexivity|]. intros k. exact I.
    + apply normalizeProbDict_Ok_inv in E; [|assumption].
      destruct E as [-> Hnz]. specialize (Hnz ltac:(discriminate)).
      set (d0 := kv :: d) in *. set (M := fsum (Dict.values d0)) in *.
      assert (Hnz' : ~ fsum (Dict.values (scaled total d0)) == 0).
      { rewrite Hm. intros H. apply Hnz.
        assert (HM : M == total * (M / total)) by (field; exact Ht).
        rewrite HM, H. ring. }
      exists (scaled (fsum (Dict.values (scaled total d0))) (scaled total d0)).
      split.
      { apply normalizeProbDict_ok; [|exact Hnz']. now rewrite scaled_keys. }
      split; [now rewrite !scaled_keys|].
      intros k. rewrite !scaled_find.
      destruct (Dict.find k d0) as [v|]; cbn [option_map Dict.opt_eq]; [|exact I].
      rewrite Hm. field. split; assumption.
Qed.

(** X6: filtering does not depend on a previous normalisation:
    [filterProbDict] applied to what [normalizeProbDict] returned raises
    when it raises on the original, and otherwise returns an equal
    dictionary. *)
Theorem filterProbDict_after_normalize (d dn : ProbDict) (num_photons : Z) :
  NoDup (Dict.keys d) ->
  normalizeProbDict d = Ok dn ->
  (forall e, filterProbDict d num_photons = Raise e ->
             filterProbDict dn num_photons = Raise e) /\
  (forall out, filterProbDict d num_photons = Ok out ->
     exists out', filterProbDict dn num_photons = Ok out' /\
                  Dict.keys out' = Dict.keys out /\
                  Dict.equiv out' out).
Proof.
  intros Hnd E. destruct d as [|kv d].
  - injection E as <-. split.
    + intros e H. exact H.
    + intros out H. exists out. split; [exact H|]. split; [reflexivity|].
      intros k. destruct (Dict.find k out); simpl; [reflexivity | exact I].
  - apply normalizeProbDict_Ok_inv in E; [|assumption].
    destruct E as [-> Hnz]. specialize (Hnz ltac:(discriminate)).
    set (d0 := kv :: d) in *.
    rewrite (@filterProbDict_unfold (scaled (fsum (Dict.values d0)) d0))
      by (now rewrite scaled_keys).
    rewrite (@filterProbDict_unfold d0) by assumption.
    rewrite (@filter_scaled (fun k => (Py.sum k =? num_photons)%Z)).
    apply normalizeProbDict_scaled; [|exact Hnz].
    now apply filter_keys_NoDup with (p := fun k => (Py.sum k =? num_photons)%Z).
Qed.

Lemma filter_all (A : Type) (f : A -> bool) (l : list A) :
  (forall x, In x l -> f x = true) -> filter f l = l.
Proof.
  induction l as [|x l IH]; intros H; simpl.
  - reflexivity.
  - rewrite (H x) by (now left). f_equal. apply IH.
    intros y Hy. apply H. now right.
Qed.

(** X7: filtering twice on the same total changes nothing, and filtering
    the result on another total leaves the empty dictionary. *)
Theorem filterProbDict_idempotent (d out : ProbDict) (num_photons : Z) :
  NoDup (Dict.keys d) ->
  filterProbDict d num_photons = Ok out ->
  (exists out', filterProbDict out num_photons = Ok out' /\
                Dict.keys out' = Dict.keys out /\
                Dict.equiv out' out) /\
  (forall m, m <> num_photons -> filterProbDict out m = Ok []).
Proof.
  intros Hnd E. rewrite filterProbDict_unfold in E by assumption.
  set (sub := filter (fun kv => (Py.sum (fst kv) =? num_photons)%Z) d) in *.
  assert (Hsub : NoDup (Dict.keys sub)).
  { apply filter_keys_NoDup with (p := fun k => (Py.sum k =? num_photons)%Z).
    exact Hnd. }
  assert (Hk : Dict.keys out = Dict.keys sub)
    by (now apply normalizeProbDict_Ok_keys).
  assert (Hall : forall k, In k (Dict.keys out) -> Py.sum k = num_photons).
  { intros k Hin. rewrite Hk in Hin. unfold sub in Hin.
    rewrite (@filter_keys (fun k => (Py.sum k =? num_photons)%Z)) in Hin.
    apply filter_In in Hin. now apply Z.eqb_eq. }
  assert (Hout : NoDup (Dict.keys out)) by (now rewrite Hk).
  split.
  - rewrite filterProbDict_unfold by assumption.
    rewrite filter_all.
    + now apply normalizeProbDict_again with (d := sub).
    + intros kv Hin. apply Z.eqb_eq. apply Hall. now apply in_map.
  - intros m Hm. apply filterProbDict_no_match.
    intros k Hin. rewrite (Hall k Hin). congruence.
Qed.

Lemma sample_dict_NoDup : NoDup (Dict.keys sample_dict).
Proof. repeat constructor; simpl; intuition discriminate. Qed.

Lemma filterProbDict_after_normalize_witness :
  exists dn out out' : ProbDict,
    normalizeProbDict sample_dict = Ok dn /\
    filterProbDict sample_dict 1 = Ok out /\
    filterProbDict dn 1 = Ok out' /\
    Dict.equiv out' out.
Proof.
  destruct (normalizeProbDict sample_dict) as [dn|e] eqn:E;
    [|vm_compute in E; discriminate].
  destruct (filterProbDict sample_dict 1) as [out|e] eqn:F;
    [|vm_compute in F; discriminate].
  destruct (proj2 (@filterProbDict_after_normalize sample_dict dn 1
                     sample_dict_NoDup E) out F) as [out' [F' [_ Heq]]].
  exists dn, out, out'. repeat split; assumption.
Defined.

Lemma filterProbDict_idempotent_witness :
  exists out out' : ProbDict,
    filterProbDict sample_dict 1 = Ok out /\
    filterProbDict out 1 = Ok out' /\
    Dict.equiv out' out /\
    filterProbDict out 0 = Ok [].
Proof.
  destruct (filterProbDict sample_dict 1) as [out|e] eqn:F;
    [|vm_compute in F; discriminate].
  destruct (@filterProbDict_idempotent sample_dict out 1 sample_dict_NoDup F)
    as [[out' [F' [_ Heq]]] Hother].
  exists out, out'. repeat split; try assumption.
  apply Hother. discriminate.
Defined.

(* ================================================================== *)
(** ** More on generate_photon_outcomes *)

Lemma helper_never_returns (N mp : Z) (depth : nat) :
  forall (cur : list Z) (rem cm : Z) (outs : list outcome),
    (N < cm)%Z -> (0 <= mp)%Z -> (0 <= rem)%Z ->
    generate_outcomes_helper depth N mp cur rem cm outs = Raise RecursionError.
Proof.
  induction depth as [|depth IH]; intros cur rem cm outs Hcm Hmp Hrem.
  - reflexivity.
  - cbn [generate_outcomes_helper].
    replace (cm =? N)%Z with false by (symmetry; apply Z.eqb_neq; lia).
    unfold range.
    destruct (Z.to_nat (Z.min (mp + 1) (rem + 1))) as [|k] eqn:E; [lia|].
    cbn [seq map for_each]. cbn zeta.
    rewrite IH by lia. reflexivity.
Qed.

Lemma generate_negative_cutoff (N mp : Z) :
  (mp < 0)%Z -> generate_photon_outcomes N mp = Ok [].
Proof.
  intros Hmp. unfold generate_photon_outcomes. cbn [generate_outcomes_helper].
  destruct (0 =? N)%Z.
  - destruct (Z.geb_spec mp 0); [lia | reflexivity].
  - rewrite range_nonpos by lia. reflexivity.
Qed.

(** X12: at the edges of its domain: with a negative photon budget the
    enumeration is empty, whatever the number of modes; with a negative
    number of modes and a non-negative budget the helper never reaches its
    base case, so that every recursion depth is exceeded. *)
Theorem generate_photon_outcomes_edges (N max_photons : Z) :
  ((max_photons < 0)%Z -> generate_photon_outcomes N max_photons = Ok []) /\
  ((N < 0)%Z -> (0 <= max_photons)%Z ->
   generate_photon_outcomes N max_photons = Raise RecursionError /\
   forall depth : nat,
     generate_outcomes_helper depth N max_photons [] max_photons 0 []
     = Raise RecursionError).
Proof.
  split; [apply generate_negative_cutoff|].
  intros HN Hmp. split.
  - unfold generate_photon_outcomes. apply helper_never_returns; lia.
  - intros depth. apply helper_never_returns; lia.
Qed.

Lemma generate_photon_outcomes_edges_witness :
  generate_photon_outcomes 4 (-1) = Ok [] /\
  generate_photon_outcomes (-2) 2 = Raise RecursionError.
Proof.
  split.
  - apply (proj1 (generate_photon_outcomes_edges 4 (-1))). lia.
  - apply (proj2 (generate_photon_outcomes_edges (-2) 2)); lia.
Defined.

Lemma sorted_app (A : Type) (R : A -> A -> Prop) (l1 l2 : list A) :
  StronglySorted R l1 -> StronglySorted R l2 ->
  (forall x y, In x l1 -> In y l2 -> R x y) ->
  StronglySorted R (l1 ++ l2).
Proof.
  induction 1 as [|x l1 Hs IH Hx]; intros H2 Hall; simpl.
  - exact H2.
  - constructor.
    + apply IH; [exact H2|]. intros a b Ha Hb. apply Hall; [now right | exact Hb].
    + apply Forall_app. split; [exact Hx|].
      apply Forall_forall. intros y Hy. apply Hall; [now left | exact Hy].
Qed.

Lemma sorted_map_cons (p : Z) (l : list outcome) :
  StronglySorted lex_lt l -> StronglySorted lex_lt (map (cons p) l).
Proof.
  induction 1 as [|t l Hs IH Ht]; simpl; constructor.
  - exact IH.
  - apply Forall_map. eapply Forall_impl; [|exact Ht].
    intros u Hu. now apply lex_tail.
Qed.

Lemma sorted_flat_map (f : Z -> list outcome) (ps : list Z) :
  StronglySorted Z.lt ps ->
  (forall p, StronglySorted lex_lt (f p)) ->
  StronglySorted lex_lt (flat_map (fun p => map (cons p) (f p)) ps).
Proof.
  intros Hps Hf. induction Hps as [|p ps Hs IH Hp]; simpl.
  - constructor.
  - apply sorted_app.
    + apply sorted_map_cons, Hf.
    + exact IH.
    + intros x y Hx Hy. apply in_map_iff in Hx. destruct Hx as [t [<- _]].
      apply in_flat_map in Hy. destruct Hy as [q [Hq Hy]].
      apply in_map_iff in Hy. destruct Hy as [u [<- _]].
      apply lex_head. rewrite Forall_forall in Hp. now apply Hp.
Qed.

Lemma seq_sorted (k a : nat) : StronglySorted lt (seq a k).
Proof.
  revert a. induction k as [|k IH]; intros a; simpl; constructor.
  - apply IH.
  - apply Forall_forall. intros x Hx. apply in_seq in Hx. lia.
Qed.

Lemma range_sorted (n : Z) : StronglySorted Z.lt (range n).
Proof.
  unfold range. induction (seq_sorted (Z.to_nat n) 0) as [|x l Hs IH Hx]; simpl.
  - constructor.
  - constructor; [exact IH|]. apply Forall_map.
    eapply Forall_impl; [|exact Hx]. cbn beta. intros; lia.
Qed.

Lemma completions_sorted (mp : Z) (n : nat) :
  forall rem, StronglySorted lex_lt (completions mp n rem).
Proof.
  induction n as [|n IH]; intros rem; simpl.
  - destruct (rem >=? 0)%Z; repeat constructor.
  - apply sorted_flat_map with (f := fun p => completions mp n (rem - p)).
    + apply range_sorted.
    + intros p. apply IH.
Qed.

Lemma completions_head (mp : Z) (n : nat) :
  forall rem, (0 <= mp)%Z -> (0 <= rem)%Z ->
    hd_error (completions mp n rem) = Some (vacuum n).
Proof.
  induction n as [|n IH]; intros rem Hmp Hrem; simpl.
  - destruct (Z.geb_spec rem 0); [reflexivity | lia].
  - unfold range.
    destruct (Z.to_nat (Z.min (mp + 1) (rem + 1))) as [|k] eqn:E; [lia|].
    cbn [seq map flat_map]. rewrite Z.sub_0_r.
    specialize (IH rem Hmp Hrem).
    destruct (completions mp n rem) as [|t l]; [discriminate|].
    injection IH as ->. reflexivity.
Qed.

(** X13: the labels come out in strictly increasing lexicographic order
    (the order of Python tuples), and the first one is the all-zero label:
    this is the order of the keys of every map [computeWalkOutput]
    returns. *)
Theorem generate_photon_outcomes_sorted (N max_photons : Z) :
  (0 <= N)%Z ->
  exists outs : list outcome,
    generate_photon_outcomes N max_photons = Ok outs /\
    StronglySorted lex_lt outs /\
    ((0 <= max_photons)%Z -> hd_error outs = Some (vacuum (Z.to_nat N))).
Proof.
  intros HN. exists (completions max_photons (Z.to_nat N) max_photons).
  split; [now apply generate_photon_outcomes_completions|].
  split; [apply completions_sorted|].
  intros Hmp. now apply completions_head.
Qed.

Lemma generate_photon_outcomes_sorted_witness :
  exists outs : list outcome,
    generate_photon_outcomes 3 2 = Ok outs /\
    StronglySorted lex_lt outs /\
    ((0 <= 2)%Z -> hd_error outs = Some (vacuum (Z.to_nat 3))).
Proof. apply (@generate_photon_outcomes_sorted 3 2). lia. Defined.

(* ================================================================== *)
(** ** More on convolve_probabilities *)

Lemma zip_add_comm (o1 o2 : outcome) : zip_add o1 o2 = zip_add o2 o1.
Proof.
  revert o2. induction o1 as [|a o1 IH]; intros [|b o2]; try reflexivity.
  rewrite !zip_add_cons, IH. f_equal. lia.
Qed.

Lemma qsum_swap (A B : Type) (f : A -> B -> Q) (l1 : list A) (l2 : list B) :
  qsum (fun x => qsum (fun y => f x y) l2) l1
  == qsum (fun y => qsum (fun x => f x y) l1) l2.
Proof.
  induction l1 as [|x l1 IH].
  - rewrite qsum_nil. symmetry. apply qsum_zero. intros y _.
    rewrite qsum_nil. reflexivity.
  - rewrite qsum_cons, IH.
    rewrite <- qsum_plus. apply qsum_ext. intros y _. now rewrite qsum_cons.
Qed.

Lemma pair_term_comm (s : outcome) (kv1 kv2 : outcome * Q) :
  pair_term s kv1 kv2 == pair_term s kv2 kv1.
Proof.
  unfold pair_term. rewrite (zip_add_comm (fst kv2) (fst kv1)).
  destruct (outcome_eq_dec _ s); ring.
Qed.

Lemma conv_weight_comm (d1 d2 : ProbDict) (s : outcome) :
  conv_weight d1 d2 s == conv_weight d2 d1 s.
Proof.
  unfold conv_weight. rewrite qsum_swap.
  apply qsum_ext. intros kv2 _. apply qsum_ext. intros kv1 _.
  apply pair_term_comm.
Qed.

Lemma convolve_keys_comm (d1 d2 : ProbDict) (mp : Z) (s : outcome) :
  In s (Dict.keys (convolve_probabilities d1 d2 mp))
  <-> In s (Dict.keys (convolve_probabilities d2 d1 mp)).
Proof.
  rewrite !convolve_keys. split;
    intros [Hs [kv1 [kv2 [H1 [H2 E]]]]]; (split; [exact Hs|]);
    exists kv2, kv1; rewrite zip_add_comm; auto.
Qed.

(** two dictionaries with the same keys and the same lookups are equal *)
Lemma equiv_by_get (c1 c2 : ProbDict) :
  (forall s, In s (Dict.keys c1) <-> In s (Dict.keys c2)) ->
  (forall s, In s (Dict.keys c1) -> Dict.get c1 s 0 == Dict.get c2 s 0) ->
  Dict.equiv c1 c2.
Proof.
  intros Hk Hg s. specialize (Hk s). specialize (Hg s).
  unfold Dict.get in Hg.
  destruct (Dict.find s c1) as [v1|] eqn:E1.
  - assert (H1 : In s (Dict.keys c1)) by (apply DictFacts.find_In_keys; eauto).
    pose proof (proj1 Hk H1) as H2. apply DictFacts.find_In_keys in H2.
    destruct H2 as [v2 E2]. rewrite E2 in *. simpl. now apply Hg.
  - apply DictFacts.find_None_iff in E1.
    assert (H2 : ~ In s (Dict.keys c2)) by tauto.
    apply DictFacts.find_None_iff in H2. now rewrite H2.
Qed.

Lemma convolve_comm (d1 d2 : ProbDict) (mp : Z) :
  Dict.equiv (convolve_probabilities d1 d2 mp) (convolve_probabilities d2 d1 mp).
Proof.
  apply equiv_by_get.
  - intros s. apply convolve_keys_comm.
  - intros s Hs. apply convolve_keys in Hs. destruct Hs as [Hs _].
    rewrite !convolve_get_kept by assumption. apply conv_weight_comm.
Qed.

(** X8: the convolution does not depend on the order of its two
    arguments: both orders give the same keys with the same weights. *)
Theorem convolve_probabilities_commutative (d1 d2 : ProbDict) (max_photons : Z) :
  Dict.equiv (convolve_probabilities d1 d2 max_photons)
             (convolve_probabilities d2 d1 max_photons) /\
  fsum (Dict.values (convolve_probabilities d1 d2 max_photons))
  == fsum (Dict.values (convolve_probabilities d2 d1 max_photons)).
Proof.
  split; [apply convolve_comm|].
  rewrite !convolve_mass. unfold kept_mass. rewrite qsum_swap.
  apply qsum_ext. intros kv2 _. apply qsum_ext. intros kv1 _.
  unfold kept_term. rewrite (zip_add_comm (fst kv1) (fst kv2)).
  destruct (_ <=? _)%Z; ring.
Qed.

Lemma qsum_select (d : ProbDict) (s : outcome) :
  NoDup (Dict.keys d) ->
  qsum (fun kv => if outcome_eq_dec (fst kv) s then snd kv else 0) d
  == Dict.get d s 0.
Proof.
  unfold Dict.get. induction d as [|[k v] d IH]; intros Hnd.
  - reflexivity.
  - inversion Hnd as [|? ? Hni Hnd']; subst.
    rewrite qsum_cons. cbn [fst snd Dict.find].
    destruct (outcome_eq_dec k s) as [->|E].
    + destruct (outcome_eq_dec s s); [|congruence].
      rewrite qsum_zero; [ring|].
      intros [k' v'] Hin. cbn [fst snd].
      destruct (outcome_eq_dec k' s) as [->|]; [|reflexivity].
      exfalso. apply Hni. apply in_map_iff. exists (s, v'). auto.
    + destruct (outcome_eq_dec s k); [congruence|].
      rewrite IH by assumption. ring.
Qed.

(** X9: the distribution that gives weight 1 to the all-zero outcome is a
    unit of the convolution, up to the cutoff: convolving a dictionary
    with it keeps exactly the outcomes of total at most [max_photons],
    with their weights. *)
Theorem convolve_probabilities_vacuum_unit (n : nat) (d : ProbDict)
  (max_photons : Z) :
  NoDup (Dict.keys d) ->
  same_length n d ->
  Dict.equiv (convolve_probabilities d [(vacuum n, 1)] max_photons)
             (filter (fun kv => (Py.sum (fst kv) <=? max_photons)%Z) d) /\
  Dict.equiv (convolve_probabilities [(vacuum n, 1)] d max_photons)
             (filter (fun kv => (Py.sum (fst kv) <=? max_photons)%Z) d) /\
  ((forall k, In k (Dict.keys d) -> (Py.sum k <= max_photons)%Z) ->
   Dict.equiv (convolve_probabilities d [(vacuum n, 1)] max_photons) d).
Proof.
  intros Hnd Hlen.
  assert (Hzip : forall kv, In kv d -> zip_add (fst kv) (vacuum n) = fst kv).
  { intros kv Hin. apply zip_add_vacuum_n. now apply (@same_length_In n d kv). }
  assert (Hkeys : forall s,
             In s (Dict.keys (convolve_probabilities d [(vacuum n, 1)] max_photons))
             <-> In s (Dict.keys d) /\ (Py.sum s <= max_photons)%Z).
  { intros s. rewrite convolve_keys. split.
    - intros [Hs [kv1 [kv2 [H1 [[<-|[]] E]]]]]. cbn [fst] in E.
      rewrite Hzip in E by assumption. subst s.
      split; [now apply in_map | exact Hs].
    - intros [Hin Hs]. split; [exact Hs|].
      apply in_map_iff in Hin. destruct Hin as [kv [<- Hin]].
      exists kv, (vacuum n, 1). split; [exact Hin|]. split; [now left|].
      cbn [fst]. now apply Hzip. }
  assert (Hget : forall s, (Py.sum s <= max_photons)%Z ->
             Dict.get (convolve_probabilities d [(vacuum n, 1)] max_photons) s 0
             == Dict.get d s 0).
  { intros s Hs. rewrite convolve_get_kept by assumption.
    rewrite <- qsum_select by assumption. unfold conv_weight.
    apply qsum_ext. intros kv Hin. rewrite qsum_cons, qsum_nil.
    unfold pair_term. cbn [fst snd]. rewrite Hzip by assumption.
    destruct (outcome_eq_dec (fst kv) s); ring. }
  assert (Hfilter :
    Dict.equiv (convolve_probabilities d [(vacuum n, 1)] max_photons)
               (filter (fun kv => (Py.sum (fst kv) <=? max_photons)%Z) d)).
  { apply equiv_by_get.
    - intros s. rewrite Hkeys.
      rewrite (@filter_keys (fun k => (Py.sum k <=? max_photons)%Z)).
      rewrite filter_In, Z.leb_le. tauto.
    - intros s Hs. apply Hkeys in Hs. destruct Hs as [_ Hs].
      rewrite Hget by assumption. unfold Dict.get.
      rewrite (@filter_find (fun k => (Py.sum k <=? max_photons)%Z)).
      replace (Py.sum s <=? max_photons)%Z with true
        by (symmetry; now apply Z.leb_le).
      reflexivity. }
  split; [exact Hfilter|]. split.
  - intros s. pose proof (convolve_comm [(vacuum n, 1)] d max_photons s) as H1.
    pose proof (Hfilter s) as H2.
    destruct (Dict.find s (convolve_probabilities [(vacuum n, 1)] d max_photons)),
             (Dict.find s (convolve_probabilities d [(vacuum n, 1)] max_photons)),
             (Dict.find s (filter (fun kv => (Py.sum (fst kv) <=? max_photons)%Z) d));
      simpl in *; try tauto. now rewrite H1.
  - intros Hall. rewrite filter_all in Hfilter; [exact Hfilter|].
    intros kv Hin. apply Z.leb_le. apply Hall. now apply in_map.
Qed.

Lemma convolve_probabilities_vacuum_unit_witness :
  Dict.equiv (convolve_probabilities sample_dict [(vacuum 2, 1)] 1) sample_dict.
Proof.
  refine (proj2 (proj2 (@convolve_probabilities_vacuum_unit 2 sample_dict 1
                          sample_dict_NoDup _)) _).
  - repeat constructor.
  - intros k Hin. simpl in Hin.
    destruct Hin as [<-|[<-|[<-|[]]]]; vm_compute; discriminate.
Defined.

Lemma qsum_le (A : Type) (f g : A -> Q) (l : list A) :
  (forall x, In x l -> f x <= g x) -> qsum f l <= qsum g l.
Proof.
  induction l as [|x l IH]; intros H.
  - rewrite !qsum_nil. lra.
  - rewrite !qsum_cons.
    assert (f x <= g x) by (apply H; now left).
    assert (qsum f l <= qsum g l) by (apply IH; intros y Hy; apply H; now right).
    lra.
Qed.

Lemma qsum_values (d : ProbDict) : qsum (fun kv => snd kv) d == fsum (Dict.values d).
Proof. unfold Dict.values. now rewrite fsum_map_qsum. Qed.

Lemma product_mass (d1 d2 : ProbDict) :
  qsum (fun kv1 => qsum (fun kv2 => snd kv1 * snd kv2) d2) d1
  == fsum (Dict.values d1) * fsum (Dict.values d2).
Proof.
  rewrite <- !qsum_values.
  set (Q2 := qsum (fun kv : outcome * Q => snd kv) d2).
  transitivity (qsum (fun kv1 : outcome * Q => Q2 * snd kv1) d1).
  - apply qsum_ext. intros kv1 _.
    rewrite (qsum_scale (snd kv1) (fun kv : outcome * Q => snd kv) d2).
    fold Q2. ring.
  - rewrite (qsum_scale Q2 (fun kv : outcome * Q => snd kv) d1). ring.
Qed.

Lemma In_values_nonneg (d : ProbDict) (kv : outcome * Q) :
  nonneg_weights d -> In kv d -> 0 <= snd kv.
Proof.
  unfold nonneg_weights. rewrite Forall_forall. intros H Hin.
  apply H. unfold Dict.values. now apply in_map.
Qed.

Lemma get_nonneg (d : ProbDict) (k : outcome) :
  nonneg_weights d -> 0 <= Dict.get d k 0.
Proof.
  intros H. unfold Dict.get. destruct (Dict.find k d) as [v|] eqn:E; [|lra].
  apply DictFacts.find_Some_In in E. exact (@In_values_nonneg d (k, v) H E).
Qed.

Lemma set_nonneg (d : ProbDict) (k : outcome) (v : Q) :
  nonneg_weights d -> 0 <= v -> nonneg_weights (Dict.set d k v).
Proof.
  unfold nonneg_weights, Dict.values. intros H Hv.
  induction d as [|[k' v'] d IH]; simpl.
  - repeat constructor. exact Hv.
  - inversion H as [|? ? Hv' H']; subst.
    destruct (outcome_eq_dec k k'); simpl; constructor; auto.
Qed.

Lemma accumulate_nonneg (acc : ProbDict) (o : outcome) (v : Q) :
  nonneg_weights acc -> 0 <= v -> nonneg_weights (accumulate acc o v).
Proof.
  intros H Hv. unfold accumulate. apply set_nonneg; [exact H|].
  pose proof (@get_nonneg acc o H). lra.
Qed.

Lemma convolve_nonneg (d1 d2 : ProbDict) (mp : Z) :
  nonneg_weights d1 -> nonneg_weights d2 ->
  nonneg_weights (convolve_probabilities d1 d2 mp).
Proof.
  intros H1 H2. rewrite convolve_loops.
  assert (Hgen : forall l1 acc, (forall kv, In kv l1 -> In kv d1) ->
            nonneg_weights acc ->
            nonneg_weights
              (fold_left (fun acc1 kv1 => fold_left (conv_inner mp kv1) d2 acc1)
                         l1 acc)).
  { induction l1 as [|kv1 l1 IH]; intros acc Hsub Hacc; cbn [fold_left].
    - exact Hacc.
    - apply IH; [intros kv Hin; apply Hsub; now right|].
      assert (Hv1 : 0 <= snd kv1)
        by (apply (@In_values_nonneg d1 kv1 H1); apply Hsub; now left).
      clear IH Hsub.
      assert (Hin2 : forall l2 acc', (forall kv, In kv l2 -> In kv d2) ->
                nonneg_weights acc' ->
                nonneg_weights (fold_left (conv_inner mp kv1) l2 acc')).
      { induction l2 as [|kv2 l2 IH2]; intros acc' Hsub2 Hacc'; cbn [fold_left].
        - exact Hacc'.
        - apply IH2; [intros kv Hin; apply Hsub2; now right|].
          unfold conv_inner. cbn zeta. destruct (_ <=? _)%Z; [|exact Hacc'].
          apply accumulate_nonneg; [exact Hacc'|].
          assert (Hv2 : 0 <= snd kv2)
            by (apply (@In_values_nonneg d2 kv2 H2); apply Hsub2; now left).
          nra. }
      apply Hin2; [auto | exact Hacc]. }
  apply Hgen; [auto | constructor].
Qed.

Lemma kept_mass_le (d1 d2 : ProbDict) (mp : Z) :
  nonneg_weights d1 -> nonneg_weights d2 ->
  kept_mass d1 d2 mp <= fsum (Dict.values d1) * fsum (Dict.values d2).
Proof.
  intros H1 H2. rewrite <- product_mass. unfold kept_mass.
  apply qsum_le. intros kv1 Hin1. apply qsum_le. intros kv2 Hin2.
  unfold kept_term. pose proof (@In_values_nonneg d1 kv1 H1 Hin1).
  pose proof (@In_values_nonneg d2 kv2 H2 Hin2).
  destruct (_ <=? _)%Z; nra.
Qed.

Lemma kept_mass_all (d1 d2 : ProbDict) (mp : Z) :
  (forall kv1 kv2, In kv1 d1 -> In kv2 d2 ->
                   (Py.sum (zip_add (fst kv1) (fst kv2)) <= mp)%Z) ->
  kept_mass d1 d2 mp == fsum (Dict.values d1) * fsum (Dict.values d2).
Proof.
  intros Hall. rewrite <- product_mass. unfold kept_mass.
  apply qsum_ext. intros kv1 Hin1. apply qsum_ext. intros kv2 Hin2.
  unfold kept_term.
  now replace (_ <=? _)%Z with true by (symmetry; apply Z.leb_le; auto).
Qed.

(** X10: the convolution of two dictionaries of non-negative weights has
    non-negative weights and never more mass than the product of their
    masses: two sub-normalised distributions give a sub-normalised one. *)
Theorem convolve_probabilities_submass (d1 d2 : ProbDict) (max_photons : Z) :
  nonneg_weights d1 -> nonneg_weights d2 ->
  let c := convolve_probabilities d1 d2 max_photons in
  nonneg_weights c /\
  fsum (Dict.values c) <= fsum (Dict.values d1) * fsum (Dict.values d2) /\
  (fsum (Dict.values d1) <= 1 -> fsum (Dict.values d2) <= 1 ->
   fsum (Dict.values c) <= 1).
Proof.
  intros H1 H2 c.
  assert (Hle : fsum (Dict.values c)
                <= fsum (Dict.values d1) * fsum (Dict.values d2)).
  { unfold c. rewrite convolve_mass. now apply kept_mass_le. }
  split; [now apply convolve_nonneg|]. split; [exact Hle|].
  intros L1 L2. pose proof (fsum_nonneg H1). pose proof (fsum_nonneg H2). nra.
Qed.

Lemma half_half_nonneg : nonneg_weights half_half.
Proof. repeat constructor; discriminate. Qed.

Lemma convolve_probabilities_submass_witness :
  fsum (Dict.values (convolve_probabilities half_half half_half 1))
  <= fsum (Dict.values half_half) * fsum (Dict.values half_half).
Proof.
  exact (proj1 (proj2 (@convolve_probabilities_submass half_half half_half 1
                         half_half_nonneg half_half_nonneg))).
Defined.

(** X11: when no pair of outcomes exceeds the cutoff, nothing is
    discarded: the mass of the convolution is the product of the two
    masses. *)
Theorem convolve_probabilities_mass_product (d1 d2 : ProbDict) (max_photons : Z) :
  (forall k1 k2, In k1 (Dict.keys d1) -> In k2 (Dict.keys d2) ->
                 (Py.sum (zip_add k1 k2) <= max_photons)%Z) ->
  fsum (Dict.values (convolve_probabilities d1 d2 max_photons))
  == fsum (Dict.values d1) * fsum (Dict.values d2).
Proof.
  intros Hall. rewrite convolve_mass. apply kept_mass_all.
  intros kv1 kv2 H1 H2. apply Hall; now apply in_map.
Qed.

Lemma convolve_probabilities_mass_product_witness :
  fsum (Dict.values (convolve_probabilities half_half half_half 2))
  == fsum (Dict.values half_half) * fsum (Dict.values half_half).
Proof.
  apply convolve_probabilities_mass_product.
  intros k1 k2 H1 H2. simpl in H1, H2.
  destruct H1 as [<-|[<-|[]]]; destruct H2 as [<-|[<-|[]]];
    vm_compute; discriminate.
Defined.

(* ================================================================== *)
(** ** More on the circuit *)

Section CircuitModes.

Variables (n : nat) (gamma : Q).

Let top : Z := (2 * Z.of_nat n + 2)%Z.

Lemma step_ops_placed (s : nat) :
  (s <= n)%nat -> Forall (well_placed top) (step_ops gamma s).
Proof.
  intros Hs. unfold step_ops, odd_step_ops, even_step_ops.
  destruct (Nat.odd s).
  - apply Forall_flat_map. apply Forall_forall. intros k Hk.
    apply countdown_In in Hk.
    repeat (apply Forall_cons;
            [unfold basis_change, inverse_basis_change, time_shift,
               well_placed, top; lia|]).
    apply Forall_nil.
  - apply Forall_map. apply Forall_forall. intros k Hk.
    apply countdown_In in Hk. unfold time_shift, well_placed, top. lia.
Qed.

Lemma walk_ops_placed : Forall (well_placed top) (walk_ops gamma n).
Proof.
  unfold walk_ops. apply Forall_flat_map. apply Forall_forall.
  intros s Hs. apply in_seq in Hs. apply step_ops_placed. lia.
Qed.

Lemma terminal_ops_placed : Forall (well_placed top) (terminal_ops n).
Proof.
  unfold terminal_ops. destruct (Nat.odd n); [|constructor].
  apply Forall_map. apply Forall_forall. intros k Hk. apply in_seq in Hk.
  unfold basis_change, well_placed, top. lia.
Qed.

Lemma closing_ops_placed (eta n_noise : Q) :
  Forall (well_placed top) (closing_ops eta n_noise n).
Proof.
  unfold closing_ops. apply Forall_map. apply Forall_forall.
  intros i Hi. apply in_seq in Hi. unfold well_placed, top. lia.
Qed.

Lemma no_loss_before_closing (r alphaSq etaFock : Q) :
  Forall (fun op => is_thermal_loss op = false)
         (init_ops r alphaSq etaFock ++ walk_ops gamma n ++ terminal_ops n).
Proof.
  apply Forall_app. split; [repeat constructor|].
  apply Forall_app. split.
  - unfold walk_ops. apply Forall_flat_map. apply Forall_forall. intros s _.
    unfold step_ops, odd_step_ops, even_step_ops. destruct (Nat.odd s).
    + apply Forall_flat_map. apply Forall_forall. intros k _.
      repeat constructor.
    + apply Forall_map. apply Forall_forall. intros k _. reflexivity.
  - unfold terminal_ops. destruct (Nat.odd n); [|constructor].
    apply Forall_map. apply Forall_forall. intros k _. reflexivity.
Qed.

End CircuitModes.

(** X14: in the circuit of a walk of [nSteps >= 0] steps every operation
    acts inside the register: the squeezer on modes 0 and 1, the photon
    loss on mode 1, the coherent state on mode 2, every beamsplitter on two
    distinct detection modes 1 <= a < b <= 2 nSteps + 2 (never on the herald
    mode 0); and the thermal losses are exactly the last operations, one
    per mode 0..2 nSteps + 2 in order, after every coupling. *)
Theorem walk_circuit_modes (nSteps : Z) (r alphaSq eta gamma n_noise etaFock : Q) :
  (0 <= nSteps)%Z ->
  exists couplings : list Op,
    build_circuit nSteps r alphaSq eta gamma n_noise etaFock
    = Ok (couplings
          ++ map (fun m => ThermalLossChannel (Lit eta) (Lit n_noise) m)
                 (range (2 * nSteps + 3))) /\
    Forall (well_placed (2 * nSteps + 2)) couplings /\
    Forall (fun op => is_thermal_loss op = false) couplings.
Proof.
  intros HN.
  exists (init_ops r alphaSq etaFock ++ walk_ops gamma (Z.to_nat nSteps)
          ++ terminal_ops (Z.to_nat nSteps)).
  split; [|split].
  - rewrite <- (Z2Nat.id nSteps) at 1 by assumption.
    rewrite build_circuit_ok. unfold walk_topology, closing_ops.
    rewrite <- !app_assoc. do 4 f_equal.
    unfold range. rewrite map_map.
    replace (Z.to_nat (2 * nSteps + 3)) with (2 * Z.to_nat nSteps + 3)%nat by lia.
    reflexivity.
  - replace (2 * nSteps + 2)%Z with (2 * Z.of_nat (Z.to_nat nSteps) + 2)%Z by lia.
    apply Forall_app. split; [repeat constructor; simpl; lia|].
    apply Forall_app. split; [apply walk_ops_placed | apply terminal_ops_placed].
  - apply no_loss_before_closing.
Qed.

Lemma walk_circuit_modes_witness :
  exists couplings : list Op,
    build_circuit 3 (7 # 100) (8 # 100) (7 # 100) 0 (5 # 1000000) 1
    = Ok (couplings
          ++ map (fun m => ThermalLossChannel (Lit (7 # 100)) (Lit (5 # 1000000)) m)
                 (range (2 * 3 + 3))) /\
    Forall (well_placed (2 * 3 + 2)) couplings /\
    Forall (fun op => is_thermal_loss op = false) couplings.
Proof.
  apply (@walk_circuit_modes 3 (7 # 100) (8 # 100) (7 # 100) 0 (5 # 1000000) 1).
  lia.
Defined.

(* ================================================================== *)
(** ** More on traceOverHV *)

Lemma traceOverHV_unfold (d : ProbDict) :
  traceOverHV d
  = (H <- normalizeProbDict (marginal_loop (slice_step 0 2) d []) ;;
     V <- normalizeProbDict (marginal_loop (slice_step 1 2) d []) ;;
     Ok (H, V)).
Proof. unfold traceOverHV. now rewrite traceOverHV_loop_marginals. Qed.

Lemma marginal_total (proj : outcome -> outcome) (d : ProbDict) :
  fsum (Dict.values (marginal_loop proj d [])) == fsum (Dict.values d).
Proof. rewrite marginal_mass. simpl. rewrite fsum_nil. ring. Qed.

Lemma marginal_nonempty (proj : outcome -> outcome) (d : ProbDict) :
  d <> [] -> marginal_loop proj d [] <> [].
Proof.
  intros Hne E. destruct d as [|kv d]; [congruence|].
  assert (Hin : In (proj (fst kv)) (Dict.keys (marginal_loop proj (kv :: d) []))).
  { apply marginal_keys. right. exists (fst kv). split; [now left | reflexivity]. }
  rewrite E in Hin. destruct Hin.
Qed.

Lemma marginal_NoDup_nil (proj : outcome -> outcome) (d : ProbDict) :
  NoDup (Dict.keys (marginal_loop proj d [])).
Proof. apply marginal_NoDup. constructor. Qed.

Lemma traceOverHV_zero (d : ProbDict) :
  d <> [] -> fsum (Dict.values d) == 0 ->
  traceOverHV d = Raise ZeroDivisionError.
Proof.
  intros Hne Hz. rewrite traceOverHV_unfold.
  rewrite normalizeProbDict_zero; [reflexivity | |].
  - now apply marginal_nonempty.
  - now rewrite marginal_total.
Qed.

Lemma traceOverHV_nonzero (d : ProbDict) :
  ~ fsum (Dict.values d) == 0 ->
  traceOverHV d
  = Ok (scaled (fsum (Dict.values (marginal_loop (slice_step 0 2) d [])))
               (marginal_loop (slice_step 0 2) d []),
        scaled (fsum (Dict.values (marginal_loop (slice_step 1 2) d [])))
               (marginal_loop (slice_step 1 2) d [])).
Proof.
  intros Hnz. rewrite traceOverHV_unfold.
  rewrite !normalizeProbDict_ok; try apply marginal_NoDup_nil;
    try (now rewrite marginal_total).
  reflexivity.
Qed.

(** X15: over idealised real weights, [traceOverHV] meets a zero divisor
    exactly when its input is non-empty and its weights sum to zero
    ([ZeroDivisionError] on Python floats; nan or inf entries and a warning,
    nothing raised, on numpy scalars), and nothing else goes wrong in it.
    The empty dictionary gives two empty dictionaries, and any non-zero
    total, of either sign, gives two dictionaries. *)
Theorem traceOverHV_zero_divisor_iff (d : ProbDict) :
  (zero_divisor (traceOverHV d)
   <-> d <> [] /\ fsum (Dict.values d) == 0) /\
  (forall e, traceOverHV d = Raise e -> zero_divisor (traceOverHV d)) /\
  (d = [] -> traceOverHV d = Ok ([], [])) /\
  (~ fsum (Dict.values d) == 0 -> exists H V, traceOverHV d = Ok (H, V)).
Proof.
  unfold zero_divisor.
  assert (Hinv : forall e, traceOverHV d = Raise e ->
                           e = ZeroDivisionError /\ d <> [] /\
                           fsum (Dict.values d) == 0).
  { intros e E. destruct d as [|kv d]; [discriminate|].
    destruct (Qeq_dec (fsum (Dict.values (kv :: d))) 0) as [Hz|Hnz].
    - rewrite traceOverHV_zero in E by (discriminate || assumption).
      injection E as <-. repeat split; [discriminate | exact Hz].
    - rewrite traceOverHV_nonzero in E by assumption. discriminate. }
  split; [|split; [|split]].
  - split.
    + intros E. apply Hinv in E. tauto.
    + intros [H1 H2]. now apply traceOverHV_zero.
  - intros e E. destruct (Hinv _ E) as [-> _]. exact E.
  - intros ->. reflexivity.
  - intros Hnz. rewrite traceOverHV_nonzero by assumption. eauto.
Qed.

Lemma traceOverHV_zero_divisor_iff_witness :
  zero_divisor (traceOverHV [([1; 0]%Z, 1); ([0; 1]%Z, - (1))]).
Proof.
  apply (proj1 (@traceOverHV_zero_divisor_iff
                  [([1; 0]%Z, 1); ([0; 1]%Z, - (1))])).
  split; [discriminate | reflexivity].
Defined.

Lemma marginal_weight_scaled (proj : outcome -> outcome) (total : Q)
  (d : ProbDict) (h : outcome) :
  marginal_weight proj (scaled total d) h == marginal_weight proj d h / total.
Proof.
  unfold marginal_weight, scaled. induction d as [|[k v] d IH].
  - simpl. unfold Qdiv. ring.
  - cbn [map]. rewrite !qsum_cons, IH. cbn [fst snd].
    destruct (outcome_eq_dec (proj k) h); unfold Qdiv; ring.
Qed.

(** the normalised marginal: keys and lookups *)
Lemma normalised_marginal (proj : outcome -> outcome) (d Hn : ProbDict) :
  d <> [] ->
  normalizeProbDict (marginal_loop proj d []) = Ok Hn ->
  ~ fsum (Dict.values d) == 0 /\
  (forall h, In h (Dict.keys Hn) <-> exists o, In o (Dict.keys d) /\ proj o = h) /\
  (forall h, Dict.get Hn h 0 == marginal_weight proj d h / fsum (Dict.values d)) /\
  NoDup (Dict.keys Hn).
Proof.
  intros Hne E.
  apply normalizeProbDict_Ok_inv in E; [|apply marginal_NoDup_nil].
  destruct E as [-> Hnz].
  specialize (Hnz (marginal_nonempty proj Hne)).
  rewrite marginal_total in Hnz.
  split; [exact Hnz|]. rewrite scaled_keys. split; [|split].
  - intros h. rewrite marginal_keys. simpl. tauto.
  - intros h. rewrite get_scaled, marginal_total, marginal_get.
    unfold Dict.get at 1. simpl. unfold Qdiv. ring.
  - apply marginal_NoDup_nil.
Qed.

Lemma scaled_nil_inv (total : Q) (d : ProbDict) : scaled total d = [] -> d = [].
Proof. destruct d; [reflexivity | discriminate]. Qed.

Lemma normalised_marginal_scaled (proj : outcome -> outcome) (total : Q)
  (d Hn : ProbDict) :
  ~ total == 0 ->
  normalizeProbDict (marginal_loop proj d []) = Ok Hn ->
  exists Hn', normalizeProbDict (marginal_loop proj (scaled total d) []) = Ok Hn' /\
              Dict.equiv Hn' Hn.
Proof.
  intros Ht E. destruct d as [|kv d].
  - exists Hn. split; [exact E|]. intros k.
    destruct (Dict.find k Hn); simpl; [reflexivity | exact I].
  - pose proof (@normalised_marginal proj (kv :: d) Hn ltac:(discriminate) E)
      as [Hnz [Hk [Hg _]]].
    set (d0 := kv :: d) in *.
    assert (Hnz' : ~ fsum (Dict.values (scaled total d0)) == 0).
    { rewrite scaled_mass. intros H. apply Hnz.
      assert (HM : fsum (Dict.values d0) == total * (fsum (Dict.values d0) / total))
        by (field; exact Ht).
      rewrite HM, H. ring. }
    assert (E' : normalizeProbDict (marginal_loop proj (scaled total d0) [])
                 = Ok (scaled (fsum (Dict.values
                                       (marginal_loop proj (scaled total d0) [])))
                              (marginal_loop proj (scaled total d0) []))).
    { apply normalizeProbDict_ok; [apply marginal_NoDup_nil|].
      now rewrite marginal_total. }
    eexists. split; [exact E'|].
    pose proof (@normalised_marginal proj (scaled total d0) _ ltac:(discriminate) E')
      as [_ [Hk' [Hg' _]]].
    apply equiv_by_get.
    + intros s. rewrite Hk', Hk, scaled_keys. tauto.
    + intros s _. rewrite Hg', Hg, marginal_weight_scaled, scaled_mass.
      field. split; assumption.
Qed.

(** X16: [traceOverHV] does not see a previous normalisation: applied to
    what [normalizeProbDict] returned, it gives the same two dictionaries
    as on the original. *)
Theorem traceOverHV_after_normalize (d dn H V : ProbDict) :
  NoDup (Dict.keys d) ->
  normalizeProbDict d = Ok dn ->
  traceOverHV d = Ok (H, V) ->
  exists H' V' : ProbDict,
    traceOverHV dn = Ok (H', V') /\ Dict.equiv H' H /\ Dict.equiv V' V.
Proof.
  intros Hnd En Et. destruct d as [|kv d].
  - injection En as <-. exists H, V. split; [exact Et|].
    split; intros k.
    + destruct (Dict.find k H); simpl; [reflexivity | exact I].
    + destruct (Dict.find k V); simpl; [reflexivity | exact I].
  - apply normalizeProbDict_Ok_inv in En; [|assumption].
    destruct En as [-> Hnz]. specialize (Hnz ltac:(discriminate)).
    rewrite traceOverHV_unfold in Et.
    destruct (normalizeProbDict (marginal_loop (slice_step 0 2) (kv :: d) []))
      as [H0|] eqn:EH; [|discriminate].
    destruct (normalizeProbDict (marginal_loop (slice_step 1 2) (kv :: d) []))
      as [V0|] eqn:EV; [|discriminate].
    cbn [Py.bind] in Et. injection Et as <- <-.
    destruct (@normalised_marginal_scaled _ _ _ _ Hnz EH) as [H' [EH' HeqH]].
    destruct (@normalised_marginal_scaled _ _ _ _ Hnz EV) as [V' [EV' HeqV]].
    exists H', V'. rewrite traceOverHV_unfold, EH', EV'. cbn [Py.bind].
    repeat split; assumption.
Qed.

Lemma traceOverHV_after_normalize_witness :
  exists dn H V H' V' : ProbDict,
    normalizeProbDict sample_dict = Ok dn /\
    traceOverHV sample_dict = Ok (H, V) /\
    traceOverHV dn = Ok (H', V') /\ Dict.equiv H' H /\ Dict.equiv V' V.
Proof.
  destruct (normalizeProbDict sample_dict) as [dn|e] eqn:E;
    [|vm_compute in E; discriminate].
  destruct (traceOverHV sample_dict) as [[H V]|e] eqn:T;
    [|vm_compute in T; discriminate].
  destruct (@traceOverHV_after_normalize sample_dict dn H V sample_dict_NoDup E T)
    as [H' [V' [T' [HH HV]]]].
  exists dn, H, V, H', V'. repeat split; assumption.
Defined.

(* ================================================================== *)
(** ** Tracing, then filtering *)

Lemma subspace_mass_cons (kv : outcome * Q) (d : ProbDict) (n : Z) :
  subspace_mass (kv :: d) n
  = (if (Py.sum (fst kv) =? n)%Z then snd kv else 0) + subspace_mass d n.
Proof. reflexivity. Qed.

Lemma subspace_mass_accumulate (acc : ProbDict) (k : outcome) (v : Q) (n : Z) :
  subspace_mass (accumulate acc k v) n
  == subspace_mass acc n + (if (Py.sum k =? n)%Z then v else 0).
Proof.
  unfold accumulate, Dict.get.
  induction acc as [|[k' v'] acc IH].
  - cbn [Dict.find Dict.set]. rewrite subspace_mass_cons. cbn [fst snd].
    unfold subspace_mass. rewrite qsum_nil.
    destruct (Py.sum k =? n)%Z; ring.
  - cbn [Dict.find Dict.set].
    destruct (outcome_eq_dec k k') as [->|E].
    + rewrite !subspace_mass_cons. cbn [fst snd].
      destruct (Py.sum k' =? n)%Z; ring.
    + rewrite !subspace_mass_cons, IH. cbn [fst snd].
      destruct (Py.sum k' =? n)%Z, (Py.sum k =? n)%Z; ring.
Qed.

Lemma subspace_mass_marginal (proj : outcome -> outcome) (d acc : ProbDict) (n : Z) :
  subspace_mass (marginal_loop proj d acc) n
  == subspace_mass acc n + projected_mass proj d n.
Proof.
  revert acc. induction d as [|kv d IH]; intros acc.
  - unfold projected_mass. rewrite qsum_nil.
    change (marginal_loop proj [] acc) with acc. ring.
  - rewrite marginal_loop_cons, IH, subspace_mass_accumulate.
    unfold projected_mass. rewrite qsum_cons.
    destruct (Py.sum (proj (fst kv)) =? n)%Z; ring.
Qed.

Lemma subspace_mass_scaled (total : Q) (d : ProbDict) (n : Z) :
  subspace_mass (scaled total d) n == subspace_mass d n / total.
Proof.
  induction d as [|[k v] d IH].
  - unfold subspace_mass, scaled. simpl. unfold Qdiv. ring.
  - change (scaled total ((k, v) :: d)) with ((k, v / total) :: scaled total d).
    rewrite !subspace_mass_cons, IH. cbn [fst snd].
    destruct (Py.sum k =? n)%Z; unfold Qdiv; ring.
Qed.

Lemma filter_get (n : Z) (d : ProbDict) (k : outcome) :
  Py.sum k = n ->
  Dict.get (filter (fun kv => (Py.sum (fst kv) =? n)%Z) d) k 0 = Dict.get d k 0.
Proof.
  intros Hs. unfold Dict.get.
  rewrite (@filter_find (fun k => (Py.sum k =? n)%Z)).
  now replace (Py.sum k =? n)%Z with true by (symmetry; now apply Z.eqb_eq).
Qed.

(** filtering a normalised marginal gives the conditional marginal *)
Lemma filter_normalised_marginal (proj : outcome -> outcome)
  (d Hn out : ProbDict) (n : Z) :
  normalizeProbDict (marginal_loop proj d []) = Ok Hn ->
  filterProbDict Hn n = Ok out ->
  (forall h, In h (Dict.keys out) <->
             (exists o, In o (Dict.keys d) /\ proj o = h) /\ Py.sum h = n) /\
  (forall h, In h (Dict.keys out) ->
             Dict.get out h 0 == marginal_weight proj d h / projected_mass proj d n) /\
  NoDup (Dict.keys out) /\
  (out = [] \/ fsum (Dict.values out) == 1).
Proof.
  intros E F.
  set (H0 := marginal_loop proj d []) in *.
  assert (HndH : NoDup (Dict.keys H0)) by apply marginal_NoDup_nil.
  apply normalizeProbDict_Ok_inv in E; [|exact HndH]. destruct E as [-> HnzH].
  set (M := fsum (Dict.values H0)) in *.
  assert (HM : M == fsum (Dict.values d)) by apply marginal_total.
  rewrite filterProbDict_unfold in F by (now rewrite scaled_keys).
  set (sub := filter (fun kv => (Py.sum (fst kv) =? n)%Z) (scaled M H0)) in *.
  assert (Hsub : NoDup (Dict.keys sub)).
  { apply filter_keys_NoDup with (p := fun k => (Py.sum k =? n)%Z).
    now rewrite scaled_keys. }
  apply normalizeProbDict_Ok_inv in F; [|exact Hsub]. destruct F as [-> Hnzs].
  assert (Hkeys : forall h, In h (Dict.keys sub) <->
             (exists o, In o (Dict.keys d) /\ proj o = h) /\ Py.sum h = n).
  { intros h. unfold sub.
    rewrite (@filter_keys (fun k => (Py.sum k =? n)%Z)), filter_In, scaled_keys.
    unfold H0. rewrite marginal_keys, Z.eqb_eq. simpl. tauto. }
  rewrite scaled_keys.
  split; [exact Hkeys|]. split; [|split; [exact Hsub|]].
  - intros h Hh.
    assert (Hne : sub <> []) by (intros E; rewrite E in Hh; destruct Hh).
    specialize (Hnzs Hne).
    assert (HneH : H0 <> []).
    { intros E. unfold sub in Hne. rewrite E in Hne. now apply Hne. }
    specialize (HnzH HneH).
    assert (Hs : Py.sum h = n) by (apply Hkeys in Hh; tauto).
    assert (Hmass : fsum (Dict.values sub) == projected_mass proj d n / M).
    { unfold sub. rewrite subspace_filter_mass, subspace_mass_scaled.
      unfold H0. rewrite subspace_mass_marginal.
      unfold subspace_mass at 1. rewrite qsum_nil. unfold Qdiv. ring. }
    assert (Hpm : ~ projected_mass proj d n == 0).
    { intros Hz. apply Hnzs. rewrite Hmass, Hz. unfold Qdiv. ring. }
    rewrite get_scaled. unfold sub at 1. rewrite filter_get by assumption.
    rewrite get_scaled. unfold H0 at 1. rewrite marginal_get.
    unfold Dict.get at 1. cbn [Dict.find]. rewrite Hmass.
    field. split; assumption.
  - destruct sub as [|kv l] eqn:Es; [now left|]. right.
    apply scaled_mass_one. apply Hnzs. discriminate.
Qed.

(** X17: tracing and then filtering gives a conditional marginal.  When
    the weights of [d] do not sum to zero, and neither do the weights of
    the outcomes whose even-position projection has total [n], no divisor
    is zero (for Python floats and numpy scalars alike), both calls return,
    the keys of [filterProbDict(H, n)] are the even-position projections
    of total [n], the weight of [h] is the weight of the outcomes
    projecting to [h] divided by the weight of the outcomes whose
    projection has total [n], and the weights sum to 1: the normalisation
    made by [traceOverHV] cancels. *)
Theorem trace_then_filter (d : ProbDict) (num_photons : Z) :
  ~ fsum (Dict.values d) == 0 ->
  ~ projected_mass (slice_step 0 2) d num_photons == 0 ->
  exists H V out : ProbDict,
    traceOverHV d = Ok (H, V) /\
    filterProbDict H num_photons = Ok out /\
    (forall h, In h (Dict.keys out) <->
       (exists o, In o (Dict.keys d) /\ slice_step 0 2 o = h) /\
       Py.sum h = num_photons) /\
    (forall h, In h (Dict.keys out) ->
       Dict.get out h 0
       == marginal_weight (slice_step 0 2) d h
          / projected_mass (slice_step 0 2) d num_photons) /\
    fsum (Dict.values out) == 1.
Proof.
  intros Hnz Hpm.
  set (H0 := marginal_loop (slice_step 0 2) d []).
  set (V0 := marginal_loop (slice_step 1 2) d []).
  assert (HndH : NoDup (Dict.keys H0)) by apply marginal_NoDup_nil.
  assert (HM : fsum (Dict.values H0) == fsum (Dict.values d))
    by apply marginal_total.
  assert (HnzH : ~ fsum (Dict.values H0) == 0) by (now rewrite HM).
  assert (EH : normalizeProbDict H0 = Ok (scaled (fsum (Dict.values H0)) H0))
    by (now apply normalizeProbDict_ok).
  set (Hn := scaled (fsum (Dict.values H0)) H0) in *.
  assert (HndHn : NoDup (Dict.keys Hn)) by (unfold Hn; now rewrite scaled_keys).
  assert (Hmass : subspace_mass Hn num_photons
                  == projected_mass (slice_step 0 2) d num_photons
                     / fsum (Dict.values H0)).
  { unfold Hn. rewrite subspace_mass_scaled. unfold H0 at 1.
    rewrite subspace_mass_marginal.
    unfold subspace_mass at 1. rewrite qsum_nil. unfold Qdiv. ring. }
  assert (Hsm : ~ subspace_mass Hn num_photons == 0).
  { rewrite Hmass. intros Hz. apply Hpm.
    setoid_replace (projected_mass (slice_step 0 2) d num_photons)
      with (projected_mass (slice_step 0 2) d num_photons
            / fsum (Dict.values H0) * fsum (Dict.values H0))
      by (field; exact HnzH).
    rewrite Hz. ring. }
  set (sub := filter (fun kv => (Py.sum (fst kv) =? num_photons)%Z) Hn).
  assert (Hsub : NoDup (Dict.keys sub)).
  { apply filter_keys_NoDup with (p := fun k => (Py.sum k =? num_photons)%Z).
    exact HndHn. }
  assert (Hnzs : ~ fsum (Dict.values sub) == 0).
  { unfold sub. now rewrite subspace_filter_mass. }
  assert (F : filterProbDict Hn num_photons
              = Ok (scaled (fsum (Dict.values sub)) sub)).
  { rewrite filterProbDict_unfold by exact HndHn. fold sub.
    now apply normalizeProbDict_ok. }
  exists Hn, (scaled (fsum (Dict.values V0)) V0),
         (scaled (fsum (Dict.values sub)) sub).
  split; [now apply traceOverHV_nonzero|]. split; [exact F|].
  destruct (@filter_normalised_marginal _ _ _ _ _ EH F) as [Hk [Hg _]].
  split; [exact Hk|]. split; [exact Hg|].
  now apply scaled_mass_one.
Qed.

Lemma trace_then_filter_witness :
  exists H V out : ProbDict,
    traceOverHV sample_dict = Ok (H, V) /\
    filterProbDict H 1 = Ok out /\
    fsum (Dict.values out) == 1.
Proof.
  destruct (@trace_then_filter sample_dict 1) as [H [V [out [T [F [_ [_ M]]]]]]].
  - vm_compute. discriminate.
  - vm_compute. discriminate.
  - exists H, V, out. repeat split; assumption.
Defined.

(* ================================================================== *)
(** ** More on computeWalkOutputWithMM *)

Lemma qsum_ge_term (A : Type) (f : A -> Q) (l : list A) (x : A) :
  (forall y, In y l -> 0 <= f y) -> In x l -> f x <= qsum f l.
Proof.
  induction l as [|y l IH]; intros Hnn Hin; [destruct Hin|].
  rewrite qsum_cons.
  assert (H0 : 0 <= qsum f l).
  { rewrite <- (qsum_zero (fun _ : A => 0) l) by reflexivity.
    apply qsum_le. intros z Hz. apply Hnn. now right. }
  destruct Hin as [->|Hin].
  - lra.
  - assert (f x <= qsum f l) by (apply IH; [intros z Hz; apply Hnn; now right | exact Hin]).
    assert (0 <= f y) by (apply Hnn; now left). lra.
Qed.

Lemma kept_term_nonneg (d1 d2 : ProbDict) (mp : Z) (kv1 kv2 : outcome * Q) :
  nonneg_weights d1 -> nonneg_weights d2 -> In kv1 d1 -> In kv2 d2 ->
  0 <= kept_term mp kv1 kv2.
Proof.
  intros H1 H2 I1 I2. unfold kept_term.
  pose proof (@In_values_nonneg d1 kv1 H1 I1).
  pose proof (@In_values_nonneg d2 kv2 H2 I2).
  destruct (_ <=? _)%Z; nra.
Qed.

Lemma kept_mass_ge_vacuum (n : nat) (d1 d2 : ProbDict) (mp : Z) (v1 v2 : Q) :
  (0 <= mp)%Z ->
  nonneg_weights d1 -> nonneg_weights d2 ->
  In (vacuum n, v1) d1 -> In (vacuum n, v2) d2 ->
  v1 * v2 <= kept_mass d1 d2 mp.
Proof.
  intros Hmp H1 H2 I1 I2. unfold kept_mass.
  apply Qle_trans with (qsum (kept_term mp (vacuum n, v1)) d2).
  - apply Qle_trans with (kept_term mp (vacuum n, v1) (vacuum n, v2)).
    + unfold kept_term. cbn [fst snd].
      rewrite zip_add_vacuum_n by apply vacuum_length.
      rewrite sum_vacuum.
      replace (0 <=? mp)%Z with true by (symmetry; now apply Z.leb_le). lra.
    + apply qsum_ge_term with (f := kept_term mp (vacuum n, v1)); [|exact I2].
      intros kv2 Hin. now apply kept_term_nonneg with (d1 := d1) (d2 := d2).
  - apply qsum_ge_term
      with (f := fun kv1 => qsum (kept_term mp kv1) d2); [|exact I1].
    intros kv1 Hin.
    rewrite <- (qsum_zero (fun _ : outcome * Q => 0) d2) by reflexivity.
    apply qsum_le. intros kv2 Hin2.
    now apply kept_term_nonneg with (d1 := d1) (d2 := d2).
Qed.

Section MismatchMore.

Variable State : Type.
Variable eng_run : Z -> Program -> State.
Variable fock_prob : State -> list Z -> Q.

Lemma WithMM_of_branches (nSteps : Z) (r alphaSq eta gamma mm : Q)
  (max_photons : Z) (n_noise : Q) (pn_para pn_perp : ProbDict) :
  (0 <= nSteps)%Z ->
  result (computeWalkOutput eng_run fock_prob nSteps r (mm * alphaSq) eta
            gamma max_photons n_noise 1) = Ok pn_para ->
  result (computeWalkOutput eng_run fock_prob nSteps r ((1 - mm) * alphaSq)
            eta gamma max_photons n_noise 0) = Ok pn_perp ->
  result (computeWalkOutputWithMM eng_run fock_prob nSteps r alphaSq eta
            gamma mm max_photons n_noise)
  = normalizeProbDict (convolve_probabilities pn_para pn_perp 2).
Proof.
  intros HN E1 E0.
  rewrite result_computeWalkOutput in E1, E0 by assumption.
  injection E1 as <-. injection E0 as <-.
  now apply result_computeWalkOutputWithMM.
Qed.

(** X19: if the two branch maps have non-negative weights and both give a
    positive weight to the all-zero outcome, [computeWalkOutputWithMM]
    returns, without error, a probability distribution: distinct keys,
    every weight in [0, 1], total 1. *)
Theorem computeWalkOutputWithMM_distribution (nSteps : Z)
  (r alphaSq eta gamma mm : Q) (max_photons : Z) (n_noise : Q)
  (pn_para pn_perp : ProbDict) (v1 v0 : Q) :
  (0 <= nSteps)%Z ->
  result (computeWalkOutput eng_run fock_prob nSteps r (mm * alphaSq) eta
            gamma max_photons n_noise 1) = Ok pn_para ->
  result (computeWalkOutput eng_run fock_prob nSteps r ((1 - mm) * alphaSq)
            eta gamma max_photons n_noise 0) = Ok pn_perp ->
  nonneg_weights pn_para -> nonneg_weights pn_perp ->
  Dict.find (vacuum (Z.to_nat (2 * nSteps + 2))) pn_para = Some v1 -> 0 < v1 ->
  Dict.find (vacuum (Z.to_nat (2 * nSteps + 2))) pn_perp = Some v0 -> 0 < v0 ->
  exists out : ProbDict,
    result (computeWalkOutputWithMM eng_run fock_prob nSteps r alphaSq eta
              gamma mm max_photons n_noise) = Ok out /\
    NoDup (Dict.keys out) /\
    unit_weights out /\
    fsum (Dict.values out) == 1.
Proof.
  intros HN E1 E0 N1 N0 F1 P1 F0 P0.
  rewrite (@WithMM_of_branches _ _ _ _ _ _ _ _ _ _ HN E1 E0).
  set (conv := convolve_probabilities pn_para pn_perp 2).
  assert (Hnn : nonneg_weights conv) by (now apply convolve_nonneg).
  assert (Hpos : 0 < fsum (Dict.values conv)).
  { unfold conv. rewrite convolve_mass.
    apply Qlt_le_trans with (v1 * v0); [nra|].
    apply kept_mass_ge_vacuum with (n := Z.to_nat (2 * nSteps + 2));
      try assumption; try lia; now apply DictFacts.find_Some_In. }
  exists (scaled (fsum (Dict.values conv)) conv).
  split.
  { apply normalizeProbDict_ok; [apply convolve_NoDup|].
    intros H. rewrite H in Hpos. discriminate. }
  split; [rewrite scaled_keys; apply convolve_NoDup|].
  split; [now apply scaled_unit_weights|].
  apply scaled_mass_one. intros H. rewrite H in Hpos. discriminate.
Qed.

(** X20: for [max_photons >= 2] the keys of the final distribution are
    exactly the outcomes over 2 nSteps + 2 channels of total at most 2,
    the labels [generate_photon_outcomes] gives for the cutoff 2, whatever
    [max_photons] is. *)
Theorem computeWalkOutputWithMM_keys (nSteps : Z) (r alphaSq eta gamma mm : Q)
  (max_photons : Z) (n_noise : Q) (out : ProbDict) :
  (0 <= nSteps)%Z -> (2 <= max_photons)%Z ->
  result (computeWalkOutputWithMM eng_run fock_prob nSteps r alphaSq eta
            gamma mm max_photons n_noise) = Ok out ->
  exists labels2 : list outcome,
    generate_photon_outcomes (2 * nSteps + 2) 2 = Ok labels2 /\
    (forall s, In s (Dict.keys out) <-> In s labels2) /\
    (forall s, In s (Dict.keys out) <-> valid_outcome (2 * nSteps + 2) 2 s).
Proof.
  intros HN Hmp E.
  rewrite result_computeWalkOutputWithMM in E by assumption.
  apply normalizeProbDict_Ok_keys in E; [|apply convolve_NoDup].
  set (n := Z.to_nat (2 * nSteps + 2)).
  assert (Hkeys : forall s, In s (Dict.keys out) <-> In s (completions 2 n 2)).
  { intros s. rewrite E, convolve_keys, !completions_In. split.
    - intros [Hs [kv1 [kv2 [H1 [H2 <-]]]]].
      apply in_map_iff in H1, H2.
      destruct H1 as [o1 [<- H1]], H2 as [o2 [<- H2]]. cbn [fst] in *.
      unfold the_labels in H1, H2. fold n in H1, H2.
      apply completions_In in H1, H2.
      destruct H1 as [L1 [F1 _]], H2 as [L2 [F2 _]].
      split; [rewrite zip_add_length; lia|]. split; [|exact Hs].
      assert (Hnn : Forall (fun x => 0 <= x)%Z (zip_add o1 o2)).
      { apply zip_add_nonneg; (eapply Forall_impl; [|eassumption]);
          cbn beta; intros; lia. }
      pose proof (le_sum Hnn) as Hle. rewrite Forall_forall in *.
      intros x Hx. specialize (Hnn x Hx). specialize (Hle x Hx). lia.
    - intros [L [F S]]. split; [exact S|].
      assert (Hin : In s (the_labels nSteps max_photons)).
      { unfold the_labels. fold n. apply completions_In.
        split; [exact L|]. split; [|lia].
        eapply Forall_impl; [|exact F]. cbn beta. intros; lia. }
      assert (Hv : In (vacuum n) (the_labels nSteps max_photons)).
      { unfold the_labels. fold n. apply vacuum_In. lia. }
      eexists (s, _), (vacuum n, _). split; [|split].
      + unfold heralded_map. apply in_map_iff. exists s. split; [reflexivity | exact Hin].
      + unfold heralded_map. apply in_map_iff. exists (vacuum n).
        split; [reflexivity | exact Hv].
      + cbn [fst]. now apply zip_add_vacuum_n. }
  exists (completions 2 n 2).
  split; [apply generate_photon_outcomes_completions; lia|].
  split; [exact Hkeys|].
  intros s. rewrite Hkeys, completions_In. unfold valid_outcome, n.
  split; intros [L H]; (split; [lia | exact H]).
Qed.

End MismatchMore.

Lemma nonneg_weights_check (d : ProbDict) :
  forallb (Qle_bool 0) (Dict.values d) = true -> nonneg_weights d.
Proof.
  intros H. unfold nonneg_weights. apply Forall_forall. intros v Hv.
  rewrite forallb_forall in H. apply Qle_bool_iff. now apply H.
Qed.

Lemma computeWalkOutputWithMM_distribution_witness :
  exists out : ProbDict,
    result (computeWalkOutputWithMM toy_run toy_fock 0 (7 # 100) (8 # 100)
              (7 # 100) 0 (7 # 10) 2 (5 # 1000000)) = Ok out /\
    NoDup (Dict.keys out) /\
    unit_weights out /\
    fsum (Dict.values out) == 1.
Proof.
  apply (@computeWalkOutputWithMM_distribution bool toy_run toy_fock
           0 (7 # 100) (8 # 100) (7 # 100) 0 (7 # 10) 2 (5 # 1000000)
           toy_open toy_blocked (1 # 16) (1 # 4)).
  - lia.
  - vm_compute. reflexivity.
  - vm_compute. reflexivity.
  - apply nonneg_weights_check. reflexivity.
  - apply nonneg_weights_check. reflexivity.
  - reflexivity.
  - reflexivity.
  - reflexivity.
  - reflexivity.
Defined.

Lemma computeWalkOutputWithMM_keys_witness :
  exists (out : ProbDict) (labels2 : list outcome),
    result (computeWalkOutputWithMM toy_run toy_fock 0 (7 # 100) (8 # 100)
              (7 # 100) 0 (7 # 10) 3 (5 # 1000000)) = Ok out /\
    generate_photon_outcomes (2 * 0 + 2) 2 = Ok labels2 /\
    (forall s, In s (Dict.keys out) <-> In s labels2).
Proof.
  destruct (result (computeWalkOutputWithMM toy_run toy_fock 0 (7 # 100) (8 # 100)
              (7 # 100) 0 (7 # 10) 3 (5 # 1000000))) as [out|e] eqn:R;
    [|vm_compute in R; discriminate].
  destruct (@computeWalkOutputWithMM_keys bool toy_run toy_fock
              0 (7 # 100) (8 # 100) (7 # 100) 0 (7 # 10) 3 (5 # 1000000) out)
    as [labels2 [G [K _]]]; [lia | lia | exact R |].
  exists out, labels2. repeat split; try assumption; now apply K.
Defined.

(* ================================================================== *)
(** ** The script *)





(** *** Strictly positive weights *)














Section Script.

Variable State : Type.
Variable eng_run : Z -> Program -> res State.
Variable fock_prob : State -> list Z -> res Q.




End Script.




(* ================================================================== *)
(** ** More on computeWalkOutput *)

Section WalkOutputMore.

Variable State : Type.
Variable eng_run : Z -> Program -> State.
Variable fock_prob : State -> list Z -> Q.



Lemma completions_mono (mp mp' : Z) (n : nat) (o : outcome) :
  (mp <= mp')%Z -> In o (completions mp n mp) -> In o (completions mp' n mp').
Proof.
  intros Hle Hin. apply completions_In in Hin. destruct Hin as [L [F S]].
  apply completions_In. split; [exact L|]. split; [|lia].
  eapply Forall_impl; [|exact F]. cbn beta. intros; lia.
Qed.

(** X22: raising the cutoff only adds outcomes: every outcome of the map
    computed with [max_photons] is in the map computed with a larger
    cutoff, with the same weight. *)
Theorem computeWalkOutput_cutoff_monotone (nSteps : Z) (r alphaSq eta gamma : Q)
  (max_photons max_photons' : Z) (n_noise etaFock : Q) (pn pn' : ProbDict) :
  (0 <= nSteps)%Z -> (max_photons <= max_photons')%Z ->
  result (computeWalkOutput eng_run fock_prob nSteps r alphaSq eta gamma
            max_photons n_noise etaFock) = Ok pn ->
  result (computeWalkOutput eng_run fock_prob nSteps r alphaSq eta gamma
            max_photons' n_noise etaFock) = Ok pn' ->
  forall o v, Dict.find o pn = Some v -> Dict.find o pn' = Some v.
Proof.
  intros HN Hle E E' o v Hf.
  rewrite result_computeWalkOutput in E, E' by assumption.
  injection E as <-. injection E' as <-.
  assert (Hin : In o (the_labels nSteps max_photons)).
  { rewrite <- (heralded_map_keys
                  (fock_prob (eng_run 2 (the_program nSteps r alphaSq eta gamma
                                           n_noise etaFock)))).
    apply DictFacts.find_In_keys. eauto. }
  rewrite heralded_map_find in Hf by assumption.
  rewrite heralded_map_find; [exact Hf|].
  unfold the_labels in *. now apply completions_mono with (mp := max_photons).
Qed.

End WalkOutputMore.


Lemma computeWalkOutput_cutoff_monotone_witness :
  exists pn' : ProbDict,
    result (computeWalkOutput toy_run toy_fock 0 (7 # 100) (8 # 100)
              (7 # 100) 0 3 (5 # 1000000) 1) = Ok pn' /\
    Dict.find [0; 1]%Z pn' = Some (1 # 32).
Proof.
  destruct (result (computeWalkOutput toy_run toy_fock 0 (7 # 100) (8 # 100)
                      (7 # 100) 0 3 (5 # 1000000) 1)) as [pn'|e] eqn:R;
    [|vm_compute in R; discriminate].
  exists pn'. split; [reflexivity|].
  apply (@computeWalkOutput_cutoff_monotone bool toy_run toy_fock
           0 (7 # 100) (8 # 100) (7 # 100) 0 2 3 (5 # 1000000) 1 toy_open pn');
    [lia | lia | vm_compute; reflexivity | exact R | reflexivity].
Defined.
